(** * gecko: the Packer wire codec and the timestamp VM

    A shallow embedding of [utils/wrappers/packing.go] (the Packer) and of
    [vms/timestampvm/vm.go] (the timestamp VM), with the properties their
    specification states about them.

    Conventions of the embedding:
    - a Go [int] is a [Z] in the signed 64-bit range, its arithmetic wraps
      ([wrap64]); [uint16], [uint32] and [uint64] are [Z]s reduced modulo
      their width where Go converts;
    - a [byte] is a [Byte.byte]; a [[]byte] value and a [string] are
      [list byte] (a nil slice and an empty one are the same list);
    - the Packer's own buffer is a [slice]: the bytes below its length and
      the bytes of its backing array between length and capacity;
    - a run-time panic (index or slice bound out of range) is the outcome
      [Panic]; the methods of the Packer are computations in the monad [M]. *)

From Stdlib Require Import ZArith List Lia Bool.
From Stdlib.Strings Require Import Byte.
Import ListNotations.

Local Open Scope Z_scope.

(* ================================================================== *)
(** ** Machine integers and bytes *)

Definition two63 : Z := 9223372036854775808.
Definition two64 : Z := 18446744073709551616.
Definition two32 : Z := 4294967296.
Definition two16 : Z := 65536.

Definition MaxInt64 : Z := two63 - 1.

(** The value of a Go [int] expression: two's complement on 64 bits. *)
Definition wrap64 (z : Z) : Z := (z + two63) mod two64 - two63.

(** Go's conversions [uint16(x)], [uint32(x)], [uint64(x)]. *)
Definition uint16 (z : Z) : Z := z mod two16.
Definition uint32 (z : Z) : Z := z mod two32.
Definition uint64 (z : Z) : Z := z mod two64.

(** Go's conversion [byte(x)] and the value of a byte. *)
Definition byte_of_Z (z : Z) : byte :=
  match Byte.of_N (Z.to_N (z mod 256)) with
  | Some b => b
  | None => x00
  end.

Definition Z_of_byte (b : byte) : Z := Z.of_N (Byte.to_N b).

Definition zeros (n : nat) : list byte := repeat x00 n.

(** Go's [len] of a byte sequence or of a list. *)
Definition llen {A : Type} (l : list A) : Z := Z.of_nat (length l).

(* ------------------------------------------------------------------ *)
(** *** encoding/binary, big endian *)

Module BigEndian.

(** [PutUint16(b, v)]: the early bounds check [_ = b[1]] panics on a
    destination shorter than the width. *)
Definition PutUint16 (b : list byte) (v : Z) : option (list byte) :=
  match b with
  | _ :: _ :: rest =>
      Some (byte_of_Z (Z.shiftr v 8) :: byte_of_Z v :: rest)
  | _ => None
  end.

Definition Uint16 (b : list byte) : option Z :=
  match b with
  | b0 :: b1 :: _ =>
      Some (Z.lor (Z_of_byte b1) (Z.shiftl (Z_of_byte b0) 8))
  | _ => None
  end.

Definition PutUint32 (b : list byte) (v : Z) : option (list byte) :=
  match b with
  | _ :: _ :: _ :: _ :: rest =>
      Some (byte_of_Z (Z.shiftr v 24) :: byte_of_Z (Z.shiftr v 16)
            :: byte_of_Z (Z.shiftr v 8) :: byte_of_Z v :: rest)
  | _ => None
  end.

Definition Uint32 (b : list byte) : option Z :=
  match b with
  | b0 :: b1 :: b2 :: b3 :: _ =>
      Some (Z.lor (Z.lor (Z.lor (Z_of_byte b3)
                                (Z.shiftl (Z_of_byte b2) 8))
                         (Z.shiftl (Z_of_byte b1) 16))
                  (Z.shiftl (Z_of_byte b0) 24))
  | _ => None
  end.

Definition PutUint64 (b : list byte) (v : Z) : option (list byte) :=
  match b with
  | _ :: _ :: _ :: _ :: _ :: _ :: _ :: _ :: rest =>
      Some (byte_of_Z (Z.shiftr v 56) :: byte_of_Z (Z.shiftr v 48)
            :: byte_of_Z (Z.shiftr v 40) :: byte_of_Z (Z.shiftr v 32)
            :: byte_of_Z (Z.shiftr v 24) :: byte_of_Z (Z.shiftr v 16)
            :: byte_of_Z (Z.shiftr v 8) :: byte_of_Z v :: rest)
  | _ => None
  end.

Definition Uint64 (b : list byte) : option Z :=
  match b with
  | b0 :: b1 :: b2 :: b3 :: b4 :: b5 :: b6 :: b7 :: _ =>
      Some (Z.lor (Z.lor (Z.lor (Z.lor (Z.lor (Z.lor (Z.lor
             (Z_of_byte b7)
             (Z.shiftl (Z_of_byte b6) 8))
             (Z.shiftl (Z_of_byte b5) 16))
             (Z.shiftl (Z_of_byte b4) 24))
             (Z.shiftl (Z_of_byte b3) 32))
             (Z.shiftl (Z_of_byte b2) 40))
             (Z.shiftl (Z_of_byte b1) 48))
             (Z.shiftl (Z_of_byte b0) 56))
  | _ => None
  end.

End BigEndian.

(* ================================================================== *)
(** ** Slices *)

(** A [[]byte] that is written through: [vis] holds the elements below
    [len], [spare] the elements of the backing array from [len] up to
    [cap]. *)
Record slice : Type := mkSlice {
  vis : list byte;
  spare : list byte
}.

Definition nil_slice : slice := mkSlice [] [].

Definition len (s : slice) : Z := llen (vis s).
Definition cap (s : slice) : Z := llen (vis s) + llen (spare s).

(** [s[:hi]], for a [hi] that may lie between [len] and [cap]. *)
Definition slice_to (s : slice) (hi : Z) : option slice :=
  if (0 <=? hi) && (hi <=? cap s) then
    let a := vis s ++ spare s in
    Some (mkSlice (firstn (Z.to_nat hi) a) (skipn (Z.to_nat hi) a))
  else None.

(** [s[lo:]]: the elements seen through the view. *)
Definition slice_from (s : slice) (lo : Z) : option (list byte) :=
  if (0 <=? lo) && (lo <=? len s) then Some (skipn (Z.to_nat lo) (vis s))
  else None.

(** The slice [s] after the view [s[lo:]] has been overwritten with [b]
    (the view shares the backing array of [s]). *)
Definition store_from (s : slice) (lo : Z) (b : list byte) : slice :=
  mkSlice (firstn (Z.to_nat lo) (vis s) ++ b) (spare s).

(** [s[lo:hi]], read as a value. *)
Definition slice_range (s : slice) (lo hi : Z) : option (list byte) :=
  if (0 <=? lo) && (lo <=? hi) && (hi <=? cap s) then
    Some (firstn (Z.to_nat (hi - lo))
                 (skipn (Z.to_nat lo) (vis s ++ spare s)))
  else None.

(** [s[i]]. *)
Definition index (s : slice) (i : Z) : option byte :=
  if (0 <=? i) && (i <? len s) then nth_error (vis s) (Z.to_nat i)
  else None.

(** [s[i] = v]. *)
Definition set_index (s : slice) (i : Z) (v : byte) : option slice :=
  if (0 <=? i) && (i <? len s) then
    Some (mkSlice (firstn (Z.to_nat i) (vis s) ++ v
                     :: skipn (S (Z.to_nat i)) (vis s))
                  (spare s))
  else None.

(** The destination after [copy(dst, src)]: the shorter length decides. *)
Definition copy (dst src : list byte) : list byte :=
  firstn (length dst) src ++ skipn (length src) dst.

(* ================================================================== *)
(** ** Errors *)

Inductive error : Type :=
| errBadLength
| errNegativeOffset
| errInvalidInput
| errBadType
| errBadBool.

(** Modelled from the spec: the type [Errs] embedded in the Packer is
    declared in a file that is not at hand; the spec has it as "an ordered
    list of accumulated errors", [Add] records one more and [Errored] tells
    whether at least one was recorded. *)
Definition Errs : Type := list error.

(* ================================================================== *)
(** ** The Packer *)

Record Packer : Type := mkPacker {
  Errs_ : Errs;
  MaxSize : Z;
  Bytes : slice;
  Offset : Z
}.

Definition Errored (p : Packer) : bool :=
  match Errs_ p with
  | [] => false
  | _ :: _ => true
  end.

Definition Add (e : error) (p : Packer) : Packer :=
  mkPacker (Errs_ p ++ [e]) (MaxSize p) (Bytes p) (Offset p).

Definition set_Bytes (b : slice) (p : Packer) : Packer :=
  mkPacker (Errs_ p) (MaxSize p) b (Offset p).

Definition set_Offset (o : Z) (p : Packer) : Packer :=
  mkPacker (Errs_ p) (MaxSize p) (Bytes p) o.

(** *** The monad of Packer methods *)

Inductive result (A : Type) : Type :=
| Ok (a : A) (p : Packer)
| Panic.

Arguments Ok {A} a p.
Arguments Panic {A}.

Definition M (A : Type) : Type := Packer -> result A.

Definition ret {A : Type} (a : A) : M A := fun p => Ok a p.

Definition bind {A B : Type} (m : M A) (f : A -> M B) : M B :=
  fun p => match m p with
           | Ok a p' => f a p'
           | Panic => Panic
           end.

Definition get : M Packer := fun p => Ok p p.

Definition modify (f : Packer -> Packer) : M unit := fun p => Ok tt (f p).

(** A bounds-checked access: [None] is the panic of the Go runtime. *)
Definition checked {A : Type} (o : option A) : M A :=
  fun p => match o with
           | Some a => Ok a p
           | None => Panic
           end.

Notation "x <- m ;; k" := (bind m (fun x => k))
  (at level 61, m at next level, right associativity).
Notation "m ;;; k" := (bind m (fun _ => k))
  (at level 61, right associativity).

Section Packer.

(** [append] allocates a new backing array when the capacity does not
    suffice; how much room it leaves behind the new length is the choice of
    the Go runtime: [growslice_spare c n] elements, for an old capacity [c]
    and a new length [n]. *)
Variable growslice_spare : Z -> Z -> nat.

(** [append(s[:cap(s)], make([]byte, n)...)] where the capacity is
    exhausted: everything is copied into a new array, the added elements
    and the room behind them are zero. *)
Definition append_zeros (s : slice) (n : Z) : slice :=
  mkSlice (vis s ++ zeros (Z.to_nat n))
          (zeros (growslice_spare (len s) (len s + n))).

Definition ByteLen : Z := 1.
Definition ShortLen : Z := 2.
Definition IntLen : Z := 4.
Definition LongLen : Z := 8.
Definition MaxStringLen : Z := 65535.

(** [CheckSpace]: the first case of the switch that holds decides. *)
Definition CheckSpace (bytes : Z) : M unit :=
  p <- get ;;
  if Offset p <? 0 then modify (Add errNegativeOffset)
  else if bytes <? 0 then modify (Add errInvalidInput)
  else if wrap64 (len (Bytes p) - Offset p) <? bytes
       then modify (Add errBadLength)
  else ret tt.

Definition Expand (bytes : Z) : M unit :=
  CheckSpace 0 ;;;
  p <- get ;;
  if Errored p then ret tt else
  let neededSize := wrap64 (bytes + Offset p) in
  if neededSize <=? len (Bytes p) then ret tt
  else if neededSize >? MaxSize p then modify (Add errBadLength)
  else if neededSize >? cap (Bytes p) then
    full <- checked (slice_to (Bytes p) (cap (Bytes p))) ;;
    modify (set_Bytes
              (append_zeros full (wrap64 (neededSize - cap (Bytes p)))))
  else
    s <- checked (slice_to (Bytes p) neededSize) ;;
    modify (set_Bytes s).

Definition PackByte (val : byte) : M unit :=
  Expand ByteLen ;;;
  p <- get ;;
  if Errored p then ret tt else
  s <- checked (set_index (Bytes p) (Offset p) val) ;;
  modify (set_Bytes s) ;;;
  modify (fun p => set_Offset (wrap64 (Offset p + 1)) p).

Definition UnpackByte : M byte :=
  CheckSpace ByteLen ;;;
  p <- get ;;
  if Errored p then ret x00 else
  val <- checked (index (Bytes p) (Offset p)) ;;
  modify (fun p => set_Offset (wrap64 (Offset p + 1)) p) ;;;
  ret val.

Definition PackShort (val : Z) : M unit :=
  Expand ShortLen ;;;
  p <- get ;;
  if Errored p then ret tt else
  b <- checked (slice_from (Bytes p) (Offset p)) ;;
  b' <- checked (BigEndian.PutUint16 b val) ;;
  modify (set_Bytes (store_from (Bytes p) (Offset p) b')) ;;;
  modify (fun p => set_Offset (wrap64 (Offset p + ShortLen)) p).

Definition UnpackShort : M Z :=
  CheckSpace ShortLen ;;;
  p <- get ;;
  if Errored p then ret 0 else
  b <- checked (slice_from (Bytes p) (Offset p)) ;;
  val <- checked (BigEndian.Uint16 b) ;;
  modify (fun p => set_Offset (wrap64 (Offset p + ShortLen)) p) ;;;
  ret val.

Definition PackInt (val : Z) : M unit :=
  Expand IntLen ;;;
  p <- get ;;
  if Errored p then ret tt else
  b <- checked (slice_from (Bytes p) (Offset p)) ;;
  b' <- checked (BigEndian.PutUint32 b val) ;;
  modify (set_Bytes (store_from (Bytes p) (Offset p) b')) ;;;
  modify (fun p => set_Offset (wrap64 (Offset p + IntLen)) p).

Definition UnpackInt : M Z :=
  CheckSpace IntLen ;;;
  p <- get ;;
  if Errored p then ret 0 else
  b <- checked (slice_from (Bytes p) (Offset p)) ;;
  val <- checked (BigEndian.Uint32 b) ;;
  modify (fun p => set_Offset (wrap64 (Offset p + IntLen)) p) ;;;
  ret val.

Definition PackLong (val : Z) : M unit :=
  Expand LongLen ;;;
  p <- get ;;
  if Errored p then ret tt else
  b <- checked (slice_from (Bytes p) (Offset p)) ;;
  b' <- checked (BigEndian.PutUint64 b val) ;;
  modify (set_Bytes (store_from (Bytes p) (Offset p) b')) ;;;
  modify (fun p => set_Offset (wrap64 (Offset p + LongLen)) p).

Definition UnpackLong : M Z :=
  CheckSpace LongLen ;;;
  p <- get ;;
  if Errored p then ret 0 else
  b <- checked (slice_from (Bytes p) (Offset p)) ;;
  val <- checked (BigEndian.Uint64 b) ;;
  modify (fun p => set_Offset (wrap64 (Offset p + LongLen)) p) ;;;
  ret val.

Definition PackBool (b : bool) : M unit :=
  if b then PackByte x01 else PackByte x00.

Definition UnpackBool : M bool :=
  b <- UnpackByte ;;
  match b with
  | x00 => ret false
  | x01 => ret true
  | _ => modify (Add errBadBool) ;;; ret false
  end.

Definition PackFixedBytes (bytes : list byte) : M unit :=
  Expand (llen bytes) ;;;
  p <- get ;;
  if Errored p then ret tt else
  b <- checked (slice_from (Bytes p) (Offset p)) ;;
  modify (set_Bytes (store_from (Bytes p) (Offset p) (copy b bytes))) ;;;
  modify (fun p => set_Offset (wrap64 (Offset p + llen bytes)) p).

Definition UnpackFixedBytes (size : Z) : M (list byte) :=
  CheckSpace size ;;;
  p <- get ;;
  if Errored p then ret [] else
  bytes <- checked (slice_range (Bytes p) (Offset p)
                                (wrap64 (Offset p + size))) ;;
  modify (fun p => set_Offset (wrap64 (Offset p + size)) p) ;;;
  ret bytes.


(** [PackBytes]: the length goes out as [uint32(len(bytes))]. *)
Definition PackBytes (bytes : list byte) : M unit :=
  PackInt (uint32 (llen bytes)) ;;;
  PackFixedBytes bytes.

(** [UnpackBytes]: [int(size)] of a [uint32] is the same number. *)
Definition UnpackBytes : M (list byte) :=
  size <- UnpackInt ;;
  UnpackFixedBytes (wrap64 size).

(** The [range] loop of [PackFixedByteSlices]. *)
Fixpoint PackFixedByteSlices_loop (byteSlices : list (list byte)) : M unit :=
  match byteSlices with
  | [] => ret tt
  | bytes :: rest =>
      PackFixedBytes bytes ;;; PackFixedByteSlices_loop rest
  end.

Definition PackFixedByteSlices (byteSlices : list (list byte)) : M unit :=
  PackInt (uint32 (llen byteSlices)) ;;;
  PackFixedByteSlices_loop byteSlices.

(** The loop of [UnpackFixedByteSlices],
    [for i := uint32(0); i < sliceSize && !p.Errored(); i++], with [n] the
    iterations that [i < sliceSize] still allows. *)
Fixpoint UnpackFixedByteSlices_loop (n : nat) (size : Z)
    (bytes : list (list byte)) : M (list (list byte)) :=
  match n with
  | O => ret bytes
  | S n' =>
      p <- get ;;
      if Errored p then ret bytes else
      b <- UnpackFixedBytes size ;;
      UnpackFixedByteSlices_loop n' size (bytes ++ [b])
  end.

Definition UnpackFixedByteSlices (size : Z) : M (list (list byte)) :=
  sliceSize <- UnpackInt ;;
  UnpackFixedByteSlices_loop (Z.to_nat sliceSize) size [].

(** [PackStr]: the error of an oversized string is recorded and the two
    packing calls follow all the same. *)
Definition PackStr (str : list byte) : M unit :=
  let strSize := llen str in
  (if strSize >? MaxStringLen then modify (Add errInvalidInput)
   else ret tt) ;;;
  PackShort (uint16 strSize) ;;;
  PackFixedBytes str.

Definition UnpackStr : M (list byte) :=
  strSize <- UnpackShort ;;
  UnpackFixedBytes (wrap64 strSize).

(** *** IP and port *)

(** Modelled from the spec: [utils.IPDesc] is declared in a file that is
    not at hand; the spec has it as an IP (a byte sequence, 16 bytes on the
    wire) and a 16-bit unsigned port. *)
Record IPDesc : Type := mkIPDesc {
  IP : list byte;
  Port : Z
}.

(** The prefix of an IPv4 address in its IPv6 form, [::ffff:a.b.c.d]. *)
Definition v4InV6Prefix : list byte :=
  zeros 10 ++ [xff; xff].

(** [net.IP.To16]: four bytes are embedded, sixteen are kept, anything
    else is no address (nil). *)
Definition To16 (ip : list byte) : list byte :=
  match ip with
  | [a; b; c; d] => v4InV6Prefix ++ [a; b; c; d]
  | _ => if Nat.eqb (length ip) 16 then ip else []
  end.

Definition PackIP (ip : IPDesc) : M unit :=
  PackFixedBytes (To16 (IP ip)) ;;;
  PackShort (Port ip).

Definition UnpackIP : M IPDesc :=
  ip <- UnpackFixedBytes 16 ;;
  port <- UnpackShort ;;
  ret (mkIPDesc ip port).

(** The loop of [PackIPs], [for i := 0; i < len(ips) && !p.Errored(); i++]. *)
Fixpoint PackIPs_loop (ips : list IPDesc) : M unit :=
  match ips with
  | [] => ret tt
  | ip :: rest =>
      p <- get ;;
      if Errored p then ret tt else
      PackIP ip ;;; PackIPs_loop rest
  end.

Definition PackIPs (ips : list IPDesc) : M unit :=
  PackInt (uint32 (llen ips)) ;;;
  PackIPs_loop ips.

Fixpoint UnpackIPs_loop (n : nat) (ips : list IPDesc) : M (list IPDesc) :=
  match n with
  | O => ret ips
  | S n' =>
      p <- get ;;
      if Errored p then ret ips else
      ip <- UnpackIP ;;
      UnpackIPs_loop n' (ips ++ [ip])
  end.

Definition UnpackIPs : M (list IPDesc) :=
  sliceSize <- UnpackInt ;;
  UnpackIPs_loop (Z.to_nat sliceSize) [].

(* ------------------------------------------------------------------ *)
(** *** The typed operations as one family *)

(** A value together with the typed operation that packs it. *)
Inductive item : Type :=
| IByte (b : byte)
| IBool (b : bool)
| IShort (v : Z)
| IInt (v : Z)
| ILong (v : Z)
| IFixedBytes (bs : list byte)
| IBytes (bs : list byte)
| IFixedByteSlices (bss : list (list byte))
| IStr (s : list byte)
| IIP (ip : IPDesc)
| IIPs (ips : list IPDesc).

(** The typed operation that unpacks, with the size the caller passes. *)
Inductive kind : Type :=
| KByte
| KBool
| KShort
| KInt
| KLong
| KFixedBytes (size : Z)
| KBytes
| KFixedByteSlices (size : Z)
| KStr
| KIP
| KIPs.

Definition pack (v : item) : M unit :=
  match v with
  | IByte b => PackByte b
  | IBool b => PackBool b
  | IShort v => PackShort v
  | IInt v => PackInt v
  | ILong v => PackLong v
  | IFixedBytes bs => PackFixedBytes bs
  | IBytes bs => PackBytes bs
  | IFixedByteSlices bss => PackFixedByteSlices bss
  | IStr s => PackStr s
  | IIP ip => PackIP ip
  | IIPs ips => PackIPs ips
  end.

Definition unpack (k : kind) : M item :=
  match k with
  | KByte => b <- UnpackByte ;; ret (IByte b)
  | KBool => b <- UnpackBool ;; ret (IBool b)
  | KShort => v <- UnpackShort ;; ret (IShort v)
  | KInt => v <- UnpackInt ;; ret (IInt v)
  | KLong => v <- UnpackLong ;; ret (ILong v)
  | KFixedBytes size => bs <- UnpackFixedBytes size ;; ret (IFixedBytes bs)
  | KBytes => bs <- UnpackBytes ;; ret (IBytes bs)
  | KFixedByteSlices size =>
      bss <- UnpackFixedByteSlices size ;; ret (IFixedByteSlices bss)
  | KStr => s <- UnpackStr ;; ret (IStr s)
  | KIP => ip <- UnpackIP ;; ret (IIP ip)
  | KIPs => ips <- UnpackIPs ;; ret (IIPs ips)
  end.

(** The zero value of each type: what an unpack hands back after an error. *)
Definition zero (k : kind) : item :=
  match k with
  | KByte => IByte x00
  | KBool => IBool false
  | KShort => IShort 0
  | KInt => IInt 0
  | KLong => ILong 0
  | KFixedBytes _ => IFixedBytes []
  | KBytes => IBytes []
  | KFixedByteSlices _ => IFixedByteSlices []
  | KStr => IStr []
  | KIP => IIP (mkIPDesc [] 0)
  | KIPs => IIPs []
  end.

(** Several operations in a row. *)
Fixpoint pack_all (vs : list item) : M unit :=
  match vs with
  | [] => ret tt
  | v :: rest => pack v ;;; pack_all rest
  end.

Fixpoint unpack_all (ks : list kind) : M (list item) :=
  match ks with
  | [] => ret []
  | k :: rest =>
      v <- unpack k ;;
      vs <- unpack_all rest ;;
      ret (v :: vs)
  end.

End Packer.

(* ================================================================== *)
(** ** The timestamp VM *)

(** [ids.ID]: a 32-byte identifier; [ids.Empty] is the all-zero one. *)
Definition ID : Type := list byte.

Definition ids_Empty : ID := zeros 32.

Fixpoint bytes_eqb (a b : list byte) : bool :=
  match a, b with
  | [], [] => true
  | x :: a', y :: b' => Byte.eqb x y && bytes_eqb a' b'
  | _, _ => false
  end.

Definition dataLen : Z := 32.

Inductive vm_error : Type :=
| errNoPendingBlocks
| errBadGenesisBytes
| errCollaborator (e : error).

(** [time.Time], as far as the VM looks at it: [time.Unix(sec, nsec)]
    builds one, [t.Unix()] reads its whole seconds. *)
Record Time : Type := mkTime {
  wall_sec : Z;
  wall_nsec : Z
}.

Definition time_Unix (sec nsec : Z) : Time :=
  mkTime (sec + nsec / 1000000000) (nsec mod 1000000000).

Definition Unix (t : Time) : Z := wall_sec t.

(** Block lifecycle states. *)
Inductive Status : Type :=
| Unknown
| Processing
| Accepted
| Rejected.

(** Modelled from the spec: the [Block] struct and [core.Block] are
    declared in files that are not at hand. [NewBlock] below fills the
    embedded core block (made from the parent), the data and the
    timestamp; the spec adds the derived fields that are not serialized:
    the canonical bytes, the id and the status. This record is a [Block]
    whose embedded core block is set, the fields of the core block beside
    its own. *)
Record Block : Type := mkBlock {
  PrntID : ID;
  Data : list byte;
  Timestamp : Z;
  blk_id : ID;
  blk_bytes : list byte;
  blk_status : Status
}.

(** A [*Block] as the program holds it. The core block is embedded by
    pointer ([Block: core.NewBlock(parentID)] in [NewBlock]): in
    [&Block{}] that pointer is nil, and the block has its data and its
    timestamp only, [Bare]; once the pointer is set the block is
    [Full]. *)
Inductive BlockPtr : Type :=
| Bare (data : list byte) (timestamp : Z)
| Full (b : Block).

(** The zero value [&Block{}]: no embedded core block, zero data, zero
    timestamp. *)
Definition Block_zero : BlockPtr := Bare (zeros 32) 0.

(** What a call comes to: it returns, or the Go runtime panics. *)
Inductive outcome (A : Type) : Type :=
| Returns (a : A)
| Panics.

Arguments Returns {A} a.
Arguments Panics {A}.

(** Modelled from the spec: [core.NewBlock(parentID)], a block that knows
    its parent and nothing else yet. *)
Definition core_NewBlock (parentID : ID) : Block :=
  mkBlock parentID (zeros 32) 0 ids_Empty [] Unknown.

(** The codec collaborator: [Marshal] yields the bytes or an error,
    [Unmarshal] fills the block it is handed, as far as it comes, and may
    report an error. *)
Record Codec : Type := mkCodec {
  Marshal : Block -> list byte + vm_error;
  Unmarshal : list byte -> BlockPtr -> BlockPtr * option vm_error
}.

(** Modelled from the spec: the database collaborator, "a key/value store
    supporting point get/put/delete, a sentinel key for initialized, and
    commit() atomically flushing all pending writes"; the chain state kept
    in it is the mapping from block id to bytes and status, the initialized
    marker and the last accepted id. *)
Record DBState : Type := mkDBState {
  blocks : list (ID * (list byte * Status));
  db_initialized : bool;
  db_last_accepted : option ID
}.

Definition DBState_empty : DBState := mkDBState [] false None.

(** [staged] is the state the VM reads and writes, [durable] the state
    that the last commit flushed. *)
Record Database : Type := mkDatabase {
  staged : DBState;
  durable : DBState
}.

Definition Database_empty : Database :=
  mkDatabase DBState_empty DBState_empty.

Definition Commit (db : Database) : Database * option vm_error :=
  (mkDatabase (staged db) (staged db), None).

Fixpoint lookup_block (id : ID) (bs : list (ID * (list byte * Status)))
    : option (list byte * Status) :=
  match bs with
  | [] => None
  | (k, v) :: rest => if bytes_eqb k id then Some v else lookup_block id rest
  end.

Definition GetBlock (db : Database) (id : ID)
    : option (list byte * Status) :=
  lookup_block id (blocks (staged db)).

Definition put_block (id : ID) (v : list byte * Status) (db : Database)
    : Database :=
  mkDatabase
    (mkDBState ((id, v) :: blocks (staged db))
               (db_initialized (staged db))
               (db_last_accepted (staged db)))
    (durable db).

(** Modelled from the spec: the embedded [core.SnowmanVM], which owns the
    database handle, [last_accepted_id], [preferred_id] and the sending end
    of the engine channel; the channel has capacity 1, so its state is
    whether a token is pending. *)
Record SnowmanVM : Type := mkSnowmanVM {
  DB : Database;
  LastAcceptedID : ID;
  preferred : ID;
  ToEngine : bool
}.

Record VM : Type := mkVM {
  snowman : SnowmanVM;
  codec : Codec;
  mempool : list (list byte)
}.

Definition set_snowman (s : SnowmanVM) (vm : VM) : VM :=
  mkVM s (codec vm) (mempool vm).

Definition set_DB (db : Database) (vm : VM) : VM :=
  set_snowman (mkSnowmanVM db (LastAcceptedID (snowman vm))
                 (preferred (snowman vm)) (ToEngine (snowman vm))) vm.

(** Modelled from the spec: [SnowmanVM.Initialize], "if already
    initialized, load last_accepted_id and preferred_id from the store". *)
Definition SnowmanVM_Initialize (s : SnowmanVM) (db : Database)
    (toEngine : bool) : SnowmanVM * option vm_error :=
  if db_initialized (staged db) then
    match db_last_accepted (staged db) with
    | Some id => (mkSnowmanVM db id id toEngine, None)
    | None => (mkSnowmanVM db (LastAcceptedID s) (preferred s) toEngine,
               Some (errCollaborator errInvalidInput))
    end
  else (mkSnowmanVM db (LastAcceptedID s) (preferred s) toEngine, None).

Definition DBInitialized (vm : VM) : bool :=
  db_initialized (staged (DB (snowman vm))).

Definition SetDBInitialized (vm : VM) : VM :=
  let db := DB (snowman vm) in
  set_DB (mkDatabase
            (mkDBState (blocks (staged db)) true
                       (db_last_accepted (staged db)))
            (durable db)) vm.

Definition Preferred (vm : VM) : ID := preferred (snowman vm).

(** Modelled from the spec: [SaveBlock], the put of a block's bytes and
    status under its id. *)
Definition SaveBlock (vm : VM) (b : Block) : VM * option vm_error :=
  (set_DB (put_block (blk_id b) (blk_bytes b, blk_status b)
             (DB (snowman vm))) vm, None).

(** Modelled from the spec: [NotifyBlockReady], "send one token on the
    engine channel; if the channel already has a pending token, drop
    silently". *)
Definition NotifyBlockReady (vm : VM) : VM :=
  set_snowman (mkSnowmanVM (DB (snowman vm)) (LastAcceptedID (snowman vm))
                 (preferred (snowman vm)) true) vm.

Section TimestampVM.

(** The hash behind [id = H(bytes)] (SHA-256 in the spec). *)
Variable sha256 : list byte -> ID.

(** [codec.NewDefault()], the codec that [Initialize] installs. *)
Variable codec_NewDefault : Codec.

(** Modelled from the spec: [Block.Initialize(bytes, vm)], which is not at
    hand: it keeps the bytes, derives the id, and looks the id up in the
    store: a stored block gives its durable status, otherwise the status
    in memory is Processing. Nothing is written. *)
Definition Block_Initialize (b : Block) (bytes : list byte) (s : SnowmanVM)
    : Block :=
  let id := sha256 bytes in
  mkBlock (PrntID b) (Data b) (Timestamp b) id bytes
    match GetBlock (DB s) id with
    | Some (_, st) => st
    | None => Processing
    end.

(** [block.Initialize(bytes, vm)] on a [*Block]. The method is the
    embedded core block's: it stores the bytes, the id and the status in
    it ([Block_Initialize]). On a block without an embedded core block the
    receiver is a nil pointer and the store panics. *)
Definition BlockPtr_Initialize (b : BlockPtr) (bytes : list byte)
    (s : SnowmanVM) : outcome Block :=
  match b with
  | Bare _ _ => Panics
  | Full b => Returns (Block_Initialize b bytes s)
  end.

(** Modelled from the spec: [Block.Accept], "set status = Accepted, set
    last_accepted_id = block.id, persist, commit"; the comment at its call
    in [Initialize] has it set the preference too. *)
Definition Block_Accept (vm : VM) (b : Block) : VM * Block :=
  let b' := mkBlock (PrntID b) (Data b) (Timestamp b) (blk_id b)
              (blk_bytes b) Accepted in
  let db := put_block (blk_id b) (blk_bytes b, Accepted) (DB (snowman vm)) in
  let db := mkDatabase
              (mkDBState (blocks (staged db)) (db_initialized (staged db))
                         (Some (blk_id b)))
              (durable db) in
  (set_snowman (mkSnowmanVM (fst (Commit db)) (blk_id b) (blk_id b)
                  (ToEngine (snowman vm))) vm, b').

(** [NewBlock]: the block is marshalled and initialized; nothing here
    writes to the database. *)
Definition NewBlock (vm : VM) (parentID : ID) (data : list byte)
    (timestamp : Time) : option Block * option vm_error :=
  let block := mkBlock (PrntID (core_NewBlock parentID)) data
                 (Unix timestamp)
                 (blk_id (core_NewBlock parentID))
                 (blk_bytes (core_NewBlock parentID))
                 (blk_status (core_NewBlock parentID)) in
  match Marshal (codec vm) block with
  | inr err => (None, Some err)
  | inl blockBytes =>
      (Some (Block_Initialize block blockBytes (snowman vm)), None)
  end.

(** [Initialize], for a database handle [db] and the state [toEngine] of
    the engine channel. The result is the VM afterwards and the error. *)
Definition Initialize (vm : VM) (db : Database) (genesisData : list byte)
    (toEngine : bool) : VM * option vm_error :=
  match SnowmanVM_Initialize (snowman vm) db toEngine with
  | (s, Some err) => (set_snowman s vm, Some err)
  | (s, None) =>
      let vm := mkVM s codec_NewDefault (mempool vm) in
      if negb (DBInitialized vm) then
        if llen genesisData >? dataLen then (vm, Some errBadGenesisBytes)
        else
          let genesisDataArr := copy (zeros 32) genesisData in
          match NewBlock vm ids_Empty genesisDataArr (time_Unix 0 0) with
          | (_, Some err) => (vm, Some err)
          | (None, None) => (vm, None)
          | (Some genesisBlock, None) =>
              match SaveBlock vm genesisBlock with
              | (vm, Some err) => (vm, Some err)
              | (vm, None) =>
                  let '(vm, genesisBlock) := Block_Accept vm genesisBlock in
                  let vm := SetDBInitialized vm in
                  match Commit (DB (snowman vm)) with
                  | (db', Some err) => (set_DB db' vm, Some err)
                  | (db', None) => (set_DB db' vm, None)
                  end
              end
          end
      else (vm, None)
  end.

(** [BuildBlock] at the wallclock [now]: the result pair of the Go method
    and the VM afterwards. The deferred notification runs on either way
    out once the mempool was found non-empty after the pop. *)
Definition BuildBlock (vm : VM) (now : Time)
    : (option Block * option vm_error) * VM :=
  match mempool vm with
  | [] => ((None, Some errNoPendingBlocks), vm)
  | value :: rest =>
      let vm := mkVM (snowman vm) (codec vm) rest in
      let out :=
        match NewBlock vm (Preferred vm) value now with
        | (_, Some err) => (None, Some err)
        | (block, None) => (block, None)
        end in
      (out, if llen (mempool vm) >? 0 then NotifyBlockReady vm else vm)
  end.

Definition proposeBlock (vm : VM) (data : list byte) : VM :=
  NotifyBlockReady (mkVM (snowman vm) (codec vm) (mempool vm ++ [data])).

(** [ParseBlock]: [Initialize] is called on the block whatever
    [Unmarshal] said, and the error of [Unmarshal] is returned beside the
    block. [Initialize] panics where [Unmarshal] has not set the embedded
    core block of [&Block{}]. *)
Definition ParseBlock (vm : VM) (bytes : list byte)
    : outcome (option Block * option vm_error) :=
  let block := Block_zero in
  let '(block, err) := Unmarshal (codec vm) bytes block in
  match BlockPtr_Initialize block bytes (snowman vm) with
  | Panics => Panics
  | Returns block => Returns (Some block, err)
  end.

End TimestampVM.

(* ================================================================== *)
(** * Properties *)

(** ** Integers and bytes *)

Lemma wrap64_small (z : Z) : - two63 <= z < two63 -> wrap64 z = z.
Proof.
  intros H. unfold wrap64.
  rewrite Z.mod_small; unfold two63, two64 in *; lia.
Qed.

Lemma llen_nonneg {A : Type} (l : list A) : 0 <= llen l.
Proof. unfold llen. lia. Qed.

Lemma llen_app {A : Type} (a b : list A) : llen (a ++ b) = llen a + llen b.
Proof. unfold llen. rewrite length_app. lia. Qed.

Lemma Z_of_byte_range (b : byte) : 0 <= Z_of_byte b < 256.
Proof.
  unfold Z_of_byte. pose proof (Byte.to_N_bounded b). lia.
Qed.

Lemma Z_of_byte_of_Z (z : Z) : Z_of_byte (byte_of_Z z) = z mod 256.
Proof.
  unfold Z_of_byte, byte_of_Z.
  pose proof (Z.mod_pos_bound z 256 ltac:(lia)) as Hb.
  destruct (Byte.of_N (Z.to_N (z mod 256))) as [b|] eqn:E.
  - apply Byte.to_of_N in E. rewrite E. lia.
  - apply Byte.of_N_None_iff in E. lia.
Qed.

Lemma byte_of_Z_of_byte (b : byte) : byte_of_Z (Z_of_byte b) = b.
Proof.
  unfold byte_of_Z.
  rewrite Z.mod_small by apply Z_of_byte_range.
  unfold Z_of_byte. rewrite N2Z.id, Byte.of_to_N. reflexivity.
Qed.

(** Bit [n] of the byte of [v] that sits [k] bits up. *)
Lemma byte_bit (v k n : Z) :
  0 <= k -> 0 <= n ->
  Z.testbit (Z.shiftl (Z_of_byte (byte_of_Z (Z.shiftr v k))) k) n
  = if (k <=? n) && (n <? k + 8) then Z.testbit v n else false.
Proof.
  intros Hk Hn.
  rewrite Z.shiftl_spec by lia.
  rewrite Z_of_byte_of_Z.
  destruct (Z.leb_spec k n); simpl; change 256 with (2 ^ 8).
  - destruct (Z.ltb_spec n (k + 8)).
    + rewrite Z.mod_pow2_bits_low by lia.
      rewrite Z.shiftr_spec by lia. f_equal. lia.
    + apply Z.mod_pow2_bits_high. lia.
  - apply Z.testbit_neg_r. lia.
Qed.

Lemma byte_bit0 (v n : Z) :
  0 <= n ->
  Z.testbit (Z_of_byte (byte_of_Z v)) n
  = if n <? 8 then Z.testbit v n else false.
Proof.
  intros Hn.
  rewrite Z_of_byte_of_Z. change 256 with (2 ^ 8).
  destruct (Z.ltb_spec n 8).
  - apply Z.mod_pow2_bits_low. lia.
  - apply Z.mod_pow2_bits_high. lia.
Qed.

Lemma testbit_high (v w n : Z) :
  0 <= v < 2 ^ w -> 0 <= w <= n -> Z.testbit v n = false.
Proof.
  intros Hv Hn.
  rewrite <- (Z.mod_small v (2 ^ w)) by lia.
  apply Z.mod_pow2_bits_high. lia.
Qed.

Ltac settle_comparisons :=
  repeat match goal with
         | |- context [Z.leb ?a ?b] =>
             first [ rewrite (proj2 (Z.leb_le a b)) by lia
                   | rewrite (proj2 (Z.leb_gt a b)) by lia ]
         | |- context [Z.ltb ?a ?b] =>
             first [ rewrite (proj2 (Z.ltb_lt a b)) by lia
                   | rewrite (proj2 (Z.ltb_ge a b)) by lia ]
         end.

(** Equality of a number below [2 ^ w] with the [lor] of its bytes, bit
    by bit: the byte that holds bit [n] decides. *)
Ltac bytes_bits w :=
  let n := fresh "n" in let Hn := fresh "Hn" in let C := fresh "C" in
  apply Z.bits_inj'; intros n Hn;
  repeat rewrite Z.lor_spec;
  repeat rewrite byte_bit by lia;
  rewrite byte_bit0 by lia;
  assert (n < 8 \/ 8 <= n < 16 \/ 16 <= n < 24 \/ 24 <= n < 32
          \/ 32 <= n < 40 \/ 40 <= n < 48 \/ 48 <= n < 56
          \/ 56 <= n < 64 \/ 64 <= n) as C by lia;
  destruct C as [C|[C|[C|[C|[C|[C|[C|[C|C]]]]]]]];
  settle_comparisons; cbn [andb orb];
  repeat rewrite orb_false_r;
  first [ reflexivity | symmetry; apply (testbit_high _ w); lia ].

(** The big-endian encodings of the wire format. *)
Definition be16 (v : Z) : list byte :=
  [byte_of_Z (Z.shiftr v 8); byte_of_Z v].

Definition be32 (v : Z) : list byte :=
  [byte_of_Z (Z.shiftr v 24); byte_of_Z (Z.shiftr v 16);
   byte_of_Z (Z.shiftr v 8); byte_of_Z v].

Definition be64 (v : Z) : list byte :=
  [byte_of_Z (Z.shiftr v 56); byte_of_Z (Z.shiftr v 48);
   byte_of_Z (Z.shiftr v 40); byte_of_Z (Z.shiftr v 32);
   byte_of_Z (Z.shiftr v 24); byte_of_Z (Z.shiftr v 16);
   byte_of_Z (Z.shiftr v 8); byte_of_Z v].

Lemma Uint16_be16 (v : Z) (tl : list byte) :
  0 <= v < two16 -> BigEndian.Uint16 (be16 v ++ tl) = Some v.
Proof.
  intros Hv. cbn [app be16 BigEndian.Uint16]. f_equal. unfold two16 in Hv.
  bytes_bits 16.
Qed.

Lemma Uint32_be32 (v : Z) (tl : list byte) :
  0 <= v < two32 -> BigEndian.Uint32 (be32 v ++ tl) = Some v.
Proof.
  intros Hv. cbn [app be32 BigEndian.Uint32]. f_equal. unfold two32 in Hv.
  bytes_bits 32.
Qed.

Lemma Uint64_be64 (v : Z) (tl : list byte) :
  0 <= v < two64 -> BigEndian.Uint64 (be64 v ++ tl) = Some v.
Proof.
  intros Hv. cbn [app be64 BigEndian.Uint64]. f_equal. unfold two64 in Hv.
  bytes_bits 64.
Qed.

Lemma skipn_length_ge {A : Type} (n : nat) (l : list A) :
  (n <= length l)%nat -> exists h, l = h ++ skipn n l /\ length h = n.
Proof.
  intros H. exists (firstn n l). split.
  - symmetry. apply firstn_skipn.
  - apply firstn_length_le. exact H.
Qed.

Lemma PutUint16_ok (b : list byte) (v : Z) :
  (2 <= length b)%nat ->
  BigEndian.PutUint16 b v = Some (be16 v ++ skipn 2 b).
Proof.
  intros H. destruct b as [|? [|? ?]]; simpl in H; try lia. reflexivity.
Qed.

Lemma PutUint32_ok (b : list byte) (v : Z) :
  (4 <= length b)%nat ->
  BigEndian.PutUint32 b v = Some (be32 v ++ skipn 4 b).
Proof.
  intros H. destruct b as [|? [|? [|? [|? ?]]]]; simpl in H; try lia.
  reflexivity.
Qed.

Lemma PutUint64_ok (b : list byte) (v : Z) :
  (8 <= length b)%nat ->
  BigEndian.PutUint64 b v = Some (be64 v ++ skipn 8 b).
Proof.
  intros H.
  destruct b as [|? [|? [|? [|? [|? [|? [|? [|? ?]]]]]]]]; simpl in H;
    try lia.
  reflexivity.
Qed.

(* ================================================================== *)
(** ** After an error *)

(** [frozen m a]: on a Packer that has an error, [m] returns [a] and
    leaves the buffer, the offset and the size limit alone; it may record
    further errors behind those that are there. *)
Definition frozen {A : Type} (m : M A) (a : A) : Prop :=
  forall p, Errored p = true ->
    exists l, m p = Ok a (mkPacker (Errs_ p ++ l) (MaxSize p) (Bytes p)
                            (Offset p)).

Lemma Errored_Add (e : error) (p : Packer) : Errored (Add e p) = true.
Proof. unfold Errored, Add. simpl. destruct (Errs_ p); reflexivity. Qed.

Lemma Errored_more (p : Packer) (l : list error) :
  Errored p = true ->
  Errored (mkPacker (Errs_ p ++ l) (MaxSize p) (Bytes p) (Offset p)) = true.
Proof.
  unfold Errored. cbn. destruct (Errs_ p); [discriminate | reflexivity].
Qed.

Lemma frozen_ret {A : Type} (a : A) : frozen (ret a) a.
Proof.
  intros p H. exists []. rewrite app_nil_r. destruct p. reflexivity.
Qed.

Lemma frozen_Add (e : error) : frozen (modify (Add e)) tt.
Proof. intros p H. exists [e]. reflexivity. Qed.

Lemma frozen_bind {A B : Type} (m : M A) (f : A -> M B) (a : A) (b : B) :
  frozen m a -> frozen (f a) b -> frozen (bind m f) b.
Proof.
  intros Hm Hf p H.
  destruct (Hm p H) as (l1 & E1).
  destruct (Hf _ (Errored_more p l1 H)) as (l2 & E2).
  exists (l1 ++ l2). unfold bind. rewrite E1, E2. cbn.
  rewrite app_assoc. reflexivity.
Qed.

(** The shape of every primitive: a guard, then nothing if it failed. *)
Lemma frozen_guard {A : Type} (m : M unit) (a : A) (k : Packer -> M A) :
  frozen m tt ->
  frozen (m ;;; p <- get ;; if Errored p then ret a else k p) a.
Proof.
  intros Hm p H.
  destruct (Hm p H) as (l1 & E1).
  exists l1. unfold bind, get. rewrite E1, (Errored_more p l1 H).
  reflexivity.
Qed.

Lemma frozen_CheckSpace (n : Z) : frozen (CheckSpace n) tt.
Proof.
  intros p H. unfold CheckSpace, bind, get.
  destruct (Offset p <? 0); [apply frozen_Add; exact H|].
  destruct (n <? 0); [apply frozen_Add; exact H|].
  destruct (wrap64 (len (Bytes p) - Offset p) <? n);
    [apply frozen_Add; exact H|].
  apply frozen_ret; exact H.
Qed.

Section Frozen.

Variable g : Z -> Z -> nat.

Lemma frozen_Expand (n : Z) : frozen (Expand g n) tt.
Proof. apply frozen_guard, frozen_CheckSpace. Qed.

Lemma frozen_PackByte (v : byte) : frozen (PackByte g v) tt.
Proof. apply frozen_guard, frozen_Expand. Qed.

Lemma frozen_PackShort (v : Z) : frozen (PackShort g v) tt.
Proof. apply frozen_guard, frozen_Expand. Qed.

Lemma frozen_PackInt (v : Z) : frozen (PackInt g v) tt.
Proof. apply frozen_guard, frozen_Expand. Qed.

Lemma frozen_PackLong (v : Z) : frozen (PackLong g v) tt.
Proof. apply frozen_guard, frozen_Expand. Qed.

Lemma frozen_PackFixedBytes (bs : list byte) : frozen (PackFixedBytes g bs) tt.
Proof. apply frozen_guard, frozen_Expand. Qed.

Lemma frozen_PackFixedByteSlices_loop (bss : list (list byte)) :
  frozen (PackFixedByteSlices_loop g bss) tt.
Proof.
  induction bss as [|bs rest IH]; simpl.
  - apply frozen_ret.
  - eapply frozen_bind; [apply frozen_PackFixedBytes | exact IH].
Qed.

Lemma frozen_PackIP (ip : IPDesc) : frozen (PackIP g ip) tt.
Proof.
  eapply frozen_bind; [apply frozen_PackFixedBytes | apply frozen_PackShort].
Qed.

Lemma frozen_PackIPs_loop (ips : list IPDesc) :
  frozen (PackIPs_loop g ips) tt.
Proof.
  destruct ips as [|ip rest]; simpl.
  - apply frozen_ret.
  - intros p H. unfold bind, get. rewrite H. apply frozen_ret. exact H.
Qed.

Lemma frozen_pack (v : item) : frozen (pack g v) tt.
Proof.
  destruct v; simpl.
  - apply frozen_PackByte.
  - destruct b; apply frozen_PackByte.
  - apply frozen_PackShort.
  - apply frozen_PackInt.
  - apply frozen_PackLong.
  - apply frozen_PackFixedBytes.
  - eapply frozen_bind; [apply frozen_PackInt | apply frozen_PackFixedBytes].
  - eapply frozen_bind;
      [apply frozen_PackInt | apply frozen_PackFixedByteSlices_loop].
  - unfold PackStr. eapply frozen_bind with (a := tt).
    + destruct (llen s >? MaxStringLen);
        [apply frozen_Add | apply frozen_ret].
    + eapply frozen_bind;
        [apply frozen_PackShort | apply frozen_PackFixedBytes].
  - apply frozen_PackIP.
  - eapply frozen_bind; [apply frozen_PackInt | apply frozen_PackIPs_loop].
Qed.

End Frozen.

Lemma frozen_UnpackByte : frozen UnpackByte x00.
Proof. apply frozen_guard, frozen_CheckSpace. Qed.

Lemma frozen_UnpackShort : frozen UnpackShort 0.
Proof. apply frozen_guard, frozen_CheckSpace. Qed.

Lemma frozen_UnpackInt : frozen UnpackInt 0.
Proof. apply frozen_guard, frozen_CheckSpace. Qed.

Lemma frozen_UnpackLong : frozen UnpackLong 0.
Proof. apply frozen_guard, frozen_CheckSpace. Qed.

Lemma frozen_UnpackFixedBytes (size : Z) : frozen (UnpackFixedBytes size) [].
Proof. apply frozen_guard, frozen_CheckSpace. Qed.

Lemma frozen_UnpackIP : frozen UnpackIP (mkIPDesc [] 0).
Proof.
  eapply frozen_bind; [apply frozen_UnpackFixedBytes|].
  eapply frozen_bind; [apply frozen_UnpackShort | apply frozen_ret].
Qed.

Lemma frozen_unpack (k : kind) : frozen (unpack k) (zero k).
Proof.
  destruct k; simpl.
  - eapply frozen_bind; [apply frozen_UnpackByte | apply frozen_ret].
  - eapply frozen_bind; [|apply frozen_ret].
    eapply frozen_bind; [apply frozen_UnpackByte | apply frozen_ret].
  - eapply frozen_bind; [apply frozen_UnpackShort | apply frozen_ret].
  - eapply frozen_bind; [apply frozen_UnpackInt | apply frozen_ret].
  - eapply frozen_bind; [apply frozen_UnpackLong | apply frozen_ret].
  - eapply frozen_bind; [apply frozen_UnpackFixedBytes | apply frozen_ret].
  - eapply frozen_bind; [|apply frozen_ret].
    eapply frozen_bind; [apply frozen_UnpackInt|].
    apply frozen_UnpackFixedBytes.
  - eapply frozen_bind; [|apply frozen_ret].
    eapply frozen_bind; [apply frozen_UnpackInt | apply frozen_ret].
  - eapply frozen_bind; [|apply frozen_ret].
    eapply frozen_bind; [apply frozen_UnpackShort|].
    apply frozen_UnpackFixedBytes.
  - eapply frozen_bind; [apply frozen_UnpackIP | apply frozen_ret].
  - eapply frozen_bind; [|apply frozen_ret].
    eapply frozen_bind; [apply frozen_UnpackInt | apply frozen_ret].
Qed.

(** C2. Once a Packer has accumulated an error, every pack operation
    leaves [Bytes] and [Offset] as they are, and every unpack operation
    returns the zero value of its type (0, false, no bytes, the empty
    string, the empty list) and leaves [Offset] (and [Bytes]) as it is. *)
Theorem errored_packer_is_frozen (g : Z -> Z -> nat) (p : Packer) :
  Errored p = true ->
  (forall v : item,
     exists p', pack g v p = Ok tt p' /\ Errored p' = true
                /\ Bytes p' = Bytes p /\ Offset p' = Offset p)
  /\ (forall k : kind,
        exists p', unpack k p = Ok (zero k) p' /\ Errored p' = true
                   /\ Bytes p' = Bytes p /\ Offset p' = Offset p).
Proof.
  intros H. split.
  - intros v. destruct (frozen_pack g v p H) as (l & E).
    eexists. split; [exact E|]. split; [apply Errored_more; exact H|].
    split; reflexivity.
  - intros k. destruct (frozen_unpack k p H) as (l & E).
    eexists. split; [exact E|]. split; [apply Errored_more; exact H|].
    split; reflexivity.
Qed.

(* ================================================================== *)
(** ** Growth *)

Lemma firstn_app_ge {A : Type} (n : nat) (a b : list A) :
  (length a <= n)%nat -> firstn n (a ++ b) = a ++ firstn (n - length a) b.
Proof.
  intros H. rewrite firstn_app. f_equal. apply firstn_all2. exact H.
Qed.

Lemma skipn_app_ge {A : Type} (n : nat) (a b : list A) :
  (length a <= n)%nat -> skipn n (a ++ b) = skipn (n - length a) b.
Proof.
  intros H. rewrite skipn_app. rewrite skipn_all2 by exact H. reflexivity.
Qed.

Lemma length_zeros (n : nat) : length (zeros n) = n.
Proof. apply repeat_length. Qed.

(** A Packer without an error whose offset lies within its buffer, all
    sizes being Go [int]s. *)
Definition ready (p : Packer) : Prop :=
  Errs_ p = [] /\ 0 <= Offset p <= len (Bytes p) /\ len (Bytes p) < two63.

Lemma CheckSpace_ready (n : Z) (p : Packer) :
  ready p -> 0 <= n ->
  CheckSpace n p
  = Ok tt (if len (Bytes p) - Offset p <? n then Add errBadLength p else p).
Proof.
  intros (He & Ho & Hl) Hn. unfold CheckSpace, bind, get.
  destruct (Z.ltb_spec (Offset p) 0); [lia|].
  destruct (Z.ltb_spec n 0); [lia|].
  rewrite wrap64_small by (unfold two63 in *; lia).
  destruct (len (Bytes p) - Offset p <? n); reflexivity.
Qed.

Section Growth.

Variable g : Z -> Z -> nat.

(** What [Expand] computes on a ready Packer when [Offset + n] does not
    overflow. *)
Lemma Expand_ready (n : Z) (p : Packer) :
  ready p -> 0 <= n -> Offset p + n < two63 ->
  Expand g n p
  = Ok tt
      (if Offset p + n <=? len (Bytes p) then p
       else if Offset p + n >? MaxSize p then Add errBadLength p
       else if Offset p + n >? cap (Bytes p) then
         set_Bytes
           (mkSlice (vis (Bytes p) ++ spare (Bytes p)
                     ++ zeros (Z.to_nat (Offset p + n - cap (Bytes p))))
                    (zeros (g (cap (Bytes p)) (Offset p + n)))) p
       else
         set_Bytes
           (mkSlice (vis (Bytes p)
                     ++ firstn (Z.to_nat (Offset p + n - len (Bytes p)))
                               (spare (Bytes p)))
                    (skipn (Z.to_nat (Offset p + n - len (Bytes p)))
                           (spare (Bytes p)))) p).
Proof.
  intros Hr Hn Hov. pose proof Hr as (He & Ho & Hl).
  unfold Expand. unfold bind at 1. rewrite CheckSpace_ready by (auto; lia).
  destruct (Z.ltb_spec (len (Bytes p) - Offset p) 0); [lia|].
  unfold bind, get. unfold Errored. rewrite He.
  rewrite wrap64_small by (unfold two63 in *; lia).
  replace (n + Offset p) with (Offset p + n) by lia.
  destruct (Z.leb_spec (Offset p + n) (len (Bytes p))); [reflexivity|].
  destruct (Offset p + n >? MaxSize p); [reflexivity|].
  unfold cap, len, llen in *.
  destruct (Z.gtb_spec (Offset p + n)
              (Z.of_nat (length (vis (Bytes p)))
               + Z.of_nat (length (spare (Bytes p))))) as [Hc|Hc].
  - unfold slice_to, checked, cap, llen.
    rewrite Z.leb_refl.
    destruct (Z.leb_spec 0 (Z.of_nat (length (vis (Bytes p)))
                            + Z.of_nat (length (spare (Bytes p)))));
      [|lia].
    cbn [andb]. unfold modify, append_zeros, len, llen. cbn [vis spare].
    rewrite wrap64_small by (unfold two63 in *; lia).
    replace (Z.to_nat (Z.of_nat (length (vis (Bytes p)))
                       + Z.of_nat (length (spare (Bytes p)))))
      with (length (vis (Bytes p) ++ spare (Bytes p)))
      by (rewrite length_app; lia).
    rewrite firstn_all. rewrite <- app_assoc.
    rewrite length_app, Nat2Z.inj_add.
    match goal with
    | |- context [g ?c (?c + (?x - ?c))] =>
        replace (c + (x - c)) with x by lia
    end.
    reflexivity.
  - unfold slice_to, checked, cap, llen.
    destruct (Z.leb_spec 0 (Offset p + n)); [|lia].
    destruct (Z.leb_spec (Offset p + n)
                (Z.of_nat (length (vis (Bytes p)))
                 + Z.of_nat (length (spare (Bytes p))))); [|lia].
    cbn [andb]. unfold modify.
    rewrite firstn_app_ge, skipn_app_ge by lia.
    replace (Z.to_nat (Offset p + n) - length (vis (Bytes p)))%nat
      with (Z.to_nat (Offset p + n - Z.of_nat (length (vis (Bytes p)))))
      by lia.
    reflexivity.
Qed.

End Growth.

(* ================================================================== *)
(** ** Writing *)

(** The list [l] with [bs] written over it from position [o] on. *)
Definition overwrite (o : nat) (bs l : list byte) : list byte :=
  firstn o l ++ bs ++ skipn (o + length bs) l.

Lemma overwrite_length (o : nat) (bs l : list byte) :
  (o <= length l)%nat ->
  length (overwrite o bs l) = Nat.max (length l) (o + length bs).
Proof.
  intros H. unfold overwrite.
  rewrite !length_app, length_skipn, firstn_length_le by exact H. lia.
Qed.

Lemma overwrite_ext (o : nat) (bs l ext : list byte) :
  (o <= length l)%nat ->
  length (l ++ ext) = Nat.max (length l) (o + length bs) ->
  overwrite o bs (l ++ ext) = overwrite o bs l.
Proof.
  intros Ho Hl. unfold overwrite. rewrite length_app in Hl.
  rewrite firstn_app.
  replace (o - length l)%nat with 0%nat by lia.
  rewrite firstn_O, app_nil_r. do 2 f_equal.
  destruct (Nat.le_gt_cases (length l) (o + length bs)) as [Hc|Hc].
  - rewrite (skipn_all2 l) by exact Hc.
    apply skipn_all2. rewrite length_app. lia.
  - assert (length ext = 0%nat) as E by lia.
    apply length_zero_iff_nil in E. subst ext. rewrite app_nil_r.
    reflexivity.
Qed.

Lemma overwrite_app (o : nat) (a b l : list byte) :
  (o <= length l)%nat ->
  overwrite (o + length a) b (overwrite o a l) = overwrite o (a ++ b) l.
Proof.
  intros Ho. unfold overwrite at 1.
  assert (length (firstn o l) = o) as Hf by (apply firstn_length_le; exact Ho).
  assert (firstn (o + length a) (overwrite o a l) = firstn o l ++ a) as E1.
  { unfold overwrite. rewrite app_assoc.
    rewrite firstn_app.
    rewrite firstn_all2 by (rewrite length_app; lia).
    rewrite length_app, Hf.
    replace (o + length a - (o + length a))%nat with 0%nat by lia.
    rewrite firstn_O, app_nil_r. reflexivity. }
  assert (skipn (o + length a + length b) (overwrite o a l)
          = skipn (o + length (a ++ b)) l) as E2.
  { unfold overwrite. rewrite app_assoc.
    rewrite skipn_app_ge by (rewrite length_app; lia).
    rewrite length_app, Hf, skipn_skipn, length_app. f_equal. lia. }
  rewrite E1, E2. unfold overwrite. rewrite <- !app_assoc. reflexivity.
Qed.

Lemma overwrite_end (bs l : list byte) :
  overwrite (length l) bs l = l ++ bs.
Proof.
  unfold overwrite. rewrite firstn_all, skipn_all2 by lia.
  rewrite app_nil_r. reflexivity.
Qed.

(** [wrote bs p p']: [p'] is [p] after [bs] went in at the offset. *)
Definition wrote (bs : list byte) (p p' : Packer) : Prop :=
  Errs_ p' = [] /\ MaxSize p' = MaxSize p
  /\ Offset p' = Offset p + llen bs
  /\ vis (Bytes p') = overwrite (Z.to_nat (Offset p)) bs (vis (Bytes p)).

Lemma wrote_ready (bs : list byte) (p p' : Packer) :
  ready p -> Offset p + llen bs < two63 -> wrote bs p p' -> ready p'.
Proof.
  intros (He & Ho & Hl) Hb (He' & Hm' & Ho' & Hv').
  unfold ready, len, llen in *. rewrite Hv', overwrite_length by lia.
  repeat split; try assumption; lia.
Qed.

Lemma wrote_len (bs : list byte) (p p' : Packer) :
  ready p -> wrote bs p p' ->
  len (Bytes p') = Z.max (len (Bytes p)) (Offset p + llen bs).
Proof.
  intros (He & Ho & Hl) (He' & Hm' & Ho' & Hv').
  unfold len, llen in *. rewrite Hv', overwrite_length by lia. lia.
Qed.

Lemma wrote_app (a b : list byte) (p p1 p2 : Packer) :
  ready p -> wrote a p p1 -> wrote b p1 p2 -> wrote (a ++ b) p p2.
Proof.
  intros (He & Ho & Hl) (He1 & Hm1 & Ho1 & Hv1) (He2 & Hm2 & Ho2 & Hv2).
  unfold wrote, len, llen in *. repeat split.
  - assumption.
  - congruence.
  - rewrite Ho2, Ho1, length_app. lia.
  - rewrite Hv2, Hv1, Ho1.
    replace (Z.to_nat (Offset p + Z.of_nat (length a)))
      with (Z.to_nat (Offset p) + length a)%nat by lia.
    apply overwrite_app. lia.
Qed.

Lemma wrote_nil (p : Packer) : ready p -> wrote [] p p.
Proof.
  intros (He & Ho & Hl). unfold wrote, overwrite, len, llen in *.
  repeat split; try assumption; simpl; try lia.
  rewrite Nat.add_0_r, firstn_skipn. reflexivity.
Qed.

(** The state after a primitive has expanded the buffer and stored [bs]. *)
Lemma wrote_stored (bs ext sp : list byte) (p : Packer) :
  ready p -> Offset p + llen bs < two63 ->
  llen (vis (Bytes p) ++ ext) = Z.max (len (Bytes p)) (Offset p + llen bs) ->
  wrote bs p
    (set_Offset (wrap64 (Offset p + llen bs))
       (set_Bytes
          (store_from (mkSlice (vis (Bytes p) ++ ext) sp) (Offset p)
             (bs ++ skipn (length bs)
                      (skipn (Z.to_nat (Offset p)) (vis (Bytes p) ++ ext))))
          p)).
Proof.
  intros (He & Ho & Hl) Hb Hx. unfold wrote, len, llen in *.
  cbn [set_Offset set_Bytes store_from Errs_ MaxSize Offset Bytes vis].
  repeat split; try assumption.
  - apply wrap64_small. unfold two63 in *. lia.
  - rewrite <- (overwrite_ext _ bs _ ext) by lia.
    unfold overwrite. rewrite skipn_skipn.
    rewrite (Nat.add_comm (length bs)). reflexivity.
Qed.

Section Writing.

Variable g : Z -> Z -> nat.

(** Room for [n] more bytes at the offset: within the buffer as it is, or
    within the size limit. *)
Definition room (n : Z) (p : Packer) : Prop :=
  Offset p + n <= Z.max (len (Bytes p)) (MaxSize p) /\ MaxSize p < two63.

Lemma Expand_room (n : Z) (p : Packer) :
  ready p -> 0 <= n -> room n p ->
  exists ext sp,
    Expand g n p = Ok tt (set_Bytes (mkSlice (vis (Bytes p) ++ ext) sp) p)
    /\ llen (vis (Bytes p) ++ ext) = Z.max (len (Bytes p)) (Offset p + n).
Proof.
  intros Hr Hn (Hroom & Hmax). pose proof Hr as (He & Ho & Hl).
  rewrite Expand_ready by (auto; lia).
  unfold len, cap, llen in *.
  destruct (Z.leb_spec (Offset p + n) (Z.of_nat (length (vis (Bytes p))))).
  - exists [], (spare (Bytes p)). rewrite app_nil_r. split; [|lia].
    destruct p as [e m [v s] o]. reflexivity.
  - destruct (Z.gtb_spec (Offset p + n) (MaxSize p)); [lia|].
    destruct (Offset p + n >?
              Z.of_nat (length (vis (Bytes p)))
              + Z.of_nat (length (spare (Bytes p)))) eqn:Ec.
    + eexists _, _. split; [reflexivity|].
      apply Z.gtb_lt in Ec.
      rewrite !length_app, length_zeros. lia.
    + eexists _, _. split; [reflexivity|].
      rewrite Z.gtb_ltb in Ec. apply Z.ltb_ge in Ec.
      rewrite length_app, firstn_length_le by lia. lia.
Qed.

(** [packs m bs]: wherever there is room, [m] writes exactly [bs]. *)
Definition packs (m : M unit) (bs : list byte) : Prop :=
  forall p, ready p -> room (llen bs) p ->
    exists p', m p = Ok tt p' /\ wrote bs p p'.

Lemma packs_ret : packs (ret tt) [].
Proof. intros p Hr _. exists p. split; [reflexivity | apply wrote_nil, Hr]. Qed.

Lemma room_bound (n : Z) (p : Packer) :
  ready p -> room n p -> Offset p + n < two63.
Proof. intros (_ & _ & Hl) (H & Hm). lia. Qed.

Lemma packs_bind (m k : M unit) (a b : list byte) :
  packs m a -> packs k b -> packs (m ;;; k) (a ++ b).
Proof.
  intros Hm Hk p Hr Hroom. rewrite llen_app in Hroom.
  pose proof (llen_nonneg a). pose proof (llen_nonneg b).
  assert (room (llen a) p) as Ra by (unfold room in *; lia).
  destruct (Hm p Hr Ra) as (p1 & E1 & W1).
  pose proof (wrote_ready _ _ _ Hr (room_bound _ _ Hr Ra) W1) as Hr1.
  pose proof (wrote_len _ _ _ Hr W1) as L1.
  assert (room (llen b) p1) as Rb.
  { destruct W1 as (_ & Hm1 & Ho1 & _). unfold room in *.
    rewrite Hm1, Ho1, L1. lia. }
  destruct (Hk p1 Hr1 Rb) as (p2 & E2 & W2).
  exists p2. unfold bind. rewrite E1. split; [exact E2|].
  eapply wrote_app; eassumption.
Qed.

End Writing.

Section Primitives.

Variable g : Z -> Z -> nat.

Lemma slice_from_ok (s : slice) (o : Z) :
  0 <= o <= len s -> slice_from s o = Some (skipn (Z.to_nat o) (vis s)).
Proof.
  intros H. unfold slice_from.
  destruct (Z.leb_spec 0 o); [|lia].
  destruct (Z.leb_spec o (len s)); [|lia]. reflexivity.
Qed.

(** Every primitive is [Expand] followed, if that went well, by a store
    through the view at the offset. *)
Lemma packs_prim (n : Z) (bs : list byte) (tail : Packer -> M unit) :
  llen bs = n ->
  (forall p1 : Packer,
      0 <= Offset p1 -> Offset p1 + n <= len (Bytes p1) ->
      tail p1 p1
      = Ok tt
          (set_Offset (wrap64 (Offset p1 + n))
             (set_Bytes
                (store_from (Bytes p1) (Offset p1)
                   (bs ++ skipn (length bs)
                            (skipn (Z.to_nat (Offset p1))
                                   (vis (Bytes p1)))))
                p1))) ->
  packs (Expand g n ;;; p <- get ;; if Errored p then ret tt else tail p) bs.
Proof.
  intros Hn Htail p Hr Hroom. subst n.
  pose proof (llen_nonneg bs) as Hnn.
  destruct (Expand_room g (llen bs) p Hr Hnn Hroom) as (ext & sp & E & L).
  pose proof Hr as (He & Ho & Hl).
  unfold bind, get. rewrite E.
  replace (Errored (set_Bytes (mkSlice (vis (Bytes p) ++ ext) sp) p))
    with false by (unfold Errored; cbn; rewrite He; reflexivity).
  rewrite Htail.
  - eexists. split; [reflexivity|].
    apply (wrote_stored bs ext sp p Hr (room_bound _ _ Hr Hroom) L).
  - cbn. lia.
  - cbn. unfold len. cbn. lia.
Qed.

Lemma packs_PackFixedBytes (bs : list byte) : packs (PackFixedBytes g bs) bs.
Proof.
  unfold PackFixedBytes. apply packs_prim; [reflexivity|].
  intros p1 Ho Hl. unfold bind, checked.
  rewrite slice_from_ok by (pose proof (llen_nonneg bs); lia).
  unfold modify, copy. cbn [set_Bytes set_Offset Offset Bytes Errs_ MaxSize].
  rewrite firstn_all2; [reflexivity|].
  rewrite length_skipn. unfold len, llen in *. lia.
Qed.

Lemma packs_PackShort (v : Z) : packs (PackShort g v) (be16 v).
Proof.
  unfold PackShort. apply packs_prim; [reflexivity|].
  intros p1 Ho Hl. unfold bind, checked, ShortLen in *.
  rewrite slice_from_ok by lia.
  rewrite PutUint16_ok
    by (rewrite length_skipn; unfold len, llen in *; lia).
  reflexivity.
Qed.

Lemma packs_PackInt (v : Z) : packs (PackInt g v) (be32 v).
Proof.
  unfold PackInt. apply packs_prim; [reflexivity|].
  intros p1 Ho Hl. unfold bind, checked, IntLen in *.
  rewrite slice_from_ok by lia.
  rewrite PutUint32_ok
    by (rewrite length_skipn; unfold len, llen in *; lia).
  reflexivity.
Qed.

Lemma packs_PackLong (v : Z) : packs (PackLong g v) (be64 v).
Proof.
  unfold PackLong. apply packs_prim; [reflexivity|].
  intros p1 Ho Hl. unfold bind, checked, LongLen in *.
  rewrite slice_from_ok by lia.
  rewrite PutUint64_ok
    by (rewrite length_skipn; unfold len, llen in *; lia).
  reflexivity.
Qed.

Lemma packs_PackByte (v : byte) : packs (PackByte g v) [v].
Proof.
  unfold PackByte. apply packs_prim; [reflexivity|].
  intros p1 Ho Hl. unfold bind, checked, set_index, ByteLen in *.
  destruct (Z.leb_spec 0 (Offset p1)); [|lia].
  destruct (Z.ltb_spec (Offset p1) (len (Bytes p1))); [|lia].
  cbn [andb]. unfold modify, store_from.
  cbn [set_Bytes set_Offset Offset Bytes Errs_ MaxSize app length].
  rewrite skipn_skipn. reflexivity.
Qed.

End Primitives.

(* ================================================================== *)
(** ** The wire format *)

Definition encode_ip (ip : IPDesc) : list byte :=
  To16 (IP ip) ++ be16 (Port ip).

(** The encoding of each typed value, as the table of the wire format
    gives it. *)
Definition encode (v : item) : list byte :=
  match v with
  | IByte b => [b]
  | IBool b => [if b then x01 else x00]
  | IShort v => be16 v
  | IInt v => be32 v
  | ILong v => be64 v
  | IFixedBytes bs => bs
  | IBytes bs => be32 (uint32 (llen bs)) ++ bs
  | IFixedByteSlices bss => be32 (uint32 (llen bss)) ++ concat bss
  | IStr s => be16 (uint16 (llen s)) ++ s
  | IIP ip => encode_ip ip
  | IIPs ips => be32 (uint32 (llen ips)) ++ flat_map encode_ip ips
  end.

(** The width of each encoding according to that table. *)
Definition width (v : item) : Z :=
  match v with
  | IByte _ => 1
  | IBool _ => 1
  | IShort _ => 2
  | IInt _ => 4
  | ILong _ => 8
  | IFixedBytes bs => llen bs
  | IBytes bs => 4 + llen bs
  | IFixedByteSlices bss => 4 + llen (concat bss)
  | IStr s => 2 + llen s
  | IIP _ => 18
  | IIPs ips => 4 + 18 * llen ips
  end.

Definition ip_ok (ip : IPDesc) : bool :=
  (llen (IP ip) =? 16) && (0 <=? Port ip) && (Port ip <? two16).

(** The domain of each typed operation: [in_domain k v] holds when [v] is
    a value that the operation [k] reads back. *)
Definition in_domain (k : kind) (v : item) : bool :=
  match k, v with
  | KByte, IByte _ => true
  | KBool, IBool _ => true
  | KShort, IShort v => (0 <=? v) && (v <? two16)
  | KInt, IInt v => (0 <=? v) && (v <? two32)
  | KLong, ILong v => (0 <=? v) && (v <? two64)
  | KFixedBytes n, IFixedBytes bs => llen bs =? n
  | KBytes, IBytes bs => llen bs <? two32
  | KFixedByteSlices n, IFixedByteSlices bss =>
      (llen bss <? two32) && forallb (fun bs => llen bs =? n) bss
  | KStr, IStr s => llen s <=? MaxStringLen
  | KIP, IIP ip => ip_ok ip
  | KIPs, IIPs ips => (llen ips <? two32) && forallb ip_ok ips
  | _, _ => false
  end.

Fixpoint total_width (vs : list item) : Z :=
  match vs with
  | [] => 0
  | v :: rest => width v + total_width rest
  end.

Lemma To16_16 (ip : list byte) : llen ip = 16 -> To16 ip = ip.
Proof.
  intros H. unfold llen in H.
  assert (length ip = 16%nat) as E by lia.
  do 17 (destruct ip as [|? ip]; simpl in E; try discriminate).
  reflexivity.
Qed.

Lemma ip_ok_spec (ip : IPDesc) :
  ip_ok ip = true -> llen (IP ip) = 16 /\ 0 <= Port ip < two16.
Proof.
  unfold ip_ok. intros H.
  apply andb_prop in H as [H H3]. apply andb_prop in H as [H1 H2].
  apply Z.eqb_eq in H1. apply Z.leb_le in H2. apply Z.ltb_lt in H3. lia.
Qed.

Lemma llen_encode_ip (ip : IPDesc) : ip_ok ip = true -> llen (encode_ip ip) = 18.
Proof.
  intros H. apply ip_ok_spec in H as [H _].
  unfold encode_ip. rewrite llen_app, To16_16 by exact H. rewrite H.
  reflexivity.
Qed.

Lemma llen_flat_map_encode_ip (ips : list IPDesc) :
  forallb ip_ok ips = true -> llen (flat_map encode_ip ips) = 18 * llen ips.
Proof.
  induction ips as [|ip rest IH]; simpl; intros H.
  - reflexivity.
  - apply andb_prop in H as [H1 H2].
    rewrite llen_app, llen_encode_ip, IH by assumption.
    unfold llen. simpl length. lia.
Qed.

(** Within the domain, the encoding has the width of the table. *)
Lemma llen_encode (k : kind) (v : item) :
  in_domain k v = true -> llen (encode v) = width v.
Proof.
  destruct k, v; cbn [in_domain encode width]; intros H;
    try discriminate; try reflexivity;
    try (rewrite llen_app; reflexivity).
  - apply llen_encode_ip, H.
  - apply andb_prop in H as [_ H].
    rewrite llen_app, llen_flat_map_encode_ip by exact H. reflexivity.
Qed.

Section Composite.

Variable g : Z -> Z -> nat.

Lemma packs_PackFixedByteSlices_loop (bss : list (list byte)) :
  packs (PackFixedByteSlices_loop g bss) (concat bss).
Proof.
  induction bss as [|bs rest IH]; simpl.
  - apply packs_ret.
  - apply packs_bind; [apply packs_PackFixedBytes | exact IH].
Qed.

Lemma packs_PackIP (ip : IPDesc) : packs (PackIP g ip) (encode_ip ip).
Proof.
  apply packs_bind; [apply packs_PackFixedBytes | apply packs_PackShort].
Qed.

Lemma packs_PackIPs_loop (ips : list IPDesc) :
  packs (PackIPs_loop g ips) (flat_map encode_ip ips).
Proof.
  induction ips as [|ip rest IH]; simpl.
  - apply packs_ret.
  - intros p Hr Hroom. pose proof Hr as (He & _).
    unfold bind at 1. unfold get.
    replace (Errored p) with false by (unfold Errored; rewrite He; reflexivity).
    revert p Hr Hroom He. fold (packs (PackIP g ip ;;; PackIPs_loop g rest)
                                  (encode_ip ip ++ flat_map encode_ip rest)).
    intros p Hr Hroom _.
    exact (packs_bind _ _ _ _ (packs_PackIP ip) IH p Hr Hroom).
Qed.

(** Packing writes the encoding; a string must not be longer than
    [MaxStringLen]. *)
Lemma packs_pack (v : item) :
  match v with IStr s => llen s <= MaxStringLen | _ => True end ->
  packs (pack g v) (encode v).
Proof.
  destruct v; cbn [pack encode]; intros H;
    unfold PackBool, PackBytes, PackFixedByteSlices, PackIPs.
  - apply packs_PackByte.
  - destruct b; apply packs_PackByte.
  - apply packs_PackShort.
  - apply packs_PackInt.
  - apply packs_PackLong.
  - apply packs_PackFixedBytes.
  - apply packs_bind; [apply packs_PackInt | apply packs_PackFixedBytes].
  - apply packs_bind;
      [apply packs_PackInt | apply packs_PackFixedByteSlices_loop].
  - unfold PackStr.
    destruct (Z.gtb_spec (llen s) MaxStringLen); [lia|].
    change (be16 (uint16 (llen s)) ++ s)
      with ([] ++ be16 (uint16 (llen s)) ++ s).
    apply packs_bind; [apply packs_ret|].
    apply packs_bind; [apply packs_PackShort | apply packs_PackFixedBytes].
  - apply packs_PackIP.
  - apply packs_bind; [apply packs_PackInt | apply packs_PackIPs_loop].
Qed.

End Composite.

(* ================================================================== *)
(** ** Reading *)

(** The bytes [bs] stand in the buffer of [p] at its offset. *)
Definition holds (p : Packer) (bs : list byte) : Prop :=
  exists pre post, vis (Bytes p) = pre ++ bs ++ post /\ llen pre = Offset p.

(** [unpacks m bs a]: on a Packer without an error that holds [bs] at its
    offset, [m] returns [a] and moves the offset past [bs], nothing else. *)
Definition unpacks {A : Type} (m : M A) (bs : list byte) (a : A) : Prop :=
  forall p, Errs_ p = [] -> len (Bytes p) < two63 -> holds p bs ->
    m p = Ok a (set_Offset (Offset p + llen bs) p).

Lemma unpacks_ret {A : Type} (a : A) : unpacks (ret a) [] a.
Proof.
  intros p _ _ _. unfold ret, set_Offset. destruct p; cbn.
  rewrite Z.add_0_r. reflexivity.
Qed.

Lemma unpacks_bind {A B : Type} (m : M A) (f : A -> M B)
    (a b : list byte) (x : A) (y : B) :
  unpacks m a x -> unpacks (f x) b y -> unpacks (bind m f) (a ++ b) y.
Proof.
  intros Hm Hf p He Hl (pre & post & Hv & Hp).
  unfold bind. rewrite (Hm p He Hl).
  - rewrite Hf.
    + cbn. rewrite llen_app, Z.add_assoc. reflexivity.
    + exact He.
    + exact Hl.
    + exists (pre ++ a), post. cbn. split.
      * rewrite Hv, <- !app_assoc. reflexivity.
      * rewrite llen_app. lia.
  - exists pre, (b ++ post). split; [|exact Hp].
    rewrite Hv, <- app_assoc. reflexivity.
Qed.

Lemma unpacks_map {A B : Type} (m : M A) (f : A -> B) (bs : list byte)
    (x : A) :
  unpacks m bs x -> unpacks (y <- m ;; ret (f y)) bs (f x).
Proof.
  intros H. rewrite <- (app_nil_r bs).
  eapply unpacks_bind; [exact H | apply unpacks_ret].
Qed.

Lemma skipn_pre (o : Z) (pre rest : list byte) :
  llen pre = o -> skipn (Z.to_nat o) (pre ++ rest) = rest.
Proof.
  intros H. unfold llen in H. subst o. rewrite Nat2Z.id.
  rewrite skipn_app, skipn_all, Nat.sub_diag. reflexivity.
Qed.

(** Every reading primitive is [CheckSpace] followed, if that went well,
    by a read at the offset. *)
Lemma unpacks_prim {A : Type} (n : Z) (bs : list byte) (z a : A)
    (tail : Packer -> M A) :
  llen bs = n ->
  (forall p pre post,
      vis (Bytes p) = pre ++ bs ++ post -> llen pre = Offset p ->
      len (Bytes p) < two63 ->
      tail p p = Ok a (set_Offset (Offset p + n) p)) ->
  unpacks (CheckSpace n ;;; p <- get ;; if Errored p then ret z else tail p)
          bs a.
Proof.
  intros Hn Htail p He Hl (pre & post & Hv & Hp). subst n.
  pose proof (llen_nonneg bs). pose proof (llen_nonneg pre).
  pose proof (llen_nonneg post).
  assert (len (Bytes p) = llen pre + llen bs + llen post) as Hlen.
  { unfold len. rewrite Hv, !llen_app. lia. }
  unfold bind at 1. rewrite CheckSpace_ready.
  - destruct (Z.ltb_spec (len (Bytes p) - Offset p) (llen bs)); [lia|].
    unfold bind, get. unfold Errored. rewrite He.
    eapply Htail; eassumption.
  - unfold ready. repeat split; auto; lia.
  - lia.
Qed.

Lemma unpacks_UnpackByte (b : byte) : unpacks UnpackByte [b] b.
Proof.
  unfold UnpackByte. apply unpacks_prim; [reflexivity|].
  intros p pre post Hv Hp Hl.
  pose proof (llen_nonneg pre). pose proof (llen_nonneg post).
  unfold bind, checked, index, len in *. rewrite Hv in *.
  rewrite !llen_app in Hl. unfold llen at 2 in Hl. cbn [length] in Hl.
  rewrite !llen_app. unfold llen at 2. cbn [length].
  destruct (Z.leb_spec 0 (Offset p)); [|lia].
  destruct (Z.ltb_spec (Offset p) (llen pre + (Z.of_nat 1 + llen post)));
    [|lia].
  cbn [andb].
  replace (Z.to_nat (Offset p)) with (length pre) by (unfold llen in Hp; lia).
  rewrite nth_error_app2, Nat.sub_diag by lia.
  cbn [app nth_error]. unfold modify, ret.
  rewrite wrap64_small by (unfold two63 in *; lia). reflexivity.
Qed.

Lemma unpacks_UnpackShort (v : Z) :
  0 <= v < two16 -> unpacks UnpackShort (be16 v) v.
Proof.
  intros Hd. unfold UnpackShort. apply unpacks_prim; [reflexivity|].
  intros p pre post Hv Hp Hl.
  pose proof (llen_nonneg pre).
  assert (Offset p + 2 <= len (Bytes p)) as Hb.
  { unfold len. rewrite Hv, !llen_app. pose proof (llen_nonneg post).
    change (llen (be16 v)) with 2. lia. }
  unfold bind, checked.
  rewrite slice_from_ok by lia.
  rewrite Hv, skipn_pre by exact Hp.
  rewrite Uint16_be16 by exact Hd.
  unfold modify, ret, ShortLen.
  rewrite wrap64_small by (unfold two63 in *; lia). reflexivity.
Qed.

Lemma unpacks_UnpackInt (v : Z) :
  0 <= v < two32 -> unpacks UnpackInt (be32 v) v.
Proof.
  intros Hd. unfold UnpackInt. apply unpacks_prim; [reflexivity|].
  intros p pre post Hv Hp Hl.
  pose proof (llen_nonneg pre).
  assert (Offset p + 4 <= len (Bytes p)) as Hb.
  { unfold len. rewrite Hv, !llen_app. pose proof (llen_nonneg post).
    change (llen (be32 v)) with 4. lia. }
  unfold bind, checked.
  rewrite slice_from_ok by lia.
  rewrite Hv, skipn_pre by exact Hp.
  rewrite Uint32_be32 by exact Hd.
  unfold modify, ret, IntLen.
  rewrite wrap64_small by (unfold two63 in *; lia). reflexivity.
Qed.

Lemma unpacks_UnpackLong (v : Z) :
  0 <= v < two64 -> unpacks UnpackLong (be64 v) v.
Proof.
  intros Hd. unfold UnpackLong. apply unpacks_prim; [reflexivity|].
  intros p pre post Hv Hp Hl.
  pose proof (llen_nonneg pre).
  assert (Offset p + 8 <= len (Bytes p)) as Hb.
  { unfold len. rewrite Hv, !llen_app. pose proof (llen_nonneg post).
    change (llen (be64 v)) with 8. lia. }
  unfold bind, checked.
  rewrite slice_from_ok by lia.
  rewrite Hv, skipn_pre by exact Hp.
  rewrite Uint64_be64 by exact Hd.
  unfold modify, ret, LongLen.
  rewrite wrap64_small by (unfold two63 in *; lia). reflexivity.
Qed.

Lemma unpacks_UnpackFixedBytes (n : Z) (bs : list byte) :
  llen bs = n -> unpacks (UnpackFixedBytes n) bs bs.
Proof.
  intros Hn. unfold UnpackFixedBytes. apply unpacks_prim; [exact Hn|].
  intros p pre post Hv Hp Hl. subst n.
  pose proof (llen_nonneg pre). pose proof (llen_nonneg post).
  pose proof (llen_nonneg bs). pose proof (llen_nonneg (spare (Bytes p))).
  assert (len (Bytes p) = llen pre + llen bs + llen post) as Hlen.
  { unfold len. rewrite Hv, !llen_app. lia. }
  unfold bind, checked, slice_range, cap.
  rewrite wrap64_small by (unfold two63 in *; lia).
  fold (len (Bytes p)).
  destruct (Z.leb_spec 0 (Offset p)); [|lia].
  destruct (Z.leb_spec (Offset p) (Offset p + llen bs)); [|lia].
  destruct (Z.leb_spec (Offset p + llen bs)
              (len (Bytes p) + llen (spare (Bytes p)))); [|lia].
  cbn [andb]. rewrite Hv, <- !app_assoc, skipn_pre by exact Hp.
  replace (Z.to_nat (Offset p + llen bs - Offset p)) with (length bs)
    by (unfold llen; lia).
  rewrite firstn_app, firstn_all, Nat.sub_diag, firstn_O, app_nil_r.
  unfold modify, ret.
  rewrite wrap64_small by (unfold two63 in *; lia). reflexivity.
Qed.

Lemma unpacks_UnpackBool (b : bool) :
  unpacks UnpackBool [if b then x01 else x00] b.
Proof.
  unfold UnpackBool. rewrite <- (app_nil_r [if b then x01 else x00]).
  eapply unpacks_bind; [apply unpacks_UnpackByte|].
  destruct b; apply unpacks_ret.
Qed.

Lemma unpacks_UnpackBytes (bs : list byte) :
  llen bs < two32 -> unpacks UnpackBytes (be32 (uint32 (llen bs)) ++ bs) bs.
Proof.
  intros H. pose proof (llen_nonneg bs).
  unfold UnpackBytes, uint32. rewrite Z.mod_small by lia.
  eapply unpacks_bind; [apply unpacks_UnpackInt; lia|].
  rewrite wrap64_small by (unfold two32, two63 in *; lia).
  apply unpacks_UnpackFixedBytes. reflexivity.
Qed.

Lemma unpacks_UnpackStr (s : list byte) :
  llen s <= MaxStringLen ->
  unpacks UnpackStr (be16 (uint16 (llen s)) ++ s) s.
Proof.
  intros H. pose proof (llen_nonneg s). unfold MaxStringLen in H.
  unfold UnpackStr, uint16. rewrite Z.mod_small by (unfold two16; lia).
  eapply unpacks_bind; [apply unpacks_UnpackShort; unfold two16; lia|].
  rewrite wrap64_small by (unfold two63 in *; lia).
  apply unpacks_UnpackFixedBytes. reflexivity.
Qed.

Lemma unpacks_UnpackIP (ip : IPDesc) :
  ip_ok ip = true -> unpacks UnpackIP (encode_ip ip) ip.
Proof.
  intros H. apply ip_ok_spec in H as [H16 Hport].
  unfold UnpackIP, encode_ip. rewrite To16_16 by exact H16.
  eapply unpacks_bind; [apply unpacks_UnpackFixedBytes; exact H16|].
  rewrite <- (app_nil_r (be16 (Port ip))).
  eapply unpacks_bind; [apply unpacks_UnpackShort; exact Hport|].
  destruct ip. apply unpacks_ret.
Qed.

Lemma unpacks_UnpackFixedByteSlices_loop (n : Z) (bss acc : list (list byte)) :
  forallb (fun bs => llen bs =? n) bss = true ->
  unpacks (UnpackFixedByteSlices_loop (length bss) n acc) (concat bss)
          (acc ++ bss).
Proof.
  revert acc. induction bss as [|bs rest IH]; intros acc H.
  - rewrite app_nil_r. apply unpacks_ret.
  - cbn [forallb] in H. apply andb_prop in H as [H1 H2].
    apply Z.eqb_eq in H1.
    intros p He Hl Hh. cbn [length UnpackFixedByteSlices_loop concat].
    unfold bind at 1. unfold get. unfold Errored. rewrite He.
    revert p He Hl Hh.
    change (unpacks (b <- UnpackFixedBytes n ;;
                     UnpackFixedByteSlices_loop (length rest) n (acc ++ [b]))
                    (bs ++ concat rest) (acc ++ bs :: rest)).
    eapply unpacks_bind; [apply unpacks_UnpackFixedBytes; exact H1|].
    replace (acc ++ bs :: rest) with ((acc ++ [bs]) ++ rest)
      by (rewrite <- app_assoc; reflexivity).
    apply IH. exact H2.
Qed.

Lemma unpacks_UnpackIPs_loop (ips acc : list IPDesc) :
  forallb ip_ok ips = true ->
  unpacks (UnpackIPs_loop (length ips) acc) (flat_map encode_ip ips)
          (acc ++ ips).
Proof.
  revert acc. induction ips as [|ip rest IH]; intros acc H.
  - rewrite app_nil_r. apply unpacks_ret.
  - cbn [forallb] in H. apply andb_prop in H as [H1 H2].
    intros p He Hl Hh. cbn [length UnpackIPs_loop flat_map].
    unfold bind at 1. unfold get. unfold Errored. rewrite He.
    revert p He Hl Hh.
    change (unpacks (x <- UnpackIP ;;
                     UnpackIPs_loop (length rest) (acc ++ [x]))
                    (encode_ip ip ++ flat_map encode_ip rest)
                    (acc ++ ip :: rest)).
    eapply unpacks_bind; [apply unpacks_UnpackIP; exact H1|].
    replace (acc ++ ip :: rest) with ((acc ++ [ip]) ++ rest)
      by (rewrite <- app_assoc; reflexivity).
    apply IH. exact H2.
Qed.

Lemma llen_to_nat {A : Type} (l : list A) : Z.to_nat (llen l) = length l.
Proof. unfold llen. apply Nat2Z.id. Qed.

(** Within the domain, unpacking reads back what the encoding holds. *)
Lemma unpacks_unpack (k : kind) (v : item) :
  in_domain k v = true -> unpacks (unpack k) (encode v) v.
Proof.
  destruct k, v; cbn [in_domain unpack encode]; intros H;
    try discriminate; apply unpacks_map.
  - apply unpacks_UnpackByte.
  - apply unpacks_UnpackBool.
  - apply andb_prop in H as [H1 H2]. apply Z.leb_le in H1.
    apply Z.ltb_lt in H2. apply unpacks_UnpackShort. lia.
  - apply andb_prop in H as [H1 H2]. apply Z.leb_le in H1.
    apply Z.ltb_lt in H2. apply unpacks_UnpackInt. lia.
  - apply andb_prop in H as [H1 H2]. apply Z.leb_le in H1.
    apply Z.ltb_lt in H2. apply unpacks_UnpackLong. lia.
  - apply Z.eqb_eq in H. apply unpacks_UnpackFixedBytes. exact H.
  - apply Z.ltb_lt in H. apply unpacks_UnpackBytes. exact H.
  - apply andb_prop in H as [H1 H2]. apply Z.ltb_lt in H1.
    pose proof (llen_nonneg bss).
    unfold UnpackFixedByteSlices, uint32. rewrite Z.mod_small by lia.
    eapply unpacks_bind; [apply unpacks_UnpackInt; lia|].
    rewrite llen_to_nat.
    apply (unpacks_UnpackFixedByteSlices_loop size bss [] H2).
  - apply Z.leb_le in H. apply unpacks_UnpackStr. exact H.
  - apply unpacks_UnpackIP. exact H.
  - apply andb_prop in H as [H1 H2]. apply Z.ltb_lt in H1.
    pose proof (llen_nonneg ips).
    unfold UnpackIPs, uint32. rewrite Z.mod_small by lia.
    eapply unpacks_bind; [apply unpacks_UnpackInt; lia|].
    rewrite llen_to_nat.
    apply (unpacks_UnpackIPs_loop ips [] H2).
Qed.

(** ** Round trips *)

(** The values [vs] are in the domains of the operations [ks], one by
    one. *)
Fixpoint all_in_domain (ks : list kind) (vs : list item) : bool :=
  match ks, vs with
  | [], [] => true
  | k :: ks', v :: vs' => in_domain k v && all_in_domain ks' vs'
  | _, _ => false
  end.

Lemma unpacks_unpack_all (ks : list kind) (vs : list item) :
  all_in_domain ks vs = true ->
  unpacks (unpack_all ks) (flat_map encode vs) vs.
Proof.
  revert vs. induction ks as [|k ks IH]; intros [|v vs] H;
    try discriminate.
  - apply unpacks_ret.
  - cbn [all_in_domain] in H. apply andb_prop in H as [H1 H2].
    cbn [unpack_all flat_map].
    eapply unpacks_bind; [apply unpacks_unpack; exact H1|].
    apply unpacks_map. apply IH. exact H2.
Qed.

Lemma in_domain_str (k : kind) (v : item) :
  in_domain k v = true ->
  match v with IStr s => llen s <= MaxStringLen | _ => True end.
Proof.
  destruct k, v; cbn [in_domain]; intros H; try discriminate; try exact I.
  apply Z.leb_le. exact H.
Qed.

Lemma packs_pack_all (g : Z -> Z -> nat) (ks : list kind) (vs : list item) :
  all_in_domain ks vs = true ->
  packs (pack_all g vs) (flat_map encode vs).
Proof.
  revert vs. induction ks as [|k ks IH]; intros [|v vs] H;
    try discriminate.
  - apply packs_ret.
  - cbn [all_in_domain] in H. apply andb_prop in H as [H1 H2].
    cbn [pack_all flat_map].
    apply packs_bind; [|apply IH; exact H2].
    apply packs_pack. eapply in_domain_str. exact H1.
Qed.

Lemma llen_flat_map_encode (ks : list kind) (vs : list item) :
  all_in_domain ks vs = true -> llen (flat_map encode vs) = total_width vs.
Proof.
  revert vs. induction ks as [|k ks IH]; intros [|v vs] H;
    try discriminate.
  - reflexivity.
  - cbn [all_in_domain] in H. apply andb_prop in H as [H1 H2].
    cbn [flat_map total_width].
    rewrite llen_app, (llen_encode k v H1), (IH vs H2). reflexivity.
Qed.

(** A Packer as it is made for writing, [Packer{MaxSize: m}], and one made
    for reading a buffer, [Packer{Bytes: b}]. *)
Definition writer (m : Z) : Packer := mkPacker [] m nil_slice 0.
Definition reader (b : slice) : Packer := mkPacker [] 0 b 0.

(** The round trip of a sequence of typed operations, from which the
    statements about one operation and about several follow. *)
Lemma roundtrip_all (g : Z -> Z -> nat) (ks : list kind) (vs : list item)
    (m : Z) :
  all_in_domain ks vs = true ->
  total_width vs <= m < two63 ->
  exists p,
    pack_all g vs (writer m) = Ok tt p
    /\ Errored p = false
    /\ Offset p = total_width vs
    /\ vis (Bytes p) = flat_map encode vs
    /\ unpack_all ks (reader (Bytes p))
       = Ok vs (set_Offset (total_width vs) (reader (Bytes p))).
Proof.
  intros Hd Hm.
  pose proof (llen_flat_map_encode ks vs Hd) as Hw.
  assert (ready (writer m)) as Hr.
  { unfold ready, writer, len, llen, two63. cbn. repeat split; lia. }
  destruct (packs_pack_all g ks vs Hd (writer m) Hr) as (p & E & W).
  { unfold room, writer. cbn. rewrite Hw. lia. }
  destruct W as (He & Hmax & Ho & Hv).
  cbn in Ho, Hv. unfold overwrite in Hv. cbn in Hv.
  rewrite skipn_nil, app_nil_r in Hv.
  exists p. split; [exact E|]. split.
  { unfold Errored. rewrite He. reflexivity. }
  split; [rewrite Ho, Hw; reflexivity|]. split; [exact Hv|].
  rewrite (unpacks_unpack_all ks vs Hd (reader (Bytes p))).
  - rewrite Hw. reflexivity.
  - reflexivity.
  - unfold reader, len. cbn. rewrite Hv, Hw. lia.
  - exists [], []. unfold reader. cbn. rewrite app_nil_r. split;
      [exact Hv | reflexivity].
Qed.

Lemma pack_all_single (g : Z -> Z -> nat) (v : item) (p p' : Packer) :
  pack_all g [v] p = Ok tt p' -> pack g v p = Ok tt p'.
Proof.
  cbn [pack_all]. unfold bind, ret.
  destruct (pack g v p) as [[] p1|]; intros H; [exact H | discriminate].
Qed.

Lemma unpack_all_single (k : kind) (v : item) (p p' : Packer) :
  unpack_all [k] p = Ok [v] p' -> unpack k p = Ok v p'.
Proof.
  cbn [unpack_all]. unfold bind, ret.
  destruct (unpack k p) as [v1 p1|]; intros H; [|discriminate].
  inversion H. reflexivity.
Qed.

(** C1. For every typed operation and every value in its domain, packing
    the value into a fresh Packer whose size limit suffices and unpacking
    from the bytes produced gives the value back, with no error after the
    pack and none after the unpack. Several operations in a row, unpacked
    in the same order, give the same values back, and the offset ends at
    the total encoded length. *)
Theorem pack_unpack_roundtrip (g : Z -> Z -> nat) :
  (forall (k : kind) (v : item) (m : Z),
      in_domain k v = true -> width v <= m < two63 ->
      exists p q,
        pack g v (writer m) = Ok tt p /\ Errored p = false
        /\ unpack k (reader (Bytes p)) = Ok v q /\ Errored q = false
        /\ Offset q = width v)
  /\ (forall (ks : list kind) (vs : list item) (m : Z),
         all_in_domain ks vs = true -> total_width vs <= m < two63 ->
         exists p q,
           pack_all g vs (writer m) = Ok tt p /\ Errored p = false
           /\ Offset p = total_width vs
           /\ unpack_all ks (reader (Bytes p)) = Ok vs q
           /\ Errored q = false
           /\ Offset q = total_width vs).
Proof.
  split.
  - intros k v m Hd Hm.
    destruct (roundtrip_all g [k] [v] m) as (p & E & He & Ho & Hv & U).
    + cbn [all_in_domain]. rewrite Hd. reflexivity.
    + cbn [total_width]. lia.
    + exists p. eexists. split; [apply pack_all_single; exact E|].
      split; [exact He|]. split; [apply unpack_all_single; exact U|].
      split; [reflexivity|]. cbn. lia.
  - intros ks vs m Hd Hm.
    destruct (roundtrip_all g ks vs m Hd Hm) as (p & E & He & Ho & Hv & U).
    exists p. eexists. split; [exact E|]. split; [exact He|].
    split; [exact Ho|]. split; [exact U|]. split; reflexivity.
Qed.

(* ================================================================== *)
(** ** Expand *)

(** C3, as amended. For every Packer without an error that satisfies
    [0 <= Offset <= len(Bytes) <= MaxSize] and every [n >= 0] for which
    [Offset + n] is a Go [int]: if [Offset + n <= len(Bytes)], [Expand n]
    changes nothing; if [Offset + n > MaxSize], it records [errBadLength]
    and leaves [Bytes] as it is; otherwise the length of [Bytes] becomes
    exactly [Offset + n], the bytes that were there staying in place. In
    every case the length does not shrink and does not exceed [MaxSize]. *)
Theorem Expand_error_free (g : Z -> Z -> nat) (p : Packer) (n : Z) :
  Errored p = false ->
  0 <= Offset p <= len (Bytes p) ->
  len (Bytes p) <= MaxSize p ->
  MaxSize p < two63 ->
  0 <= n ->
  Offset p + n < two63 ->
  exists p',
    Expand g n p = Ok tt p'
    /\ (Offset p + n <= len (Bytes p) -> p' = p)
    /\ (MaxSize p < Offset p + n -> p' = Add errBadLength p)
    /\ (len (Bytes p) < Offset p + n <= MaxSize p ->
        len (Bytes p') = Offset p + n
        /\ firstn (length (vis (Bytes p))) (vis (Bytes p')) = vis (Bytes p)
        /\ Errored p' = false /\ Offset p' = Offset p)
    /\ len (Bytes p) <= len (Bytes p') <= MaxSize p
    /\ MaxSize p' = MaxSize p.
Proof.
  intros He Ho Hl Hm Hn Hov.
  assert (ready p) as Hr.
  { unfold ready. unfold Errored in He.
    destruct (Errs_ p); [|discriminate]. repeat split; lia. }
  rewrite (Expand_ready g n p Hr Hn Hov).
  eexists. split; [reflexivity|].
  destruct (Z.leb_spec (Offset p + n) (len (Bytes p))) as [H1|H1].
  { split; [reflexivity|]. split; [lia|]. split; [lia|].
    split; [lia | reflexivity]. }
  split; [lia|].
  destruct (Z.gtb_spec (Offset p + n) (MaxSize p)) as [H2|H2].
  { split; [reflexivity|]. split; [lia|]. cbn. split; [lia | reflexivity]. }
  split; [lia|].
  unfold cap, len, llen in *.
  destruct (Z.gtb_spec (Offset p + n)
              (Z.of_nat (length (vis (Bytes p)))
               + Z.of_nat (length (spare (Bytes p))))) as [H3|H3];
    cbn [set_Bytes Bytes vis MaxSize Offset Errored Errs_].
  - rewrite !length_app, length_zeros.
    rewrite firstn_app, firstn_all, Nat.sub_diag, firstn_O, app_nil_r.
    fold (Errored p).
    repeat split; try assumption; lia.
  - rewrite !length_app, firstn_length_le by lia.
    rewrite firstn_app, firstn_all, Nat.sub_diag, firstn_O, app_nil_r.
    fold (Errored p).
    repeat split; try assumption; lia.
Qed.

(* ================================================================== *)
(** ** The offset of a failing operation *)

(** The operations that are one guarded step: [Expand] or [CheckSpace],
    then one store or one read. The others are made of several. *)
Definition single_step_item (v : item) : bool :=
  match v with
  | IByte _ | IBool _ | IShort _ | IInt _ | ILong _ | IFixedBytes _ => true
  | _ => false
  end.

Definition single_step_kind (k : kind) : bool :=
  match k with
  | KByte | KShort | KInt | KLong | KFixedBytes _ => true
  | _ => false
  end.

(** What a guard may do: it never moves the offset, and it either leaves
    the errors as they are or leaves the Packer with an error. *)
Definition guard (G : M unit) : Prop :=
  forall p p1, G p = Ok tt p1 ->
    Offset p1 = Offset p /\ (Errs_ p1 = Errs_ p \/ Errored p1 = true).

Lemma guard_CheckSpace (n : Z) : guard (CheckSpace n).
Proof.
  intros p p1. unfold CheckSpace, bind, get, modify, ret.
  destruct (Offset p <? 0);
    [|destruct (n <? 0);
      [|destruct (wrap64 (len (Bytes p) - Offset p) <? n)]];
    intros H; inversion H; subst; cbn [Add Offset];
    split; try reflexivity; try (right; apply Errored_Add).
  left. reflexivity.
Qed.

Lemma guard_Expand (g : Z -> Z -> nat) (n : Z) : guard (Expand g n).
Proof.
  intros p p2. unfold Expand. unfold bind at 1.
  destruct (CheckSpace 0 p) as [[] p1|] eqn:E; [|discriminate].
  destruct (guard_CheckSpace 0 p p1 E) as [Ho He].
  unfold bind, get, modify, ret, checked.
  destruct (Errored p1) eqn:Ee.
  { intros H; inversion H; subst. split; [exact Ho|]. right. exact Ee. }
  assert (Errs_ p1 = Errs_ p) as He'.
  { destruct He as [He|He]; [exact He | congruence]. }
  destruct (wrap64 (n + Offset p1) <=? len (Bytes p1)).
  { intros H; inversion H; subst. split; [exact Ho | left; exact He']. }
  destruct (wrap64 (n + Offset p1) >? MaxSize p1).
  { intros H; inversion H; subst. split; [exact Ho|].
    right. apply Errored_Add. }
  destruct (wrap64 (n + Offset p1) >? cap (Bytes p1)).
  - destruct (slice_to (Bytes p1) (cap (Bytes p1))); [|discriminate].
    intros H; inversion H; subst. split; [exact Ho | left; exact He'].
  - destruct (slice_to (Bytes p1) (wrap64 (n + Offset p1))); [|discriminate].
    intros H; inversion H; subst. split; [exact Ho | left; exact He'].
Qed.

(** A primitive that records an error did not move the offset. *)
Lemma prim_offset {A : Type} (G : M unit) (z : A) (tail : Packer -> M A) :
  guard G ->
  (forall p1 x p', tail p1 p1 = Ok x p' -> Errs_ p' = Errs_ p1) ->
  forall p x p',
    (G ;;; p <- get ;; if Errored p then ret z else tail p) p = Ok x p' ->
    Errs_ p' <> Errs_ p -> Offset p' = Offset p.
Proof.
  intros HG Ht p x p'. unfold bind at 1.
  destruct (G p) as [[] p1|] eqn:E; [|discriminate].
  destruct (HG p p1 E) as [Ho He].
  unfold bind, get. destruct (Errored p1) eqn:Ee.
  - unfold ret. intros H _. inversion H; subst. exact Ho.
  - intros H Hne. apply Ht in H.
    destruct He as [He|He]; congruence.
Qed.

Ltac tail_keeps_errors :=
  let q := fresh "q" in let y := fresh "y" in let q' := fresh "q'" in
  let H := fresh "H" in
  intros q y q'; unfold bind, checked, modify, ret;
  repeat match goal with
         | |- context [match ?o with Some _ => _ | None => _ end] =>
             destruct o
         end;
  intros H; inversion H; reflexivity.

Lemma offset_pack_single_step (g : Z -> Z -> nat) (v : item) (p p' : Packer) :
  single_step_item v = true ->
  pack g v p = Ok tt p' -> Errs_ p' <> Errs_ p -> Offset p' = Offset p.
Proof.
  destruct v; cbn [single_step_item pack]; intros Hs H Hne;
    try discriminate;
    try (destruct b; unfold PackBool in H);
    (eapply prim_offset; [apply guard_Expand | | exact H | exact Hne]);
    tail_keeps_errors.
Qed.

Lemma map_result {A B : Type} (m : M A) (f : A -> B) (p : Packer) (y : B)
    (p' : Packer) :
  (x <- m ;; ret (f x)) p = Ok y p' -> exists x, m p = Ok x p'.
Proof.
  unfold bind, ret. destruct (m p) as [x p1|]; intros H; [|discriminate].
  inversion H; subst. exists x. reflexivity.
Qed.

Lemma offset_unpack_single_step (k : kind) (p : Packer) (x : item)
    (p' : Packer) :
  single_step_kind k = true ->
  unpack k p = Ok x p' -> Errs_ p' <> Errs_ p -> Offset p' = Offset p.
Proof.
  destruct k; cbn [single_step_kind unpack]; intros Hs H Hne;
    try discriminate;
    apply map_result in H as [y H];
    (eapply prim_offset; [apply guard_CheckSpace | | exact H | exact Hne]);
    tail_keeps_errors.
Qed.

(** An operation that is one guarded step ([CheckSpace], [Expand], and
    the pack and unpack of a byte, a short, an int, a long and fixed
    bytes, [PackBool] included) and that records an error leaves the
    offset where it was. *)
Lemma single_step_keeps_offset (g : Z -> Z -> nat) (p p' : Packer) :
  Errs_ p' <> Errs_ p ->
  (forall n, CheckSpace n p = Ok tt p' -> Offset p' = Offset p)
  /\ (forall n, Expand g n p = Ok tt p' -> Offset p' = Offset p)
  /\ (forall v, single_step_item v = true ->
                pack g v p = Ok tt p' -> Offset p' = Offset p)
  /\ (forall k x, single_step_kind k = true ->
                  unpack k p = Ok x p' -> Offset p' = Offset p).
Proof.
  intros Hne. repeat split.
  - intros n H. apply (guard_CheckSpace n p p' H).
  - intros n H. apply (guard_Expand g n p p' H).
  - intros v Hs H. exact (offset_pack_single_step g v p p' Hs H Hne).
  - intros k x Hs H. exact (offset_unpack_single_step k p x p' Hs H Hne).
Qed.

(* ================================================================== *)
(** ** Strings at the length limit *)

Lemma Errored_false (p : Packer) : Errored p = false -> Errs_ p = [].
Proof. unfold Errored. destruct (Errs_ p); [reflexivity | discriminate]. Qed.

(** C8, as amended. On a Packer without an error that has room for the
    65537 bytes at its offset (the offset lies in the buffer, and the
    bytes fit into the buffer as it is or into [MaxSize]), [PackStr] of a
    string of exactly 65535 bytes succeeds: it writes the length prefix
    [ff ff] and the content, and no error is recorded. On every Packer
    without an error, [PackStr] of a string of 65536 bytes or more records
    [errInvalidInput] first and leaves [Bytes] and [Offset] as they are. *)
Theorem PackStr_at_the_limit (g : Z -> Z -> nat) (p : Packer)
    (s : list byte) :
  Errored p = false ->
  (llen s = MaxStringLen ->
   0 <= Offset p <= len (Bytes p) -> len (Bytes p) < two63 ->
   Offset p + (2 + MaxStringLen) <= Z.max (len (Bytes p)) (MaxSize p) ->
   MaxSize p < two63 ->
   exists p',
     PackStr g s p = Ok tt p' /\ Errored p' = false
     /\ Offset p' = Offset p + (2 + MaxStringLen)
     /\ vis (Bytes p')
        = overwrite (Z.to_nat (Offset p)) ([xff; xff] ++ s) (vis (Bytes p)))
  /\ (MaxStringLen < llen s ->
      exists p' more,
        PackStr g s p = Ok tt p' /\ Errs_ p' = errInvalidInput :: more
        /\ Bytes p' = Bytes p /\ Offset p' = Offset p).
Proof.
  intros He. apply Errored_false in He. split.
  - intros Hs Ho Hl Hroom Hm.
    assert (ready p) as Hr by (unfold ready; auto).
    destruct (packs_pack g (IStr s)) with (p := p) as (p' & E & W).
    + cbn. lia.
    + exact Hr.
    + unfold room. cbn [encode]. rewrite llen_app, Hs.
      change (llen (be16 (uint16 MaxStringLen))) with 2. auto.
    + cbn [pack encode] in E, W. rewrite Hs in W.
      change (be16 (uint16 MaxStringLen)) with [xff; xff] in W.
      destruct W as (He' & _ & Ho' & Hv').
      exists p'. split; [exact E|]. split.
      { unfold Errored. rewrite He'. reflexivity. }
      split; [|exact Hv'].
      rewrite Ho', llen_app, Hs. reflexivity.
  - intros Hs. unfold PackStr.
    destruct (Z.gtb_spec (llen s) MaxStringLen); [|lia].
    unfold bind at 1. unfold modify.
    destruct (frozen_bind (PackShort g (uint16 (llen s)))
                (fun _ => PackFixedBytes g s) tt tt
                (frozen_PackShort g (uint16 (llen s)))
                (frozen_PackFixedBytes g s) (Add errInvalidInput p)
                (Errored_Add _ _)) as (l & E).
    eexists. exists l. split; [exact E|]. cbn. rewrite He.
    repeat split.
Qed.

(* ================================================================== *)
(** ** Malformed input *)

(** The sizes of a Packer are Go [int]s. *)
Definition well_typed (p : Packer) : Prop :=
  - two63 <= Offset p < two63 /\ len (Bytes p) < two63.

(** [safe m Q]: on every well-typed Packer [m] returns (it does not
    panic), and what it returns when the Packer has an error afterwards
    satisfies [Q]. *)
Definition safe {A : Type} (m : M A) (Q : A -> Prop) : Prop :=
  forall p, well_typed p ->
    exists v p', m p = Ok v p' /\ well_typed p'
                 /\ (Errored p' = true -> Q v).

Lemma safe_ret {A : Type} (a : A) (Q : A -> Prop) : Q a -> safe (ret a) Q.
Proof.
  intros H p Hw. exists a, p. split; [reflexivity|]. split; [exact Hw|].
  intros _. exact H.
Qed.

Lemma safe_bind {A B : Type} (m : M A) (f : A -> M B) (Q1 : A -> Prop)
    (Q2 : B -> Prop) :
  safe m Q1 -> (forall v, safe (f v) Q2) -> safe (bind m f) Q2.
Proof.
  intros Hm Hf p Hw.
  destruct (Hm p Hw) as (v & p1 & E1 & Hw1 & _).
  destruct (Hf v p1 Hw1) as (w & p2 & E2 & Hw2 & HQ).
  exists w, p2. unfold bind. rewrite E1. auto.
Qed.

Lemma safe_map {A B : Type} (m : M A) (f : A -> B) (Q : A -> Prop)
    (Q' : B -> Prop) :
  safe m Q -> (forall x, Q x -> Q' (f x)) ->
  safe (x <- m ;; ret (f x)) Q'.
Proof.
  intros Hm HQ p Hw.
  destruct (Hm p Hw) as (v & p1 & E1 & Hw1 & H1).
  exists (f v), p1. unfold bind, ret. rewrite E1. auto.
Qed.

Lemma safe_weaken {A : Type} (m : M A) (Q Q' : A -> Prop) :
  safe m Q -> (forall x, Q x -> Q' x) -> safe m Q'.
Proof.
  intros Hm HQ p Hw.
  destruct (Hm p Hw) as (v & p1 & E1 & Hw1 & H1).
  exists v, p1. auto.
Qed.

(** What is known once [CheckSpace n] has let a Packer through. *)
Lemma CheckSpace_passes (n : Z) (p : Packer) :
  well_typed p ->
  exists p1, CheckSpace n p = Ok tt p1 /\ well_typed p1
             /\ Bytes p1 = Bytes p
             /\ (Errored p1 = false ->
                 p1 = p /\ 0 <= Offset p /\ 0 <= n
                 /\ Offset p + n <= len (Bytes p)).
Proof.
  intros (Ho & Hl). unfold CheckSpace, bind, get, modify, ret.
  pose proof (llen_nonneg (vis (Bytes p))) as Hnn. fold (len (Bytes p)) in Hnn.
  destruct (Z.ltb_spec (Offset p) 0).
  { eexists. split; [reflexivity|]. split; [split; assumption|].
    split; [reflexivity|]. rewrite Errored_Add. discriminate. }
  destruct (Z.ltb_spec n 0).
  { eexists. split; [reflexivity|]. split; [split; assumption|].
    split; [reflexivity|]. rewrite Errored_Add. discriminate. }
  rewrite wrap64_small by (unfold two63 in *; lia).
  destruct (Z.ltb_spec (len (Bytes p) - Offset p) n).
  { eexists. split; [reflexivity|]. split; [split; assumption|].
    split; [reflexivity|]. rewrite Errored_Add. discriminate. }
  exists p. split; [reflexivity|]. split; [split; assumption|].
  split; [reflexivity|]. intros _. repeat split; lia.
Qed.

(** A reading primitive is safe when its read is, wherever [CheckSpace]
    lets it through; after an error it hands back its zero value. *)
Lemma safe_prim {A : Type} (n : Z) (z : A) (tail : Packer -> M A) :
  (forall p, well_typed p -> Errs_ p = [] -> 0 <= Offset p -> 0 <= n ->
             Offset p + n <= len (Bytes p) ->
             exists v p', tail p p = Ok v p' /\ well_typed p'
                          /\ Errs_ p' = []) ->
  safe (CheckSpace n ;;; p <- get ;; if Errored p then ret z else tail p)
       (eq z).
Proof.
  intros Ht p Hw.
  destruct (CheckSpace_passes n p Hw) as (p1 & E & Hw1 & _ & Hpass).
  unfold bind at 1. rewrite E. unfold bind, get.
  destruct (Errored p1) eqn:Ee.
  - exists z, p1. repeat split; auto; apply Hw1.
  - destruct (Hpass eq_refl) as (-> & H1 & H2 & H3).
    destruct (Ht p Hw (Errored_false p Ee) H1 H2 H3) as (v & p' & Et & Hw' & He').
    exists v, p'. split; [exact Et|]. split; [exact Hw'|].
    unfold Errored. rewrite He'. discriminate.
Qed.

Lemma safe_UnpackByte : safe UnpackByte (eq x00).
Proof.
  apply safe_prim. intros p (Hw1 & Hw2) He Ho _ Hl.
  unfold bind, checked, index, modify, ret.
  destruct (Z.leb_spec 0 (Offset p)); [|lia].
  destruct (Z.ltb_spec (Offset p) (len (Bytes p))); [|unfold ByteLen in *; lia].
  cbn [andb].
  destruct (nth_error (vis (Bytes p)) (Z.to_nat (Offset p))) as [b|] eqn:En.
  - eexists _, _. split; [reflexivity|]. split; [|exact He].
    unfold well_typed. cbn. rewrite wrap64_small by (unfold two63 in *; lia).
    split; [lia | exact Hw2].
  - apply nth_error_None in En. unfold len, llen in *. lia.
Qed.

Tactic Notation "safe_big_endian" constr(w) integer(wi) :=
  let p := fresh "p" in
  let Hw1 := fresh "Hw1" in let Hw2 := fresh "Hw2" in
  let He := fresh "He" in let Ho := fresh "Ho" in let Hl := fresh "Hl" in
  apply safe_prim; intros p (Hw1 & Hw2) He Ho _ Hl;
  unfold bind, checked, modify, ret, ShortLen, IntLen, LongLen in *;
  rewrite slice_from_ok by lia;
  destruct (skipn_length_ge w (skipn (Z.to_nat (Offset p)) (vis (Bytes p))))
    as (h & Eh & Lh);
  [ rewrite length_skipn; unfold len, llen in *; lia
  | rewrite Eh;
    do wi (destruct h as [|? h]; [discriminate Lh|]);
    cbn [app BigEndian.Uint16 BigEndian.Uint32 BigEndian.Uint64];
    eexists _, _; split; [reflexivity|]; split; [|exact He];
    unfold well_typed; cbn;
    rewrite wrap64_small by (unfold two63 in *; lia);
    split; [lia | exact Hw2] ].

Lemma safe_UnpackShort : safe UnpackShort (eq 0).
Proof. unfold UnpackShort. safe_big_endian 2%nat 2. Qed.

Lemma safe_UnpackInt : safe UnpackInt (eq 0).
Proof. unfold UnpackInt. safe_big_endian 4%nat 4. Qed.

Lemma safe_UnpackLong : safe UnpackLong (eq 0).
Proof. unfold UnpackLong. safe_big_endian 8%nat 8. Qed.

Lemma safe_UnpackFixedBytes (size : Z) : safe (UnpackFixedBytes size) (eq []).
Proof.
  apply safe_prim. intros p (Hw1 & Hw2) He Ho Hs Hl.
  pose proof (llen_nonneg (spare (Bytes p))).
  unfold bind, checked, slice_range, modify, ret, cap.
  fold (len (Bytes p)).
  rewrite wrap64_small by (unfold two63 in *; lia).
  destruct (Z.leb_spec 0 (Offset p)); [|lia].
  destruct (Z.leb_spec (Offset p) (Offset p + size)); [|lia].
  destruct (Z.leb_spec (Offset p + size)
              (len (Bytes p) + llen (spare (Bytes p)))); [|lia].
  cbn [andb]. eexists _, _. split; [reflexivity|]. split; [|exact He].
  unfold well_typed. cbn.
  rewrite wrap64_small by (unfold two63 in *; lia).
  split; [unfold two63 in *; lia | exact Hw2].
Qed.

Lemma safe_UnpackBool : safe UnpackBool (eq false).
Proof.
  intros p Hw.
  destruct (safe_UnpackByte p Hw) as (b & p1 & E & Hw1 & Hz).
  unfold UnpackBool, bind. rewrite E.
  destruct b; cbn;
    (eexists _, _; split; [reflexivity|]; split; [exact Hw1|];
     intros He; try reflexivity; specialize (Hz He); discriminate Hz).
Qed.

Lemma safe_UnpackIP : safe UnpackIP (fun _ => True).
Proof.
  eapply safe_bind; [apply safe_UnpackFixedBytes|]. intros ip.
  eapply safe_bind; [apply safe_UnpackShort|]. intros port.
  apply safe_ret. exact I.
Qed.

Lemma safe_UnpackFixedByteSlices_loop (n : nat) (size : Z)
    (acc : list (list byte)) :
  safe (UnpackFixedByteSlices_loop n size acc) (fun _ => True).
Proof.
  revert acc. induction n as [|n IH]; intros acc; cbn.
  - apply safe_ret. exact I.
  - intros p Hw. unfold bind at 1. unfold get.
    destruct (Errored p).
    + apply safe_ret; [exact I | exact Hw].
    + revert p Hw.
      eapply safe_bind; [apply safe_UnpackFixedBytes|]. intros b. apply IH.
Qed.

Lemma safe_UnpackIPs_loop (n : nat) (acc : list IPDesc) :
  safe (UnpackIPs_loop n acc) (fun _ => True).
Proof.
  revert acc. induction n as [|n IH]; intros acc; cbn.
  - apply safe_ret. exact I.
  - intros p Hw. unfold bind at 1. unfold get.
    destruct (Errored p).
    + apply safe_ret; [exact I | exact Hw].
    + revert p Hw.
      eapply safe_bind; [apply safe_UnpackIP|]. intros b. apply IH.
Qed.

(** The operations that hand back the zero value of their type whenever
    the Packer has an error afterwards. [UnpackIP] and the two list
    operations are not among them: they hand back what they had read
    before the error. *)
Definition zero_on_error (k : kind) : bool :=
  match k with
  | KIP | KFixedByteSlices _ | KIPs => false
  | _ => true
  end.

Lemma safe_unpack (k : kind) :
  safe (unpack k) (fun v => zero_on_error k = true -> v = zero k).
Proof.
  destruct k; cbn [unpack zero_on_error zero].
  - eapply safe_map; [apply safe_UnpackByte|]. intros x <- _. reflexivity.
  - eapply safe_map; [apply safe_UnpackBool|]. intros x <- _. reflexivity.
  - eapply safe_map; [apply safe_UnpackShort|]. intros x <- _. reflexivity.
  - eapply safe_map; [apply safe_UnpackInt|]. intros x <- _. reflexivity.
  - eapply safe_map; [apply safe_UnpackLong|]. intros x <- _. reflexivity.
  - eapply safe_map; [apply safe_UnpackFixedBytes|].
    intros x <- _. reflexivity.
  - eapply safe_map with (Q := eq []).
    + eapply safe_bind; [apply safe_UnpackInt|]. intros n.
      apply safe_UnpackFixedBytes.
    + intros x <- _. reflexivity.
  - eapply safe_map with (Q := fun _ => True).
    + eapply safe_bind; [apply safe_UnpackInt|]. intros n.
      apply safe_UnpackFixedByteSlices_loop.
    + intros x _ H. discriminate H.
  - eapply safe_map with (Q := eq []).
    + eapply safe_bind; [apply safe_UnpackShort|]. intros n.
      apply safe_UnpackFixedBytes.
    + intros x <- _. reflexivity.
  - eapply safe_map; [apply safe_UnpackIP|]. intros x _ H. discriminate H.
  - eapply safe_map with (Q := fun _ => True).
    + eapply safe_bind; [apply safe_UnpackInt|]. intros n.
      apply safe_UnpackIPs_loop.
    + intros x _ H. discriminate H.
Qed.

Lemma safe_unpack_all (ks : list kind) :
  safe (unpack_all ks) (fun _ => True).
Proof.
  induction ks as [|k ks IH]; cbn.
  - apply safe_ret. exact I.
  - eapply safe_bind; [apply safe_unpack|]. intros v.
    eapply safe_bind; [apply IH|]. intros vs. apply safe_ret. exact I.
Qed.

(** On every Packer whose sizes are Go [int]s, whatever its bytes, every
    unpack operation returns: it does not panic, it reads within bounds;
    so does every sequence of them. Where the bytes do not suffice,
    [CheckSpace] records an error. The byte, bool, short, int, long, fixed
    bytes, bytes and string operations hand back the zero value whenever
    the Packer has an error afterwards. The loops of the list operations
    do nothing on a Packer that has an error. *)
Lemma unpack_total :
  (forall k p, well_typed p ->
     exists v p', unpack k p = Ok v p' /\ well_typed p'
                  /\ (Errored p' = true -> zero_on_error k = true ->
                      v = zero k))
  /\ (forall ks p, well_typed p ->
        exists vs p', unpack_all ks p = Ok vs p')
  /\ (forall n p, well_typed p ->
        ~ (0 <= Offset p /\ 0 <= n /\ Offset p + n <= len (Bytes p)) ->
        exists p', CheckSpace n p = Ok tt p' /\ Errored p' = true)
  /\ (forall n size acc p, Errored p = true ->
        UnpackFixedByteSlices_loop n size acc p = Ok acc p)
  /\ (forall n acc p, Errored p = true ->
        UnpackIPs_loop n acc p = Ok acc p).
Proof.
  split; [|split; [|split; [|split]]].
  - intros k p Hw. apply (safe_unpack k p Hw).
  - intros ks p Hw.
    destruct (safe_unpack_all ks p Hw) as (vs & p' & E & _).
    exists vs, p'. exact E.
  - intros n p Hw Hbad.
    destruct (CheckSpace_passes n p Hw) as (p1 & E & _ & _ & Hpass).
    exists p1. split; [exact E|].
    destruct (Errored p1); [reflexivity|].
    destruct (Hpass eq_refl) as (_ & H1 & H2 & H3). exfalso. apply Hbad.
    repeat split; assumption.
  - intros n size acc p H. destruct n; cbn; [reflexivity|].
    unfold bind, get. rewrite H. reflexivity.
  - intros n acc p H. destruct n; cbn; [reflexivity|].
    unfold bind, get. rewrite H. reflexivity.
Qed.

(* ================================================================== *)
(** ** The timestamp VM *)

Lemma bytes_eqb_refl (a : list byte) : bytes_eqb a a = true.
Proof.
  induction a as [|x a IH]; cbn; [reflexivity|].
  rewrite IH, andb_true_r. apply Byte.byte_dec_lb. reflexivity.
Qed.

Lemma skipn_zeros (k n : nat) : skipn k (zeros n) = zeros (n - k).
Proof.
  revert n. induction k as [|k IH]; intros n.
  - rewrite Nat.sub_0_r. reflexivity.
  - destruct n as [|n]; [reflexivity|]. cbn. apply IH.
Qed.

Lemma copy_pads (n : nat) (src : list byte) :
  (length src <= n)%nat -> copy (zeros n) src = src ++ zeros (n - length src).
Proof.
  intros H. unfold copy. rewrite length_zeros.
  rewrite firstn_all2 by exact H. f_equal.
  apply skipn_zeros.
Qed.

Section TimestampVMProperties.

Variable sha256 : list byte -> ID.
Variable codec_NewDefault : Codec.

(** C5, what the code does. [BuildBlock] never writes to the database:
    whatever the mempool holds, the database of the VM afterwards is the
    database before, so the block that is built is not persisted. *)
Theorem BuildBlock_leaves_database (vm : VM) (now : Time) :
  DB (snowman (snd (BuildBlock sha256 vm now))) = DB (snowman vm).
Proof.
  unfold BuildBlock. destruct (mempool vm) as [|value rest]; [reflexivity|].
  cbn [snd mempool]. destruct (llen rest >? 0); reflexivity.
Qed.

(** The rest of [BuildBlock] is as described: an empty mempool gives
    [errNoPendingBlocks] and changes nothing. *)
Lemma BuildBlock_empty (vm : VM) (now : Time) :
  mempool vm = [] ->
  BuildBlock sha256 vm now = ((None, Some errNoPendingBlocks), vm).
Proof. intros H. unfold BuildBlock. rewrite H. reflexivity. Qed.

(** With a datum pending and a codec that marshals the block, the head
    datum is popped and put into a block on the preferred block, stamped
    with the wallclock seconds. *)
Lemma BuildBlock_pops (vm : VM) (now : Time) (value : list byte)
    (rest : list (list byte)) (blockBytes : list byte) :
  mempool vm = value :: rest ->
  Marshal (codec vm)
    (mkBlock (Preferred vm) value (Unix now) ids_Empty [] Unknown)
  = inl blockBytes ->
  exists b vm',
    BuildBlock sha256 vm now = ((Some b, None), vm')
    /\ PrntID b = Preferred vm /\ Data b = value
    /\ Timestamp b = Unix now
    /\ blk_bytes b = blockBytes /\ blk_id b = sha256 blockBytes
    /\ mempool vm' = rest
    /\ GetBlock (DB (snowman vm')) (blk_id b)
       = GetBlock (DB (snowman vm)) (blk_id b).
Proof.
  intros Hm HM. unfold BuildBlock, NewBlock. rewrite Hm.
  cbn [codec snowman mempool core_NewBlock PrntID blk_id blk_bytes
       blk_status].
  change (Preferred (mkVM (snowman vm) (codec vm) rest)) with (Preferred vm).
  rewrite HM.
  eexists _, _. split; [reflexivity|].
  cbn [PrntID Data Timestamp blk_bytes blk_id Block_Initialize].
  repeat split; destruct (llen rest >? 0); reflexivity.
Qed.

(** C6, what the code does. [ParseBlock] does not hand back a block for
    every byte string: whenever [Unmarshal] leaves the block without its
    embedded core block, [Initialize] is called on a nil pointer and
    [ParseBlock] panics, whatever [Unmarshal] reported. *)
Theorem ParseBlock_panics_without_core_block (vm : VM) (bytes : list byte)
    (data : list byte) (timestamp : Z) (err : option vm_error) :
  Unmarshal (codec vm) bytes Block_zero = (Bare data timestamp, err) ->
  ParseBlock sha256 vm bytes = Panics.
Proof. intros H. unfold ParseBlock. rewrite H. reflexivity. Qed.

(** Where [Unmarshal] has set the embedded core block, [ParseBlock]
    returns the block it decoded, with the bytes, the id that is the hash
    of the bytes, and the status that [Initialize] finds for that id. *)
Lemma ParseBlock_with_core_block (vm : VM) (bytes : list byte) (u : Block)
    (err : option vm_error) :
  Unmarshal (codec vm) bytes Block_zero = (Full u, err) ->
  ParseBlock sha256 vm bytes
  = Returns (Some (Block_Initialize sha256 u bytes (snowman vm)), err).
Proof. intros H. unfold ParseBlock. rewrite H. reflexivity. Qed.

(** C10, what the code does. When [Unmarshal] fails, what [ParseBlock]
    does depends on how far [Unmarshal] came. If it has set the embedded
    core block, the block is initialized with the raw bytes and returned
    beside the error. If it has not, [ParseBlock] panics: the caller gets
    neither a block nor the error. *)
Theorem ParseBlock_on_Unmarshal_error (vm : VM) (bytes : list byte)
    (blk : BlockPtr) (err : vm_error) :
  Unmarshal (codec vm) bytes Block_zero = (blk, Some err) ->
  match blk with
  | Bare _ _ => ParseBlock sha256 vm bytes = Panics
  | Full u =>
      exists b,
        ParseBlock sha256 vm bytes = Returns (Some b, Some err)
        /\ blk_bytes b = bytes
        /\ blk_id b = sha256 bytes
        /\ PrntID b = PrntID u /\ Data b = Data u
        /\ Timestamp b = Timestamp u
  end.
Proof.
  intros H. unfold ParseBlock. rewrite H. destruct blk as [d t|u].
  - reflexivity.
  - eexists. split; [reflexivity|]. cbn. repeat split.
Qed.

(** The genesis block as [Initialize] hands it to the codec: no parent,
    the data left-aligned in 32 bytes, timestamp 0. *)
Definition genesis_fields (genesisData : list byte) : Block :=
  mkBlock ids_Empty
    (genesisData ++ zeros (32 - length genesisData)) 0 ids_Empty [] Unknown.

Lemma Initialize_rejects_long_genesis (vm : VM) (db : Database)
    (genesisData : list byte) (toEngine : bool) :
  db_initialized (staged db) = false ->
  dataLen < llen genesisData ->
  Initialize sha256 codec_NewDefault vm db genesisData toEngine
  = (mkVM (mkSnowmanVM db (LastAcceptedID (snowman vm))
             (preferred (snowman vm)) toEngine)
          codec_NewDefault (mempool vm),
     Some errBadGenesisBytes).
Proof.
  intros Hdb Hlen. unfold Initialize, SnowmanVM_Initialize. rewrite Hdb.
  unfold DBInitialized. cbn [snowman DB negb]. rewrite Hdb. cbn [negb].
  destruct (Z.gtb_spec (llen genesisData) dataLen); [|lia].
  reflexivity.
Qed.

Lemma Initialize_accepts_genesis (vm : VM) (db : Database)
    (genesisData : list byte) (toEngine : bool) (blockBytes : list byte) :
  db_initialized (staged db) = false ->
  llen genesisData <= dataLen ->
  Marshal codec_NewDefault (genesis_fields genesisData) = inl blockBytes ->
  exists vm',
    Initialize sha256 codec_NewDefault vm db genesisData toEngine
    = (vm', None)
    /\ GetBlock (DB (snowman vm')) (sha256 blockBytes)
       = Some (blockBytes, Accepted)
    /\ LastAcceptedID (snowman vm') = sha256 blockBytes
    /\ preferred (snowman vm') = sha256 blockBytes
    /\ db_initialized (staged (DB (snowman vm'))) = true
    /\ durable (DB (snowman vm')) = staged (DB (snowman vm')).
Proof.
  intros Hdb Hlen HM.
  unfold Initialize, SnowmanVM_Initialize. rewrite Hdb.
  unfold DBInitialized. cbn [snowman DB negb]. rewrite Hdb. cbn [negb].
  destruct (Z.gtb_spec (llen genesisData) dataLen); [lia|].
  unfold NewBlock.
  cbn [codec core_NewBlock PrntID blk_id blk_bytes blk_status].
  rewrite copy_pads by (unfold dataLen, llen in *; lia).
  change (Unix (time_Unix 0 0)) with 0.
  unfold genesis_fields in HM. rewrite HM.
  eexists. split; [reflexivity|].
  cbn. unfold GetBlock. cbn. rewrite bytes_eqb_refl.
  repeat split.
Qed.

(** C7. On a database that is not initialized: genesis data longer than
    32 bytes makes [Initialize] fail with [errBadGenesisBytes] and leaves
    the database as it was (nothing persisted, not marked initialized,
    nothing committed). Genesis data of at most 32 bytes is left-aligned
    into 32 zero-padded bytes and put into a block with the all-zero
    parent and timestamp 0; once the codec has marshalled it, the block is
    persisted with status Accepted, it is the last accepted and the
    preferred block, the database is marked initialized and committed. *)
Theorem Initialize_genesis (vm : VM) (db : Database)
    (genesisData : list byte) (toEngine : bool) :
  db_initialized (staged db) = false ->
  (dataLen < llen genesisData ->
   exists vm',
     Initialize sha256 codec_NewDefault vm db genesisData toEngine
     = (vm', Some errBadGenesisBytes)
     /\ DB (snowman vm') = db)
  /\ (llen genesisData <= dataLen ->
      forall blockBytes,
        Marshal codec_NewDefault (genesis_fields genesisData)
        = inl blockBytes ->
        exists vm',
          Initialize sha256 codec_NewDefault vm db genesisData toEngine
          = (vm', None)
          /\ GetBlock (DB (snowman vm')) (sha256 blockBytes)
             = Some (blockBytes, Accepted)
          /\ LastAcceptedID (snowman vm') = sha256 blockBytes
          /\ preferred (snowman vm') = sha256 blockBytes
          /\ db_initialized (staged (DB (snowman vm'))) = true
          /\ durable (DB (snowman vm')) = staged (DB (snowman vm'))).
Proof.
  intros Hdb. split.
  - intros Hlen. eexists. split.
    + apply Initialize_rejects_long_genesis; assumption.
    + reflexivity.
  - intros Hlen blockBytes HM.
    apply Initialize_accepts_genesis; assumption.
Qed.

End TimestampVMProperties.

(* ================================================================== *)
(** * Instances *)

(** Closed comparisons and equations, by evaluation. *)
Ltac evaluate :=
  vm_compute;
  repeat match goal with |- _ /\ _ => split end;
  first [reflexivity | discriminate].

(** A growth policy for [append]: the capacity doubles unless the new
    length asks for more. *)
Definition doubling (c n : Z) : nat := Z.to_nat (Z.max (2 * c) n - n).

(** The example of the wire format: a short, a string and an int. *)
Example wire_compat :
  exists p,
    pack_all doubling [IShort 4660; IStr [x6f; x6b]; IInt 3735928559]
      (writer 10) = Ok tt p
    /\ vis (Bytes p) = [x12; x34; x00; x02; x6f; x6b; xde; xad; xbe; xef]
    /\ Errored p = false.
Proof. eexists. split; [evaluate|]. split; reflexivity. Qed.

Lemma pack_unpack_roundtrip_witness :
  exists p q,
    pack_all doubling [IShort 4660; IStr [x6f; x6b]; IInt 3735928559]
      (writer 10) = Ok tt p
    /\ Errored p = false
    /\ Offset p = total_width [IShort 4660; IStr [x6f; x6b]; IInt 3735928559]
    /\ unpack_all [KShort; KStr; KInt] (reader (Bytes p))
       = Ok [IShort 4660; IStr [x6f; x6b]; IInt 3735928559] q
    /\ Errored q = false
    /\ Offset q = total_width [IShort 4660; IStr [x6f; x6b]; IInt 3735928559].
Proof.
  apply (proj2 (pack_unpack_roundtrip doubling) [KShort; KStr; KInt]).
  - reflexivity.
  - evaluate.
Defined.

(** A Packer that has failed once. *)
Definition failed_packer : Packer := mkPacker [errBadBool] 10 nil_slice 0.

Lemma errored_packer_is_frozen_witness :
  (forall v : item,
     exists p', pack doubling v failed_packer = Ok tt p'
                /\ Errored p' = true
                /\ Bytes p' = Bytes failed_packer
                /\ Offset p' = Offset failed_packer)
  /\ (forall k : kind,
        exists p', unpack k failed_packer = Ok (zero k) p'
                   /\ Errored p' = true
                   /\ Bytes p' = Bytes failed_packer
                   /\ Offset p' = Offset failed_packer).
Proof.
  apply (errored_packer_is_frozen doubling failed_packer). reflexivity.
Defined.

(** C3 as the claim has it, for every Packer with
    [0 <= Offset <= len(Bytes) <= MaxSize], with or without an error. *)
Definition Expand_claim : Prop :=
  forall (g : Z -> Z -> nat) (p : Packer) (n : Z),
    0 <= Offset p <= len (Bytes p) -> len (Bytes p) <= MaxSize p ->
    0 <= n ->
    exists p',
      Expand g n p = Ok tt p'
      /\ (Offset p + n <= len (Bytes p) -> Bytes p' = Bytes p)
      /\ (MaxSize p < Offset p + n ->
          In errBadLength (Errs_ p') /\ Bytes p' = Bytes p)
      /\ (len (Bytes p) < Offset p + n <= MaxSize p ->
          len (Bytes p') = Offset p + n)
      /\ len (Bytes p) <= len (Bytes p') <= MaxSize p.

(** On a Packer that has failed before, [Expand] does nothing at all: it
    neither grows the buffer nor records [errBadLength]. *)
Lemma Expand_claim_fails : ~ Expand_claim.
Proof.
  intros H.
  destruct (H doubling failed_packer 1) as (p' & E & _ & _ & Hgrow & _);
    try evaluate.
  vm_compute in E. inversion E; subst p'.
  assert (len (Bytes failed_packer) = Offset failed_packer + 1) as Hl.
  { apply Hgrow. evaluate. }
  vm_compute in Hl. discriminate Hl.
Qed.

Definition one_byte_packer : Packer := mkPacker [] 16 (mkSlice [x01] []) 1.

Lemma Expand_error_free_witness :
  exists p',
    Expand doubling 3 one_byte_packer = Ok tt p'
    /\ len (Bytes p') = 4 /\ Errored p' = false
    /\ MaxSize p' = 16.
Proof.
  destruct (Expand_error_free doubling one_byte_packer 3)
    as (p' & E & _ & _ & Hgrow & _ & Hmax).
  - reflexivity.
  - evaluate.
  - evaluate.
  - evaluate.
  - evaluate.
  - evaluate.
  - exists p'. split; [exact E|].
    destruct Hgrow as (Hl & _ & He & _).
    + evaluate.
    + split; [exact Hl|]. split; [exact He | exact Hmax].
Defined.

(** C4 as the claim has it: whichever operation records an error, the
    offset is where it was. *)
Definition offset_claim : Prop :=
  forall (g : Z -> Z -> nat) (p p' : Packer),
    Errs_ p' <> Errs_ p ->
    (forall v, pack g v p = Ok tt p' -> Offset p' = Offset p)
    /\ (forall k x, unpack k p = Ok x p' -> Offset p' = Offset p).


(** C8 as the claim has it, for every Packer without an error. *)
Definition PackStr_claim : Prop :=
  forall (g : Z -> Z -> nat) (p : Packer) (s : list byte),
    Errored p = false ->
    (llen s = 65535 ->
     exists p', PackStr g s p = Ok tt p' /\ Errored p' = false)
    /\ (65536 <= llen s ->
        exists p', PackStr g s p = Ok tt p'
                   /\ In errInvalidInput (Errs_ p')
                   /\ Bytes p' = Bytes p /\ Offset p' = Offset p).

(** A string of exactly [MaxStringLen] bytes and one that is a byte
    longer. *)
Definition longest_string : list byte := zeros (Z.to_nat MaxStringLen).
Definition too_long_string : list byte := x00 :: longest_string.

(** A Packer whose size limit leaves no room records [errBadLength]. *)
Lemma PackStr_claim_fails : ~ PackStr_claim.
Proof.
  intros H.
  destruct (H doubling (writer 0) (longest_string) eq_refl) as [H1 _].
  destruct H1 as (p' & E & He); [evaluate|].
  vm_compute in E. inversion E; subst p'. discriminate He.
Qed.

Lemma PackStr_at_the_limit_witness :
  (exists p',
      PackStr doubling (longest_string) (writer 65537) = Ok tt p'
      /\ Errored p' = false
      /\ Offset p' = Offset (writer 65537) + (2 + MaxStringLen)
      /\ vis (Bytes p')
         = overwrite (Z.to_nat (Offset (writer 65537)))
             ([xff; xff] ++ longest_string) (vis (Bytes (writer 65537))))
  /\ (exists p' more,
         PackStr doubling (too_long_string) (writer 65537) = Ok tt p'
         /\ Errs_ p' = errInvalidInput :: more
         /\ Bytes p' = Bytes (writer 65537)
         /\ Offset p' = Offset (writer 65537)).
Proof.
  split.
  - apply (proj1 (PackStr_at_the_limit doubling (writer 65537) (longest_string)
                    eq_refl)).
    + evaluate.
    + evaluate.
    + evaluate.
    + evaluate.
    + evaluate.
  - apply (proj2 (PackStr_at_the_limit doubling (writer 65537) (too_long_string)
                    eq_refl)).
    evaluate.
Defined.

(** C9 as the claim has it: no panic, and the zero value after an error,
    for every unpack operation. *)
Definition unpack_claim : Prop :=
  forall (k : kind) (p : Packer),
    well_typed p ->
    exists v p', unpack k p = Ok v p'
                 /\ (Errored p' = true -> v = zero k).


(** A truncated list that announces 2^32-1 elements. *)
Definition truncated_list : Packer :=
  reader (mkSlice [xff; xff; xff; xff; xaa] []).

(* ------------------------------------------------------------------ *)
(** ** A codec for the block record *)

Definition status_code (s : Status) : Z :=
  match s with
  | Unknown => 0
  | Processing => 1
  | Rejected => 2
  | Accepted => 3
  end.

Definition status_of_code (c : Z) : Status :=
  if c =? 1 then Processing
  else if c =? 2 then Rejected
  else if c =? 3 then Accepted
  else Unknown.

(** Modelled from the spec: a codec with the serialized layout of the
    block record, [parent_id (32) | status (int32) | data (32) |
    timestamp (int64)], 76 bytes, written and read with the Packer. The
    spec fixes the code of Unknown (the four zero bytes of the genesis
    block); the other codes are the choice of this instance. [Unmarshal]
    sets the embedded core block once it has read the parent id; on an
    input that ends before, the block is left as it was handed in. *)
Definition wire_Marshal (b : Block) : list byte + vm_error :=
  match pack_all doubling
          [IFixedBytes (PrntID b); IInt (status_code (blk_status b));
           IFixedBytes (Data b); ILong (uint64 (Timestamp b))]
          (writer 76) with
  | Ok _ p =>
      match Errs_ p with
      | [] => inl (vis (Bytes p))
      | e :: _ => inr (errCollaborator e)
      end
  | Panic => inr (errCollaborator errBadLength)
  end.

Definition wire_Unmarshal (bytes : list byte) (b : BlockPtr)
    : BlockPtr * option vm_error :=
  match UnpackFixedBytes 32 (reader (mkSlice bytes [])) with
  | Ok pid p1 =>
      match Errs_ p1 with
      | e :: _ => (b, Some (errCollaborator e))
      | [] =>
          let started :=
            match b with
            | Bare d t => mkBlock pid d t ids_Empty [] Unknown
            | Full u => mkBlock pid (Data u) (Timestamp u) (blk_id u)
                          (blk_bytes u) (blk_status u)
            end in
          match unpack_all [KInt; KFixedBytes 32; KLong] p1 with
          | Ok [IInt st; IFixedBytes d; ILong t] p2 =>
              match Errs_ p2 with
              | [] => (Full (mkBlock pid d (wrap64 t) (blk_id started)
                               (blk_bytes started) (status_of_code st)),
                       None)
              | e :: _ => (Full started, Some (errCollaborator e))
              end
          | _ => (Full started, Some (errCollaborator errInvalidInput))
          end
      end
  | Panic => (b, Some (errCollaborator errInvalidInput))
  end.

Definition wire_codec : Codec := mkCodec wire_Marshal wire_Unmarshal.

(** A stand-in for the hash in the instances below: the first 32 bytes,
    zero-padded. *)
Definition first32 (b : list byte) : ID := firstn 32 (b ++ zeros 32).

Definition hello : list byte := [x68; x65; x6c; x6c; x6f].

(** The bytes of the genesis block for the data "hello": 32 zero bytes,
    4 zero bytes, the data padded to 32 bytes, 8 zero bytes. *)
Definition hello_genesis_bytes : list byte :=
  zeros 32 ++ zeros 4 ++ (hello ++ zeros 27) ++ zeros 8.

Example hello_genesis_marshalled :
  Marshal wire_codec (genesis_fields hello) = inl hello_genesis_bytes.
Proof. vm_compute. reflexivity. Qed.

Definition fresh_vm : VM :=
  mkVM (mkSnowmanVM Database_empty ids_Empty ids_Empty false) wire_codec [].

Lemma Initialize_genesis_witness :
  (exists vm',
      Initialize first32 wire_codec fresh_vm Database_empty (zeros 33) false
      = (vm', Some errBadGenesisBytes)
      /\ DB (snowman vm') = Database_empty)
  /\ (exists vm',
         Initialize first32 wire_codec fresh_vm Database_empty hello false
         = (vm', None)
         /\ GetBlock (DB (snowman vm')) (first32 hello_genesis_bytes)
            = Some (hello_genesis_bytes, Accepted)
         /\ LastAcceptedID (snowman vm') = first32 hello_genesis_bytes
         /\ preferred (snowman vm') = first32 hello_genesis_bytes
         /\ db_initialized (staged (DB (snowman vm'))) = true
         /\ durable (DB (snowman vm')) = staged (DB (snowman vm'))).
Proof.
  split.
  - apply (proj1 (Initialize_genesis first32 wire_codec fresh_vm
                    Database_empty (zeros 33) false eq_refl)).
    evaluate.
  - apply (proj2 (Initialize_genesis first32 wire_codec fresh_vm
                    Database_empty hello false eq_refl)).
    + evaluate.
    + evaluate.
Defined.

(** The parent id of a block and nothing behind it: 32 bytes. *)
Definition parent_only : list byte := zeros 31 ++ [x07].

Lemma ParseBlock_panics_without_core_block_witness :
  ParseBlock first32 fresh_vm [x01; x02; x03] = Panics.
Proof.
  apply (ParseBlock_panics_without_core_block first32 fresh_vm
           [x01; x02; x03] (zeros 32) 0
           (Some (errCollaborator errBadLength))).
  evaluate.
Defined.

Lemma ParseBlock_on_Unmarshal_error_witness :
  ParseBlock first32 fresh_vm [x01; x02; x03] = Panics
  /\ exists b,
       ParseBlock first32 fresh_vm parent_only
       = Returns (Some b, Some (errCollaborator errBadLength))
       /\ blk_bytes b = parent_only
       /\ blk_id b = first32 parent_only
       /\ PrntID b = parent_only /\ Data b = zeros 32
       /\ Timestamp b = 0.
Proof.
  split.
  - apply (ParseBlock_on_Unmarshal_error first32 fresh_vm [x01; x02; x03]
             Block_zero (errCollaborator errBadLength)).
    evaluate.
  - apply (ParseBlock_on_Unmarshal_error first32 fresh_vm parent_only
             (Full (mkBlock parent_only (zeros 32) 0 ids_Empty [] Unknown))
             (errCollaborator errBadLength)).
    evaluate.
Defined.

(** C5 at an input: one datum pending, an empty store. The block is built
    and returned, and the store is as empty as before. *)
Definition one_pending : VM :=
  mkVM (mkSnowmanVM Database_empty ids_Empty ids_Empty false) wire_codec
       [zeros 32].

Example BuildBlock_one_pending :
  exists b vm',
    BuildBlock first32 one_pending (mkTime 1600000000 5)
    = ((Some b, None), vm')
    /\ Timestamp b = 1600000000
    /\ mempool vm' = []
    /\ GetBlock (DB (snowman vm')) (blk_id b) = None.
Proof.
  destruct (BuildBlock_pops first32 one_pending (mkTime 1600000000 5)
              (zeros 32) []
              (zeros 32 ++ zeros 4 ++ zeros 32
               ++ [x00; x00; x00; x00; x5f; x5e; x10; x00]))
    as (b & vm' & E & _ & _ & Ht & _ & _ & Hm & Hg).
  - reflexivity.
  - vm_compute. reflexivity.
  - exists b, vm'. split; [exact E|]. split; [exact Ht|].
    split; [exact Hm|]. rewrite Hg. reflexivity.
Qed.

(** With this codec the genesis block always marshals, to the 76 bytes
    of the layout: [Initialize] succeeds on every genesis data of at most
    32 bytes, and the id of the genesis block is the hash of those
    bytes. *)
Lemma wire_Marshal_genesis (genesisData : list byte) :
  llen genesisData <= dataLen ->
  Marshal wire_codec (genesis_fields genesisData)
  = inl (zeros 32 ++ zeros 4
         ++ (genesisData ++ zeros (32 - length genesisData)) ++ zeros 8).
Proof.
  intros Hlen. unfold dataLen, llen in Hlen.
  cbn [Marshal wire_codec]. unfold wire_Marshal, genesis_fields.
  cbn [PrntID blk_status Data Timestamp status_code].
  destruct (roundtrip_all doubling
              [KFixedBytes 32; KInt; KFixedBytes 32; KLong]
              [IFixedBytes ids_Empty; IInt 0;
               IFixedBytes (genesisData ++ zeros (32 - length genesisData));
               ILong (uint64 0)] 76)
    as (p & E & He & _ & Hv & _).
  - cbn [all_in_domain in_domain]. unfold llen.
    rewrite length_app, length_zeros.
    replace (Z.of_nat (length genesisData + (32 - length genesisData)))
      with 32 by lia.
    reflexivity.
  - cbn [total_width width]. unfold llen.
    rewrite length_app, length_zeros.
    replace (Z.of_nat (length genesisData + (32 - length genesisData)))
      with 32 by lia.
    evaluate.
  - rewrite E. rewrite (Errored_false p He), Hv. reflexivity.
Qed.

Lemma Initialize_with_wire_codec (sha256 : list byte -> ID) (vm : VM)
    (genesisData : list byte) (toEngine : bool) :
  llen genesisData <= dataLen ->
  exists vm',
    Initialize sha256 wire_codec vm Database_empty genesisData toEngine
    = (vm', None)
    /\ LastAcceptedID (snowman vm')
       = sha256 (zeros 32 ++ zeros 4
                 ++ (genesisData ++ zeros (32 - length genesisData))
                 ++ zeros 8)
    /\ db_initialized (staged (DB (snowman vm'))) = true.
Proof.
  intros Hlen.
  destruct (Initialize_accepts_genesis sha256 wire_codec vm Database_empty
              genesisData toEngine _ eq_refl Hlen
              (wire_Marshal_genesis genesisData Hlen))
    as (vm' & E & _ & Hl & _ & Hi & _).
  exists vm'. repeat split; assumption.
Qed.

(** ** Further instances *)

(** [Expand] where [bytes + p.Offset] overflows: the sum wraps around to
    a negative number, which is below the length, and [Expand] returns
    without growing the buffer and without an error. *)
Example Expand_wraps_around :
  Expand doubling MaxInt64 one_byte_packer = Ok tt one_byte_packer.
Proof. vm_compute. reflexivity. Qed.

(** A four-byte address goes out in its sixteen-byte form, which is what
    comes back. *)
Example PackIP_v4 :
  exists p,
    PackIP doubling (mkIPDesc [x7f; x00; x00; x01] 80) (writer 18) = Ok tt p
    /\ UnpackIP (reader (Bytes p))
       = Ok (mkIPDesc (v4InV6Prefix ++ [x7f; x00; x00; x01]) 80)
            (set_Offset 18 (reader (Bytes p))).
Proof. eexists. split; [vm_compute; reflexivity|]. vm_compute. reflexivity. Qed.

(** A bool byte that is neither 0 nor 1. *)
Example UnpackBool_two :
  UnpackBool (reader (mkSlice [x02] []))
  = Ok false (mkPacker [errBadBool] 0 (mkSlice [x02] []) 1).
Proof. reflexivity. Qed.

(** An empty byte slice is four zero bytes on the wire. *)
Example PackBytes_empty :
  exists p,
    PackBytes doubling [] (writer 4) = Ok tt p
    /\ vis (Bytes p) = [x00; x00; x00; x00]
    /\ UnpackBytes (reader (Bytes p)) = Ok [] (set_Offset 4 (reader (Bytes p))).
Proof. eexists. split; [vm_compute; reflexivity|]. split; reflexivity. Qed.

(* ================================================================== *)
(** * The typed adapters *)

(** A Go [interface{}] value, by its dynamic type: the types that the
    adapters assert, and [AOther] for a value of any other type (or the
    nil interface). *)
Inductive any : Type :=
| AUint8 (v : byte)
| AUint16 (v : Z)
| AUint32 (v : Z)
| AUint64 (v : Z)
| ABytes (v : list byte)
| AByteSlices (v : list (list byte))
| AString (v : list byte)
| AIPDesc (v : IPDesc)
| AIPDescs (v : list IPDesc)
| AOther.

(** Modelled from the spec: [hashing.HashLen] and [hashing.AddrLen] are
    declared in a package that is not at hand; the spec has a hash as a
    32-byte and an address as a 20-byte sequence. *)
Definition HashLen : Z := 32.
Definition AddrLen : Z := 20.

Section Adapters.

Variable growslice_spare : Z -> Z -> nat.

Definition TryPackByte (valIntf : any) : M unit :=
  match valIntf with
  | AUint8 val => PackByte growslice_spare val
  | _ => modify (Add errBadType)
  end.

Definition TryUnpackByte : M any :=
  v <- UnpackByte ;; ret (AUint8 v).

Definition TryPackShort (valIntf : any) : M unit :=
  match valIntf with
  | AUint16 val => PackShort growslice_spare val
  | _ => modify (Add errBadType)
  end.

Definition TryUnpackShort : M any :=
  v <- UnpackShort ;; ret (AUint16 v).

Definition TryPackInt (valIntf : any) : M unit :=
  match valIntf with
  | AUint32 val => PackInt growslice_spare val
  | _ => modify (Add errBadType)
  end.

Definition TryUnpackInt : M any :=
  v <- UnpackInt ;; ret (AUint32 v).

Definition TryPackLong (valIntf : any) : M unit :=
  match valIntf with
  | AUint64 val => PackLong growslice_spare val
  | _ => modify (Add errBadType)
  end.

Definition TryUnpackLong : M any :=
  v <- UnpackLong ;; ret (AUint64 v).

Definition TryPackHash (valIntf : any) : M unit :=
  match valIntf with
  | ABytes val => PackFixedBytes growslice_spare val
  | _ => modify (Add errBadType)
  end.

Definition TryUnpackHash : M any :=
  v <- UnpackFixedBytes HashLen ;; ret (ABytes v).

Definition TryPackHashes (valIntf : any) : M unit :=
  match valIntf with
  | AByteSlices val => PackFixedByteSlices growslice_spare val
  | _ => modify (Add errBadType)
  end.

Definition TryUnpackHashes : M any :=
  v <- UnpackFixedByteSlices HashLen ;; ret (AByteSlices v).

Definition TryPackAddr (valIntf : any) : M unit :=
  match valIntf with
  | ABytes val => PackFixedBytes growslice_spare val
  | _ => modify (Add errBadType)
  end.

Definition TryUnpackAddr : M any :=
  v <- UnpackFixedBytes AddrLen ;; ret (ABytes v).

Definition TryPackAddrList (valIntf : any) : M unit :=
  match valIntf with
  | AByteSlices val => PackFixedByteSlices growslice_spare val
  | _ => modify (Add errBadType)
  end.

Definition TryUnpackAddrList : M any :=
  v <- UnpackFixedByteSlices AddrLen ;; ret (AByteSlices v).

Definition TryPackBytes (valIntf : any) : M unit :=
  match valIntf with
  | ABytes val => PackBytes growslice_spare val
  | _ => modify (Add errBadType)
  end.

Definition TryUnpackBytes : M any :=
  v <- UnpackBytes ;; ret (ABytes v).

Definition TryPackStr (valIntf : any) : M unit :=
  match valIntf with
  | AString val => PackStr growslice_spare val
  | _ => modify (Add errBadType)
  end.

Definition TryUnpackStr : M any :=
  v <- UnpackStr ;; ret (AString v).

Definition TryPackIP (valIntf : any) : M unit :=
  match valIntf with
  | AIPDesc val => PackIP growslice_spare val
  | _ => modify (Add errBadType)
  end.

Definition TryUnpackIP : M any :=
  v <- UnpackIP ;; ret (AIPDesc v).

Definition TryPackIPList (valIntf : any) : M unit :=
  match valIntf with
  | AIPDescs val => PackIPs growslice_spare val
  | _ => modify (Add errBadType)
  end.

Definition TryUnpackIPList : M any :=
  v <- UnpackIPs ;; ret (AIPDescs v).

(** The twelve pairs as one family. *)
Inductive adapter : Type :=
| TByte | TShort | TInt | TLong | THash | THashes | TAddr | TAddrList
| TBytes | TStr | TIP | TIPList.

Definition try_pack (t : adapter) : any -> M unit :=
  match t with
  | TByte => TryPackByte
  | TShort => TryPackShort
  | TInt => TryPackInt
  | TLong => TryPackLong
  | THash => TryPackHash
  | THashes => TryPackHashes
  | TAddr => TryPackAddr
  | TAddrList => TryPackAddrList
  | TBytes => TryPackBytes
  | TStr => TryPackStr
  | TIP => TryPackIP
  | TIPList => TryPackIPList
  end.

Definition try_unpack (t : adapter) : M any :=
  match t with
  | TByte => TryUnpackByte
  | TShort => TryUnpackShort
  | TInt => TryUnpackInt
  | TLong => TryUnpackLong
  | THash => TryUnpackHash
  | THashes => TryUnpackHashes
  | TAddr => TryUnpackAddr
  | TAddrList => TryUnpackAddrList
  | TBytes => TryUnpackBytes
  | TStr => TryUnpackStr
  | TIP => TryUnpackIP
  | TIPList => TryUnpackIPList
  end.

End Adapters.

(** The dynamic type that the type assertion of each adapter accepts. *)
Definition accepts (t : adapter) (x : any) : bool :=
  match t, x with
  | TByte, AUint8 _ => true
  | TShort, AUint16 _ => true
  | TInt, AUint32 _ => true
  | TLong, AUint64 _ => true
  | (THash | TAddr | TBytes), ABytes _ => true
  | (THashes | TAddrList), AByteSlices _ => true
  | TStr, AString _ => true
  | TIP, AIPDesc _ => true
  | TIPList, AIPDescs _ => true
  | _, _ => false
  end.

(** The Packer operation behind an accepted value, and the operation that
    reads it back. *)
Definition item_of (t : adapter) (x : any) : option item :=
  match t, x with
  | TByte, AUint8 v => Some (IByte v)
  | TShort, AUint16 v => Some (IShort v)
  | TInt, AUint32 v => Some (IInt v)
  | TLong, AUint64 v => Some (ILong v)
  | (THash | TAddr), ABytes v => Some (IFixedBytes v)
  | TBytes, ABytes v => Some (IBytes v)
  | (THashes | TAddrList), AByteSlices v => Some (IFixedByteSlices v)
  | TStr, AString v => Some (IStr v)
  | TIP, AIPDesc v => Some (IIP v)
  | TIPList, AIPDescs v => Some (IIPs v)
  | _, _ => None
  end.

Definition kind_of (t : adapter) : kind :=
  match t with
  | TByte => KByte
  | TShort => KShort
  | TInt => KInt
  | TLong => KLong
  | THash => KFixedBytes HashLen
  | THashes => KFixedByteSlices HashLen
  | TAddr => KFixedBytes AddrLen
  | TAddrList => KFixedByteSlices AddrLen
  | TBytes => KBytes
  | TStr => KStr
  | TIP => KIP
  | TIPList => KIPs
  end.

(** The interface value in which an adapter wraps what it has read. *)
Definition any_of (v : item) : any :=
  match v with
  | IByte b => AUint8 b
  | IBool b => AOther
  | IShort v => AUint16 v
  | IInt v => AUint32 v
  | ILong v => AUint64 v
  | IFixedBytes bs => ABytes bs
  | IBytes bs => ABytes bs
  | IFixedByteSlices bss => AByteSlices bss
  | IStr s => AString s
  | IIP ip => AIPDesc ip
  | IIPs ips => AIPDescs ips
  end.

Lemma try_pack_accepted (g : Z -> Z -> nat) (t : adapter) (x : any)
    (v : item) :
  item_of t x = Some v -> try_pack g t x = pack g v.
Proof.
  destruct t, x; cbn [item_of]; intros H; try discriminate;
    inversion H; reflexivity.
Qed.

Lemma try_unpack_unpack (t : adapter) (p : Packer) :
  try_unpack t p
  = (v <- unpack (kind_of t) ;; ret (any_of v)) p.
Proof.
  destruct t; cbn [try_unpack kind_of unpack]; unfold bind, ret;
    match goal with
    | |- match ?m p with _ => _ end = _ =>
        unfold TryUnpackByte, TryUnpackShort, TryUnpackInt, TryUnpackLong,
          TryUnpackHash, TryUnpackHashes, TryUnpackAddr, TryUnpackAddrList,
          TryUnpackBytes, TryUnpackStr, TryUnpackIP, TryUnpackIPList,
          bind, ret
    | _ => idtac
    end;
    unfold TryUnpackByte, TryUnpackShort, TryUnpackInt, TryUnpackLong,
      TryUnpackHash, TryUnpackHashes, TryUnpackAddr, TryUnpackAddrList,
      TryUnpackBytes, TryUnpackStr, TryUnpackIP, TryUnpackIPList, bind, ret;
    match goal with
    | |- match ?m with _ => _ end = _ => destruct m; reflexivity
    end.
Qed.

(* ================================================================== *)
(** * Further properties of the Packer *)

(** ** Writing in place and reading at an offset *)

(** X1. Packing on a Packer without an error, at any offset within its
    buffer and with room up to the buffer's length or [MaxSize], writes
    the encoding of the value at the offset: the bytes before the offset
    and those behind the encoding stay, the offset moves past the
    encoding, [MaxSize] stays and no error is recorded. *)
Theorem pack_in_place (g : Z -> Z -> nat) (v : item) (p : Packer) :
  match v with IStr s => llen s <= MaxStringLen | _ => True end ->
  Errored p = false ->
  0 <= Offset p <= len (Bytes p) ->
  len (Bytes p) < two63 -> MaxSize p < two63 ->
  Offset p + llen (encode v) <= Z.max (len (Bytes p)) (MaxSize p) ->
  exists p',
    pack g v p = Ok tt p'
    /\ Errored p' = false
    /\ MaxSize p' = MaxSize p
    /\ Offset p' = Offset p + llen (encode v)
    /\ vis (Bytes p')
       = firstn (Z.to_nat (Offset p)) (vis (Bytes p)) ++ encode v
         ++ skipn (Z.to_nat (Offset p) + length (encode v)) (vis (Bytes p)).
Proof.
  intros Hs He Ho Hl Hm Hroom.
  assert (ready p) as Hr.
  { unfold ready. split; [apply Errored_false, He | auto]. }
  destruct (packs_pack g v Hs p Hr) as (p' & E & He' & Hm' & Ho' & Hv').
  { unfold room. auto. }
  exists p'. split; [exact E|]. split.
  { unfold Errored. rewrite He'. reflexivity. }
  split; [exact Hm'|]. split; [exact Ho' | exact Hv'].
Qed.

(** X2. Unpacking on a Packer without an error whose buffer holds the
    encoding of a value of the operation's domain at the offset, whatever
    stands before and behind it, returns that value and moves the offset
    past the encoding; nothing else changes. *)
Theorem unpack_at_offset (k : kind) (v : item) (p : Packer)
    (pre post : list byte) :
  in_domain k v = true ->
  Errored p = false ->
  len (Bytes p) < two63 ->
  vis (Bytes p) = pre ++ encode v ++ post ->
  llen pre = Offset p ->
  unpack k p = Ok v (set_Offset (Offset p + llen (encode v)) p).
Proof.
  intros Hd He Hl Hv Hp.
  apply (unpacks_unpack k v Hd p (Errored_false p He) Hl).
  exists pre, post. split; assumption.
Qed.

(** ** The adapters *)

(** X3. An adapter handed a value whose dynamic type is not the one it
    asserts records [errBadType] and does nothing else, whatever the
    state of the Packer. *)
Theorem try_pack_bad_type (g : Z -> Z -> nat) (t : adapter) (x : any)
    (p : Packer) :
  accepts t x = false ->
  try_pack g t x p = Ok tt (Add errBadType p).
Proof.
  destruct t, x; cbn [accepts]; intros H; try discriminate; reflexivity.
Qed.

Lemma any_of_item_of (t : adapter) (x : any) (v : item) :
  item_of t x = Some v -> any_of v = x.
Proof.
  destruct t, x; cbn [item_of]; intros H; try discriminate;
    inversion H; reflexivity.
Qed.

(** X4. The round trip through an adapter pair: a value of the asserted
    type that lies in the domain of the Packer operation behind the
    adapter (for a hash exactly 32 bytes, for an address exactly 20; the
    packing side does not check these lengths) comes back from the
    unpacking adapter as the same interface value, without an error on
    either side. *)
Theorem try_roundtrip (g : Z -> Z -> nat) (t : adapter) (x : any) (v : item)
    (m : Z) :
  item_of t x = Some v ->
  in_domain (kind_of t) v = true ->
  width v <= m < two63 ->
  exists p q,
    try_pack g t x (writer m) = Ok tt p /\ Errored p = false
    /\ try_unpack t (reader (Bytes p)) = Ok x q /\ Errored q = false
    /\ Offset q = width v.
Proof.
  intros Hi Hd Hm.
  destruct (roundtrip_all g [kind_of t] [v] m) as (p & E & He & _ & _ & U).
  - cbn [all_in_domain]. rewrite Hd. reflexivity.
  - cbn [total_width]. lia.
  - exists p. eexists. split.
    { rewrite (try_pack_accepted g t x v Hi). apply pack_all_single, E. }
    split; [exact He|]. split.
    { rewrite try_unpack_unpack. unfold bind, ret.
      rewrite (unpack_all_single _ _ _ _ U).
      rewrite (any_of_item_of t x v Hi). reflexivity. }
    split; [reflexivity|]. cbn. lia.
Qed.

(** ** All or nothing *)

Lemma Errored_ready (p : Packer) : ready p -> Errored p = false.
Proof. intros (He & _). unfold Errored. rewrite He. reflexivity. Qed.

(** A primitive that finds no room records [errBadLength] and stops. *)
Lemma prim_no_room (g : Z -> Z -> nat) (n : Z) (tail : Packer -> M unit)
    (p : Packer) :
  ready p -> 0 <= n -> Offset p + n < two63 ->
  Z.max (len (Bytes p)) (MaxSize p) < Offset p + n ->
  (Expand g n ;;; q <- get ;; if Errored q then ret tt else tail q) p
  = Ok tt (Add errBadLength p).
Proof.
  intros Hr Hn Hov Hroom. unfold bind at 1.
  rewrite (Expand_ready g n p Hr Hn Hov).
  destruct (Z.leb_spec (Offset p + n) (len (Bytes p))); [lia|].
  destruct (Z.gtb_spec (Offset p + n) (MaxSize p)); [|lia].
  unfold bind, get. rewrite Errored_Add. reflexivity.
Qed.

(** X5. The single-step pack operations are all or nothing: on a Packer
    without an error, either the encoding fits (into the buffer as it is
    or into [MaxSize]) and is written whole, or [errBadLength] is recorded
    and neither [Bytes] nor [Offset] changes. *)
Theorem pack_single_step_all_or_nothing (g : Z -> Z -> nat) (v : item)
    (p : Packer) :
  single_step_item v = true ->
  Errored p = false ->
  0 <= Offset p <= len (Bytes p) ->
  len (Bytes p) < two63 -> MaxSize p < two63 ->
  Offset p + llen (encode v) < two63 ->
  (Offset p + llen (encode v) <= Z.max (len (Bytes p)) (MaxSize p) ->
   exists p', pack g v p = Ok tt p' /\ wrote (encode v) p p')
  /\ (Z.max (len (Bytes p)) (MaxSize p) < Offset p + llen (encode v) ->
      pack g v p = Ok tt (Add errBadLength p)).
Proof.
  intros Hs He Ho Hl Hm Hov.
  assert (ready p) as Hr.
  { unfold ready. split; [apply Errored_false, He | auto]. }
  split.
  - intros Hroom. apply (packs_pack g v); [|exact Hr|unfold room; auto].
    destruct v; try exact I; discriminate Hs.
  - intros Hroom.
    destruct v; cbn [single_step_item] in Hs; try discriminate;
      cbn [pack encode] in *; try (destruct b; unfold PackBool);
      (apply prim_no_room;
       [ exact Hr
       | first [ apply llen_nonneg
               | unfold ByteLen, ShortLen, IntLen, LongLen; lia ]
       | exact Hov
       | exact Hroom ]).
Qed.

(** X6. [PackBytes] is not all or nothing: where the four bytes of the
    length fit and the content does not, the length is written, the
    offset has moved past it, and [errBadLength] is recorded for the
    content. *)
Theorem PackBytes_partial (g : Z -> Z -> nat) (bs : list byte)
    (p : Packer) :
  Errored p = false ->
  0 <= Offset p <= len (Bytes p) ->
  len (Bytes p) < two63 -> MaxSize p < two63 ->
  0 < llen bs ->
  Offset p + 4 <= Z.max (len (Bytes p)) (MaxSize p) ->
  Z.max (len (Bytes p)) (MaxSize p) < Offset p + 4 + llen bs ->
  Offset p + 4 + llen bs < two63 ->
  exists p1,
    PackBytes g bs p = Ok tt (Add errBadLength p1)
    /\ wrote (be32 (uint32 (llen bs))) p p1
    /\ Offset p1 = Offset p + 4.
Proof.
  intros He Ho Hl Hm Hpos Hroom Hno Hov.
  assert (ready p) as Hr.
  { unfold ready. split; [apply Errored_false, He | auto]. }
  destruct (packs_PackInt g (uint32 (llen bs)) p Hr) as (p1 & E & W).
  { unfold room. change (llen (be32 (uint32 (llen bs)))) with 4. auto. }
  pose proof (wrote_len _ _ _ Hr W) as L1.
  change (llen (be32 (uint32 (llen bs)))) with 4 in L1.
  assert (ready p1) as Hr1.
  { apply (wrote_ready _ _ _ Hr) in W; [exact W|].
    change (llen (be32 (uint32 (llen bs)))) with 4. lia. }
  pose proof W as (_ & Hm1 & Ho1 & _).
  change (llen (be32 (uint32 (llen bs)))) with 4 in Ho1.
  exists p1. unfold PackBytes, bind. rewrite E.
  split; [|split; [exact W | exact Ho1]].
  apply (prim_no_room g (llen bs) _ p1 Hr1).
  - lia.
  - lia.
  - rewrite Hm1, Ho1, L1. lia.
Qed.

(* ================================================================== *)
(** ** Decoding *)

Lemma byte_testbit_out (b : byte) (i : Z) :
  i < 0 \/ 8 <= i -> Z.testbit (Z_of_byte b) i = false.
Proof.
  intros [H|H].
  - apply Z.testbit_neg_r. exact H.
  - apply (testbit_high _ 8); [apply Z_of_byte_range | lia].
Qed.

Lemma byte_of_Z_eq (z : Z) (b : byte) :
  z mod 2 ^ 8 = Z_of_byte b -> byte_of_Z z = b.
Proof.
  intros H. rewrite <- (byte_of_Z_of_byte b), <- H.
  unfold byte_of_Z. change (2 ^ 8) with 256. rewrite Z.mod_mod by lia.
  reflexivity.
Qed.

(** The bits of a [lor] of bytes, each shifted to its place: at index
    [i] only the byte whose place holds [i] counts. *)
Ltac pick_byte n :=
  repeat rewrite Z.lor_spec;
  repeat rewrite Z.shiftl_spec by lia;
  repeat match goal with
         | |- context [Z.testbit (Z_of_byte ?b) ?i] =>
             lazymatch i with
             | n => fail
             | _ => first [ replace i with n by lia
                          | rewrite (byte_testbit_out b i) by lia ]
             end
         end;
  cbn [orb]; repeat rewrite orb_false_r.

Ltac byte_of_lor :=
  let n := fresh "n" in let Hn := fresh "Hn" in
  apply byte_of_Z_eq; apply Z.bits_inj'; intros n Hn;
  destruct (Z.ltb_spec n 8);
  [ rewrite Z.mod_pow2_bits_low by lia;
    try rewrite Z.shiftr_spec by lia;
    pick_byte n; reflexivity
  | rewrite Z.mod_pow2_bits_high by lia;
    symmetry; apply byte_testbit_out; lia ].

Ltac lor_below w :=
  let n := fresh "n" in let Hn := fresh "Hn" in
  match goal with
  | |- 0 <= ?v < _ =>
      assert (v mod 2 ^ w = v) as <-;
      [ apply Z.bits_inj'; intros n Hn;
        destruct (Z.ltb_spec n w);
        [ apply Z.mod_pow2_bits_low; lia
        | rewrite Z.mod_pow2_bits_high by lia;
          symmetry; pick_byte n;
          try reflexivity; apply byte_testbit_out; lia ]
      | apply Z.mod_pos_bound; lia ]
  end.

(** Every two, four and eight bytes are the big-endian encoding of the
    number they decode to, and that number is within the width. *)
Lemma Uint16_inv (b0 b1 : byte) (tl : list byte) :
  exists v, BigEndian.Uint16 (b0 :: b1 :: tl) = Some v
            /\ 0 <= v < two16 /\ be16 v = [b0; b1].
Proof.
  eexists. split; [reflexivity|]. split.
  - unfold two16. change 65536 with (2 ^ 16). lor_below 16.
  - unfold be16. repeat (f_equal; try byte_of_lor).
Qed.

Lemma Uint32_inv (b0 b1 b2 b3 : byte) (tl : list byte) :
  exists v, BigEndian.Uint32 (b0 :: b1 :: b2 :: b3 :: tl) = Some v
            /\ 0 <= v < two32 /\ be32 v = [b0; b1; b2; b3].
Proof.
  eexists. split; [reflexivity|]. split.
  - unfold two32. change 4294967296 with (2 ^ 32). lor_below 32.
  - unfold be32. repeat (f_equal; try byte_of_lor).
Qed.

Lemma Uint64_inv (b0 b1 b2 b3 b4 b5 b6 b7 : byte) (tl : list byte) :
  exists v,
    BigEndian.Uint64 (b0 :: b1 :: b2 :: b3 :: b4 :: b5 :: b6 :: b7 :: tl)
    = Some v
    /\ 0 <= v < two64 /\ be64 v = [b0; b1; b2; b3; b4; b5; b6; b7].
Proof.
  eexists. split; [reflexivity|]. split.
  - unfold two64. change 18446744073709551616 with (2 ^ 64). lor_below 64.
  - unfold be64. repeat (f_equal; try byte_of_lor).
Qed.

(** The error that [CheckSpace n] records, if any: the first case of its
    switch that holds. *)
Definition CheckSpace_error (n : Z) (p : Packer) : option error :=
  if Offset p <? 0 then Some errNegativeOffset
  else if n <? 0 then Some errInvalidInput
  else if len (Bytes p) - Offset p <? n then Some errBadLength
  else None.

Lemma CheckSpace_typed (n : Z) (p : Packer) :
  well_typed p ->
  CheckSpace n p
  = Ok tt match CheckSpace_error n p with
          | Some e => Add e p
          | None => p
          end.
Proof.
  intros (Ho & Hl). unfold CheckSpace, CheckSpace_error, bind, get, modify, ret.
  pose proof (llen_nonneg (vis (Bytes p))) as Hnn. fold (len (Bytes p)) in Hnn.
  destruct (Z.ltb_spec (Offset p) 0); [reflexivity|].
  destruct (n <? 0); [reflexivity|].
  rewrite wrap64_small by (unfold two63 in *; lia).
  destruct (len (Bytes p) - Offset p <? n); reflexivity.
Qed.

Lemma CheckSpace_error_None (n : Z) (p : Packer) :
  CheckSpace_error n p = None ->
  0 <= Offset p /\ 0 <= n /\ Offset p + n <= len (Bytes p).
Proof.
  unfold CheckSpace_error.
  destruct (Z.ltb_spec (Offset p) 0); [discriminate|].
  destruct (Z.ltb_spec n 0); [discriminate|].
  destruct (Z.ltb_spec (len (Bytes p) - Offset p) n); [discriminate|].
  intros _. lia.
Qed.

(** [reads_as m n z enc dom]: on a Packer without an error, [m] either
    finds the error of [CheckSpace n], records it and returns [z], or
    returns a value of [dom] whose encoding [enc], [n] bytes long, is what
    stands at the offset, and moves the offset past it. *)
Definition reads_as {A : Type} (m : M A) (n : Z) (z : A)
    (enc : A -> list byte) (dom : A -> Prop) : Prop :=
  forall p, Errs_ p = [] -> well_typed p ->
    match CheckSpace_error n p with
    | Some e => m p = Ok z (Add e p)
    | None =>
        exists v, m p = Ok v (set_Offset (Offset p + n) p)
                  /\ holds p (enc v) /\ llen (enc v) = n /\ dom v
    end.

Lemma reads_prim {A : Type} (n : Z) (z : A) (tail : Packer -> M A)
    (enc : A -> list byte) (dom : A -> Prop) :
  (forall p, well_typed p -> 0 <= Offset p -> 0 <= n ->
             Offset p + n <= len (Bytes p) ->
             exists v, tail p p = Ok v (set_Offset (Offset p + n) p)
                       /\ holds p (enc v) /\ llen (enc v) = n /\ dom v) ->
  reads_as (CheckSpace n ;;; p <- get ;; if Errored p then ret z else tail p)
           n z enc dom.
Proof.
  intros Ht p He Hw. pose proof (CheckSpace_typed n p Hw) as Ec'.
  destruct (CheckSpace_error n p) as [e|] eqn:Ec.
  - unfold bind, get. rewrite Ec', Errored_Add. reflexivity.
  - unfold bind, get. rewrite Ec'. unfold Errored. rewrite He.
    destruct (CheckSpace_error_None n p Ec) as (H1 & H2 & H3).
    apply Ht; assumption.
Qed.

(** The bytes at the offset, split off the rest of the buffer. *)
Lemma at_offset (n : nat) (p : Packer) :
  0 <= Offset p -> Offset p + Z.of_nat n <= len (Bytes p) ->
  exists h rest,
    skipn (Z.to_nat (Offset p)) (vis (Bytes p)) = h ++ rest
    /\ length h = n /\ holds p h.
Proof.
  intros Ho Hl. unfold len, llen in Hl.
  destruct (skipn_length_ge n (skipn (Z.to_nat (Offset p)) (vis (Bytes p))))
    as (h & Eh & Lh).
  { rewrite length_skipn. lia. }
  exists h, (skipn n (skipn (Z.to_nat (Offset p)) (vis (Bytes p)))).
  split; [exact Eh|]. split; [exact Lh|].
  exists (firstn (Z.to_nat (Offset p)) (vis (Bytes p))),
         (skipn n (skipn (Z.to_nat (Offset p)) (vis (Bytes p)))).
  split.
  - rewrite <- Eh. symmetry. apply firstn_skipn.
  - unfold llen. rewrite firstn_length_le by lia. lia.
Qed.

Lemma reads_UnpackByte : reads_as UnpackByte 1 x00 (fun b => [b]) (fun _ => True).
Proof.
  apply reads_prim. intros p (Hw1 & Hw2) Ho _ Hl.
  destruct (at_offset 1 p Ho Hl) as (h & rest & Eh & Lh & Hh).
  destruct h as [|b [|? ?]]; try discriminate Lh.
  exists b. unfold bind, checked, index, modify, ret.
  destruct (Z.leb_spec 0 (Offset p)); [|lia].
  destruct (Z.ltb_spec (Offset p) (len (Bytes p))); [|lia].
  cbn [andb].
  rewrite <- (Nat.add_0_r (Z.to_nat (Offset p))), <- nth_error_skipn, Eh.
  cbn [app nth_error].
  rewrite wrap64_small by (unfold two63 in *; lia).
  repeat split. exact Hh.
Qed.

Lemma reads_UnpackShort :
  reads_as UnpackShort 2 0 be16 (fun v => 0 <= v < two16).
Proof.
  apply reads_prim. intros p (Hw1 & Hw2) Ho _ Hl.
  destruct (at_offset 2 p Ho Hl) as (h & rest & Eh & Lh & Hh).
  destruct h as [|b0 [|b1 [|? ?]]]; try discriminate Lh.
  destruct (Uint16_inv b0 b1 rest) as (v & Ev & Hv & Hb).
  exists v. unfold bind, checked, modify, ret, ShortLen.
  rewrite slice_from_ok by lia. rewrite Eh. cbn [app]. rewrite Ev.
  rewrite wrap64_small by (unfold two63 in *; lia).
  rewrite Hb. repeat split; try apply Hv. exact Hh.
Qed.

Lemma reads_UnpackInt :
  reads_as UnpackInt 4 0 be32 (fun v => 0 <= v < two32).
Proof.
  apply reads_prim. intros p (Hw1 & Hw2) Ho _ Hl.
  destruct (at_offset 4 p Ho Hl) as (h & rest & Eh & Lh & Hh).
  destruct h as [|b0 [|b1 [|b2 [|b3 [|? ?]]]]]; try discriminate Lh.
  destruct (Uint32_inv b0 b1 b2 b3 rest) as (v & Ev & Hv & Hb).
  exists v. unfold bind, checked, modify, ret, IntLen.
  rewrite slice_from_ok by lia. rewrite Eh. cbn [app]. rewrite Ev.
  rewrite wrap64_small by (unfold two63 in *; lia).
  rewrite Hb. repeat split; try apply Hv. exact Hh.
Qed.

Lemma reads_UnpackLong :
  reads_as UnpackLong 8 0 be64 (fun v => 0 <= v < two64).
Proof.
  apply reads_prim. intros p (Hw1 & Hw2) Ho _ Hl.
  destruct (at_offset 8 p Ho Hl) as (h & rest & Eh & Lh & Hh).
  destruct h as [|b0 [|b1 [|b2 [|b3 [|b4 [|b5 [|b6 [|b7 [|? ?]]]]]]]]];
    try discriminate Lh.
  destruct (Uint64_inv b0 b1 b2 b3 b4 b5 b6 b7 rest) as (v & Ev & Hv & Hb).
  exists v. unfold bind, checked, modify, ret, LongLen.
  rewrite slice_from_ok by lia. rewrite Eh. cbn [app]. rewrite Ev.
  rewrite wrap64_small by (unfold two63 in *; lia).
  rewrite Hb. repeat split; try apply Hv. exact Hh.
Qed.

Lemma reads_UnpackFixedBytes (size : Z) :
  reads_as (UnpackFixedBytes size) size [] (fun bs => bs) (fun _ => True).
Proof.
  apply reads_prim. intros p (Hw1 & Hw2) Ho Hs Hl.
  pose proof (llen_nonneg (spare (Bytes p))).
  assert (Offset p + Z.of_nat (Z.to_nat size) <= len (Bytes p)) as Hl' by lia.
  destruct (at_offset (Z.to_nat size) p Ho Hl')
    as (h & rest & Eh & Lh & Hh).
  exists h. unfold bind, checked, slice_range, modify, ret, cap.
  fold (len (Bytes p)).
  rewrite wrap64_small by (unfold two63 in *; lia).
  destruct (Z.leb_spec 0 (Offset p)); [|lia].
  destruct (Z.leb_spec (Offset p) (Offset p + size)); [|lia].
  destruct (Z.leb_spec (Offset p + size)
              (len (Bytes p) + llen (spare (Bytes p)))); [|lia].
  cbn [andb]. unfold len, llen in Hl.
  rewrite skipn_app, Eh.
  replace (Z.to_nat (Offset p + size - Offset p)) with (length h) by lia.
  rewrite <- app_assoc, firstn_app, firstn_all, Nat.sub_diag, firstn_O,
    app_nil_r.
  rewrite wrap64_small by (unfold two63 in *; lia).
  repeat split; [exact Hh | unfold llen; lia].
Qed.

Lemma reads_map {A B : Type} (m : M A) (f : A -> B) (n : Z) (z : A)
    (enc : A -> list byte) (dom : A -> Prop) (enc' : B -> list byte)
    (dom' : B -> Prop) :
  reads_as m n z enc dom ->
  (forall x, dom x -> enc' (f x) = enc x /\ dom' (f x)) ->
  reads_as (x <- m ;; ret (f x)) n (f z) enc' dom'.
Proof.
  intros Hm Hf p He Hw. specialize (Hm p He Hw).
  destruct (CheckSpace_error n p) as [e|].
  - unfold bind, ret. rewrite Hm. reflexivity.
  - destruct Hm as (v & E & Hh & Hl & Hd).
    destruct (Hf v Hd) as (He' & Hd').
    exists (f v). unfold bind, ret. rewrite E, He'. auto.
Qed.

(** The number of bytes a single-step unpack operation asks for. *)
Definition step_width (k : kind) : Z :=
  match k with
  | KByte => 1
  | KShort => 2
  | KInt => 4
  | KLong => 8
  | KFixedBytes size => size
  | _ => 0
  end.

(** X7. A single-step unpack operation on a Packer without an error
    either fails in [CheckSpace], recording [errNegativeOffset] for a
    negative offset, else [errInvalidInput] for a negative size, else
    [errBadLength] when fewer bytes remain than it asks for, and then
    returns the zero value and changes nothing else; or it succeeds: it
    returns a value of its domain whose encoding is exactly what stood at
    the offset, and only the offset moves, by the width it asked for. *)
Theorem unpack_single_step (k : kind) (p : Packer) :
  single_step_kind k = true ->
  Errored p = false -> well_typed p ->
  match CheckSpace_error (step_width k) p with
  | Some e => unpack k p = Ok (zero k) (Add e p)
  | None =>
      exists v, unpack k p = Ok v (set_Offset (Offset p + step_width k) p)
                /\ holds p (encode v) /\ in_domain k v = true
  end.
Proof.
  intros Hs He Hw. apply Errored_false in He.
  assert (reads_as (unpack k) (step_width k) (zero k) encode
            (fun v => in_domain k v = true /\ llen (encode v) = step_width k))
    as H.
  { destruct k; cbn [single_step_kind] in Hs; try discriminate;
      cbn [unpack step_width zero].
    - eapply reads_map; [apply reads_UnpackByte|].
      intros x _. repeat split.
    - eapply reads_map; [apply reads_UnpackShort|].
      intros x Hx. cbv beta in Hx. cbn [encode in_domain]. repeat split.
      apply andb_true_intro. split; [apply Z.leb_le | apply Z.ltb_lt]; lia.
    - eapply reads_map; [apply reads_UnpackInt|].
      intros x Hx. cbv beta in Hx. cbn [encode in_domain]. repeat split.
      apply andb_true_intro. split; [apply Z.leb_le | apply Z.ltb_lt]; lia.
    - eapply reads_map; [apply reads_UnpackLong|].
      intros x Hx. cbv beta in Hx. cbn [encode in_domain]. repeat split.
      apply andb_true_intro. split; [apply Z.leb_le | apply Z.ltb_lt]; lia.
    - intros q Hq Hwq.
      pose proof (reads_UnpackFixedBytes size q Hq Hwq) as Hr.
      destruct (CheckSpace_error size q) as [e|].
      + unfold bind, ret. rewrite Hr. reflexivity.
      + destruct Hr as (v & E & Hh & Hl & _).
        exists (IFixedBytes v). unfold bind, ret. rewrite E.
        cbn [encode in_domain]. repeat split; try assumption.
        apply Z.eqb_eq. exact Hl. }
  specialize (H p He Hw).
  destruct (CheckSpace_error (step_width k) p); [exact H|].
  destruct H as (v & E & Hh & _ & Hd & _). exists v. auto.
Qed.

(** X8. [UnpackBool] on a Packer without an error: if no byte remains it
    records the error of [CheckSpace] and returns false with the offset
    unchanged; otherwise it consumes the byte at the offset, returns true
    exactly for 01, and records [errBadBool] unless the byte is 00 or
    01. *)
Theorem UnpackBool_spec (p : Packer) :
  Errored p = false -> well_typed p ->
  match CheckSpace_error 1 p with
  | Some e => UnpackBool p = Ok false (Add e p)
  | None =>
      exists b,
        holds p [b]
        /\ UnpackBool p
           = Ok (Byte.eqb b x01)
                (if Byte.eqb b x00 || Byte.eqb b x01
                 then set_Offset (Offset p + 1) p
                 else Add errBadBool (set_Offset (Offset p + 1) p))
  end.
Proof.
  intros He Hw. apply Errored_false in He.
  pose proof (reads_UnpackByte p He Hw) as H.
  destruct (CheckSpace_error 1 p) as [e|].
  - unfold UnpackBool, bind. rewrite H. reflexivity.
  - destruct H as (b & E & Hh & _). exists b. split; [exact Hh|].
    unfold UnpackBool, bind. rewrite E. destruct b; reflexivity.
Qed.

(* ------------------------------------------------------------------ *)
(** *** What a successful unpack has read *)

(** [decodes m enc dom]: on a ready Packer [m] returns, and if no error
    is recorded it has returned a value of [dom] whose encoding [enc] is
    exactly what stood at the offset, and has moved the offset past it
    and changed nothing else. *)
Definition decodes {A : Type} (m : M A) (enc : A -> list byte)
    (dom : A -> Prop) : Prop :=
  forall p, ready p ->
    exists v p',
      m p = Ok v p'
      /\ (Errored p' = false ->
          p' = set_Offset (Offset p + llen (enc v)) p
          /\ holds p (enc v) /\ dom v).

Lemma ready_well_typed (p : Packer) : ready p -> well_typed p.
Proof.
  intros (_ & Ho & Hl). unfold well_typed. unfold two63 in *. lia.
Qed.

Lemma decodes_reads {A : Type} (m : M A) (n : Z) (z : A)
    (enc : A -> list byte) (dom : A -> Prop) :
  reads_as m n z enc dom ->
  decodes m enc (fun v => dom v /\ llen (enc v) = n).
Proof.
  intros Hm p Hr. pose proof Hr as (He & _).
  specialize (Hm p He (ready_well_typed p Hr)).
  destruct (CheckSpace_error n p) as [e|].
  - eexists _, _. split; [exact Hm|]. rewrite Errored_Add. discriminate.
  - destruct Hm as (v & E & Hh & Hl & Hd).
    exists v. eexists. split; [exact E|]. intros _. rewrite Hl. auto.
Qed.

Lemma holds_nil (p : Packer) : ready p -> holds p [].
Proof.
  intros (_ & Ho & _). unfold len, llen in Ho.
  exists (firstn (Z.to_nat (Offset p)) (vis (Bytes p))),
         (skipn (Z.to_nat (Offset p)) (vis (Bytes p))).
  split.
  - symmetry. apply firstn_skipn.
  - unfold llen. rewrite firstn_length_le by lia. lia.
Qed.

Lemma set_Offset_same (p : Packer) : set_Offset (Offset p + 0) p = p.
Proof. destruct p. cbn. rewrite Z.add_0_r. reflexivity. Qed.

Lemma decodes_ret {A : Type} (a : A) (enc : A -> list byte)
    (dom : A -> Prop) :
  enc a = [] -> dom a -> decodes (ret a) enc dom.
Proof.
  intros He Hd p Hr. exists a, p. split; [reflexivity|]. intros _.
  rewrite He. split; [symmetry; apply set_Offset_same|].
  split; [apply holds_nil, Hr | exact Hd].
Qed.

Lemma app_eq_length {A : Type} (a b x y : list A) :
  length a = length b -> a ++ x = b ++ y -> a = b /\ x = y.
Proof.
  revert b. induction a as [|h a IH]; intros [|k b] Hl H;
    try discriminate Hl.
  - split; [reflexivity | exact H].
  - cbn in H. inversion H; subst. cbn in Hl.
    destruct (IH b) as [-> ->]; auto.
Qed.

Lemma holds_app (p : Packer) (a b : list byte) :
  holds p a -> holds (set_Offset (Offset p + llen a) p) b ->
  holds p (a ++ b).
Proof.
  intros (pre1 & post1 & H1 & L1) (pre2 & post2 & H2 & L2).
  cbn [set_Offset Bytes Offset] in H2, L2.
  assert (pre1 ++ a = pre2 /\ post1 = b ++ post2) as [E1 E2].
  { apply app_eq_length.
    - unfold llen in *. rewrite length_app. lia.
    - rewrite <- app_assoc, <- H1. exact H2. }
  exists pre1, post2. split; [|exact L1].
  rewrite H1, E2, <- app_assoc. reflexivity.
Qed.

Lemma holds_bound (p : Packer) (a : list byte) :
  holds p a -> 0 <= Offset p /\ Offset p + llen a <= len (Bytes p).
Proof.
  intros (pre & post & H & L). unfold len. rewrite H, !llen_app.
  pose proof (llen_nonneg pre). pose proof (llen_nonneg post). lia.
Qed.

Lemma decodes_bind {A B : Type} (m : M A) (f : A -> M B)
    (e1 : A -> list byte) (d1 : A -> Prop)
    (e2 : A -> B -> list byte) (d2 : A -> B -> Prop)
    (enc : B -> list byte) (dom : B -> Prop) :
  decodes m e1 d1 ->
  (forall x, d1 x -> decodes (f x) (e2 x) (d2 x)) ->
  (forall x, exists z, frozen (f x) z) ->
  (forall x y, d1 x -> d2 x y -> enc y = e1 x ++ e2 x y /\ dom y) ->
  decodes (bind m f) enc dom.
Proof.
  intros Hm Hf Hz Hc p Hr.
  destruct (Hm p Hr) as (x & p1 & E1 & H1).
  unfold bind. rewrite E1.
  destruct (Errored p1) eqn:Ee.
  - destruct (Hz x) as (z & Hfz). destruct (Hfz p1 Ee) as (l & E2).
    eexists _, _. split; [exact E2|].
    rewrite (Errored_more p1 l Ee). discriminate.
  - destruct (H1 eq_refl) as (-> & Hh & Hd).
    pose proof (holds_bound p _ Hh) as Hb.
    pose proof Hr as (He & Ho & Hl).
    assert (ready (set_Offset (Offset p + llen (e1 x)) p)) as Hr1.
    { unfold ready. cbn. pose proof (llen_nonneg (e1 x)).
      repeat split; try assumption; lia. }
    destruct (Hf x Hd _ Hr1) as (y & p2 & E2 & H2).
    exists y, p2. split; [exact E2|]. intros Hy.
    destruct (H2 Hy) as (-> & Hh2 & Hd2).
    destruct (Hc x y Hd Hd2) as (-> & Hdom).
    split; [|split; [apply holds_app; assumption | exact Hdom]].
    cbn. rewrite llen_app, Z.add_assoc. reflexivity.
Qed.

Lemma decodes_map {A B : Type} (m : M A) (f : A -> B)
    (enc : A -> list byte) (dom : A -> Prop) (enc' : B -> list byte)
    (dom' : B -> Prop) :
  decodes m enc dom ->
  (forall x, dom x -> enc' (f x) = enc x /\ dom' (f x)) ->
  decodes (x <- m ;; ret (f x)) enc' dom'.
Proof.
  intros Hm Hf p Hr.
  destruct (Hm p Hr) as (x & p1 & E1 & H1).
  exists (f x), p1. unfold bind, ret. rewrite E1. split; [reflexivity|].
  intros He. destruct (H1 He) as (-> & Hh & Hd).
  destruct (Hf x Hd) as (-> & Hd'). auto.
Qed.

Lemma decodes_guard {A : Type} (z : A) (m : M A) (enc : A -> list byte)
    (dom : A -> Prop) :
  decodes m enc dom ->
  decodes (p <- get ;; if Errored p then ret z else m) enc dom.
Proof.
  intros Hm p Hr. unfold bind, get. rewrite (Errored_ready p Hr).
  apply Hm, Hr.
Qed.

Lemma decodes_UnpackBool :
  decodes UnpackBool (fun b : bool => [if b then x01 else x00])
          (fun _ => True).
Proof.
  intros p Hr. pose proof Hr as (He & _).
  pose proof (reads_UnpackByte p He (ready_well_typed p Hr)) as H.
  destruct (CheckSpace_error 1 p) as [e|].
  - unfold UnpackBool, bind. rewrite H. eexists _, _.
    split; [reflexivity|]. rewrite Errored_Add. discriminate.
  - destruct H as (b & E & Hh & _).
    unfold UnpackBool, bind. rewrite E.
    destruct b;
      (eexists _, _; split; [reflexivity|]);
      first [ rewrite Errored_Add; discriminate
            | intros _; repeat split; exact Hh ].
Qed.

Lemma decodes_UnpackFixedBytes (size : Z) :
  decodes (UnpackFixedBytes size) (fun bs => bs) (fun bs => llen bs = size).
Proof.
  intros p Hr.
  destruct (decodes_reads _ _ _ _ _ (reads_UnpackFixedBytes size) p Hr)
    as (v & p' & E & H).
  exists v, p'. split; [exact E|]. intros He.
  destruct (H He) as (Hp & Hh & _ & Hl). auto.
Qed.

Lemma decodes_UnpackBytes :
  decodes UnpackBytes (fun bs => be32 (uint32 (llen bs)) ++ bs)
          (fun bs => llen bs < two32).
Proof.
  unfold UnpackBytes.
  eapply decodes_bind with (d2 := fun size bs => llen bs = size).
  - apply (decodes_reads _ _ _ _ _ reads_UnpackInt).
  - intros size (Hs & _). rewrite wrap64_small
      by (unfold two32, two63 in *; lia).
    apply decodes_UnpackFixedBytes.
  - intros size. eexists. apply frozen_UnpackFixedBytes.
  - intros size bs (Hs & _) Hl. cbv beta. subst size.
    unfold uint32. rewrite Z.mod_small by lia. split; [reflexivity | lia].
Qed.

Lemma decodes_UnpackStr :
  decodes UnpackStr (fun s => be16 (uint16 (llen s)) ++ s)
          (fun s => llen s <= MaxStringLen).
Proof.
  unfold UnpackStr.
  eapply decodes_bind with (d2 := fun size bs => llen bs = size).
  - apply (decodes_reads _ _ _ _ _ reads_UnpackShort).
  - intros size (Hs & _). rewrite wrap64_small
      by (unfold two16, two63 in *; lia).
    apply decodes_UnpackFixedBytes.
  - intros size. eexists. apply frozen_UnpackFixedBytes.
  - intros size bs (Hs & _) Hl. cbv beta. subst size.
    unfold uint16. rewrite Z.mod_small by lia.
    split; [reflexivity | unfold MaxStringLen, two16 in *; lia].
Qed.

Lemma decodes_UnpackIP :
  decodes UnpackIP encode_ip (fun ip => ip_ok ip = true).
Proof.
  unfold UnpackIP.
  eapply decodes_bind
    with (d2 := fun ip d => IP d = ip /\ 0 <= Port d < two16)
         (e2 := fun _ d => be16 (Port d)).
  - apply (decodes_UnpackFixedBytes 16).
  - intros ip Hip. eapply decodes_map.
    + apply (decodes_reads _ _ _ _ _ reads_UnpackShort).
    + intros port (Hp & _). cbn. auto.
  - intros ip. eexists.
    eapply frozen_bind; [apply frozen_UnpackShort | apply frozen_ret].
  - intros ip d Hip (Hd & Hp). subst ip. cbv beta in Hip.
    unfold encode_ip. rewrite To16_16 by exact Hip.
    split; [reflexivity|]. unfold ip_ok. rewrite Hip.
    apply andb_true_intro. split; [apply andb_true_intro; split|].
    + reflexivity.
    + apply Z.leb_le. lia.
    + apply Z.ltb_lt. lia.
Qed.

Lemma frozen_UnpackFixedByteSlices_loop (n : nat) (size : Z)
    (acc : list (list byte)) :
  frozen (UnpackFixedByteSlices_loop n size acc) acc.
Proof.
  destruct n; cbn; [apply frozen_ret|].
  intros p H. unfold bind, get. rewrite H. apply frozen_ret. exact H.
Qed.

Lemma frozen_UnpackIPs_loop (n : nat) (acc : list IPDesc) :
  frozen (UnpackIPs_loop n acc) acc.
Proof.
  destruct n; cbn; [apply frozen_ret|].
  intros p H. unfold bind, get. rewrite H. apply frozen_ret. exact H.
Qed.

(** A list that starts with [acc ++ [b]]: what stands behind [acc]. *)
Lemma behind_acc {A : Type} (acc : list A) (b : A) (r : list A) (n : nat) :
  firstn (length (acc ++ [b])) r = acc ++ [b] ->
  length r = (length (acc ++ [b]) + n)%nat ->
  skipn (length acc) r = b :: skipn (length (acc ++ [b])) r
  /\ firstn (length acc) r = acc
  /\ length r = (length acc + S n)%nat.
Proof.
  intros Hf Hl.
  rewrite <- (firstn_skipn (length (acc ++ [b])) r) at 1 3.
  rewrite Hf. rewrite <- app_assoc.
  rewrite skipn_app, skipn_all, Nat.sub_diag.
  rewrite firstn_app, firstn_all, Nat.sub_diag, firstn_O, app_nil_r.
  rewrite length_app in Hl. cbn in Hl.
  repeat split. lia.
Qed.

Lemma decodes_UnpackFixedByteSlices_loop (n : nat) (size : Z)
    (acc : list (list byte)) :
  decodes (UnpackFixedByteSlices_loop n size acc)
    (fun r => concat (skipn (length acc) r))
    (fun r => firstn (length acc) r = acc
              /\ length r = (length acc + n)%nat
              /\ forallb (fun bs => llen bs =? size) (skipn (length acc) r)
                 = true).
Proof.
  revert acc. induction n as [|n IH]; intros acc.
  - apply decodes_ret.
    + rewrite skipn_all. reflexivity.
    + rewrite firstn_all, skipn_all, Nat.add_0_r. auto.
  - cbn [UnpackFixedByteSlices_loop]. apply decodes_guard.
    eapply decodes_bind.
    + apply (decodes_UnpackFixedBytes size).
    + intros b Hb. apply (IH (acc ++ [b])).
    + intros b. eexists. apply frozen_UnpackFixedByteSlices_loop.
    + intros b r Hb (Hf & Hl & Ha). cbv beta in *.
      destruct (behind_acc acc b r n Hf Hl) as (Hs & Hf' & Hl').
      rewrite Hs. cbn [concat forallb]. rewrite Ha.
      repeat split; try assumption.
      rewrite andb_true_r. apply Z.eqb_eq. exact Hb.
Qed.

Lemma decodes_UnpackIPs_loop (n : nat) (acc : list IPDesc) :
  decodes (UnpackIPs_loop n acc)
    (fun r => flat_map encode_ip (skipn (length acc) r))
    (fun r => firstn (length acc) r = acc
              /\ length r = (length acc + n)%nat
              /\ forallb ip_ok (skipn (length acc) r) = true).
Proof.
  revert acc. induction n as [|n IH]; intros acc.
  - apply decodes_ret.
    + rewrite skipn_all. reflexivity.
    + rewrite firstn_all, skipn_all, Nat.add_0_r. auto.
  - cbn [UnpackIPs_loop]. apply decodes_guard.
    eapply decodes_bind.
    + apply decodes_UnpackIP.
    + intros b Hb. apply (IH (acc ++ [b])).
    + intros b. eexists. apply frozen_UnpackIPs_loop.
    + intros b r Hb (Hf & Hl & Ha). cbv beta in *.
      destruct (behind_acc acc b r n Hf Hl) as (Hs & Hf' & Hl').
      rewrite Hs. cbn [flat_map forallb]. rewrite Ha, Hb.
      repeat split; assumption.
Qed.

Lemma decodes_unpack (k : kind) :
  decodes (unpack k) encode (fun v => in_domain k v = true).
Proof.
  destruct k; cbn [unpack].
  - eapply decodes_map;
      [apply (decodes_reads _ _ _ _ _ reads_UnpackByte)|].
    intros x _. split; reflexivity.
  - eapply decodes_map; [apply decodes_UnpackBool|].
    intros x _. split; reflexivity.
  - eapply decodes_map;
      [apply (decodes_reads _ _ _ _ _ reads_UnpackShort)|].
    intros x (Hx & _). cbn [encode in_domain]. split; [reflexivity|].
    apply andb_true_intro. split; [apply Z.leb_le | apply Z.ltb_lt]; lia.
  - eapply decodes_map;
      [apply (decodes_reads _ _ _ _ _ reads_UnpackInt)|].
    intros x (Hx & _). cbn [encode in_domain]. split; [reflexivity|].
    apply andb_true_intro. split; [apply Z.leb_le | apply Z.ltb_lt]; lia.
  - eapply decodes_map;
      [apply (decodes_reads _ _ _ _ _ reads_UnpackLong)|].
    intros x (Hx & _). cbn [encode in_domain]. split; [reflexivity|].
    apply andb_true_intro. split; [apply Z.leb_le | apply Z.ltb_lt]; lia.
  - eapply decodes_map; [apply (decodes_UnpackFixedBytes size)|].
    intros x Hx. cbn [encode in_domain]. split; [reflexivity|].
    apply Z.eqb_eq. exact Hx.
  - eapply decodes_map; [apply decodes_UnpackBytes|].
    intros x Hx. cbn [encode in_domain]. split; [reflexivity|].
    apply Z.ltb_lt. exact Hx.
  - eapply decodes_map
      with (enc := fun r => be32 (uint32 (llen r)) ++ concat r)
           (dom := fun r => in_domain (KFixedByteSlices size)
                              (IFixedByteSlices r) = true).
    + unfold UnpackFixedByteSlices.
      eapply decodes_bind
        with (d2 := fun n r =>
                      length r = Z.to_nat n
                      /\ forallb (fun bs => llen bs =? size) r = true)
             (e2 := fun _ r => concat r).
      * apply (decodes_reads _ _ _ _ _ reads_UnpackInt).
      * intros n (Hn & _). intros p Hr.
        destruct (decodes_UnpackFixedByteSlices_loop (Z.to_nat n) size []
                    p Hr) as (r & p' & E & H).
        exists r, p'. split; [exact E|]. intros He.
        destruct (H He) as (Hp & Hh & _ & Hl & Ha). cbn in *. auto.
      * intros n. eexists. apply frozen_UnpackFixedByteSlices_loop.
      * intros n r (Hn & _) (Hl & Ha). cbv beta.
        assert (llen r = n) as Hr by (unfold llen; lia).
        rewrite Hr. unfold uint32. rewrite Z.mod_small by lia.
        split; [reflexivity|]. cbn [in_domain]. rewrite Hr, Ha.
        apply andb_true_intro. split; [apply Z.ltb_lt; lia | reflexivity].
    + intros x Hx. split; [reflexivity | exact Hx].
  - eapply decodes_map; [apply decodes_UnpackStr|].
    intros x Hx. cbn [encode in_domain]. split; [reflexivity|].
    apply Z.leb_le. exact Hx.
  - eapply decodes_map; [apply decodes_UnpackIP|].
    intros x Hx. split; [reflexivity | exact Hx].
  - eapply decodes_map
      with (enc := fun r => be32 (uint32 (llen r)) ++ flat_map encode_ip r)
           (dom := fun r => in_domain KIPs (IIPs r) = true).
    + unfold UnpackIPs.
      eapply decodes_bind
        with (d2 := fun n r =>
                      length r = Z.to_nat n /\ forallb ip_ok r = true)
             (e2 := fun _ r => flat_map encode_ip r).
      * apply (decodes_reads _ _ _ _ _ reads_UnpackInt).
      * intros n (Hn & _). intros p Hr.
        destruct (decodes_UnpackIPs_loop (Z.to_nat n) [] p Hr)
          as (r & p' & E & H).
        exists r, p'. split; [exact E|]. intros He.
        destruct (H He) as (Hp & Hh & _ & Hl & Ha). cbn in *. auto.
      * intros n. eexists. apply frozen_UnpackIPs_loop.
      * intros n r (Hn & _) (Hl & Ha). cbv beta.
        assert (llen r = n) as Hr by (unfold llen; lia).
        rewrite Hr. unfold uint32. rewrite Z.mod_small by lia.
        split; [reflexivity|]. cbn [in_domain]. rewrite Hr, Ha.
        apply andb_true_intro. split; [apply Z.ltb_lt; lia | reflexivity].
    + intros x Hx. split; [reflexivity | exact Hx].
Qed.

(** X9. The wire format is canonical: whenever an unpack operation, on a
    Packer without an error whose offset lies in its buffer, returns
    without an error, the value it returns is in the domain of the
    operation, the encoding of that value is exactly what stood at the
    offset, and the operation has moved the offset past it and changed
    nothing else. *)
Theorem unpack_reads_an_encoding (k : kind) (p : Packer) (v : item)
    (p' : Packer) :
  Errored p = false ->
  0 <= Offset p <= len (Bytes p) -> len (Bytes p) < two63 ->
  unpack k p = Ok v p' ->
  Errored p' = false ->
  in_domain k v = true
  /\ holds p (encode v)
  /\ p' = set_Offset (Offset p + llen (encode v)) p.
Proof.
  intros He Ho Hl E He'.
  assert (ready p) as Hr.
  { unfold ready. split; [apply Errored_false, He | auto]. }
  destruct (decodes_unpack k p Hr) as (v0 & p0 & E0 & H).
  rewrite E in E0. inversion E0; subst v0 p0.
  destruct (H He') as (Hp & Hh & Hd). auto.
Qed.

Lemma encode_prefix_free (k : kind) (v v' : item) (r r' : list byte) :
  in_domain k v = true -> in_domain k v' = true ->
  llen (encode v) < two63 -> llen (encode v') < two63 ->
  encode v ++ r = encode v' ++ r' ->
  v = v' /\ r = r'.
Proof.
  intros Hd Hd' Hl Hl' H.
  pose (n := Nat.max (length (encode v)) (length (encode v'))).
  assert (firstn n (encode v ++ r) = firstn n (encode v' ++ r')) as Hn
    by (rewrite H; reflexivity).
  rewrite !firstn_app in Hn.
  rewrite (firstn_all2 (encode v)) in Hn by (unfold n; lia).
  rewrite (firstn_all2 (encode v')) in Hn by (unfold n; lia).
  pose (p := reader (mkSlice (encode v ++ firstn (n - length (encode v)) r)
                       [])).
  assert (len (Bytes p) < two63) as Hp.
  { unfold p, reader, len, llen in *. cbn [Bytes vis].
    rewrite length_app, length_firstn. unfold n. lia. }
  assert (holds p (encode v)) as Hh.
  { exists [], (firstn (n - length (encode v)) r). split; reflexivity. }
  assert (holds p (encode v')) as Hh'.
  { exists [], (firstn (n - length (encode v')) r').
    split; [exact Hn | reflexivity]. }
  pose proof (unpacks_unpack k v Hd p eq_refl Hp Hh) as E.
  pose proof (unpacks_unpack k v' Hd' p eq_refl Hp Hh') as E'.
  rewrite E in E'. inversion E' as [[Hv Ho]]. split; [reflexivity|].
  subst v'. apply app_inv_head in H. exact H.
Qed.

(** X10. What the pack operations write is prefix-free: when two values
    of the domain of one operation are packed, each into a fresh Packer
    with room for it, and the bytes of the one followed by anything are
    the bytes of the other followed by anything, then the two values are
    the same, and so is what follows. A reader is never in doubt where a
    value ends. *)
Theorem pack_prefix_free (g : Z -> Z -> nat) (k : kind) (v v' : item)
    (m m' : Z) :
  in_domain k v = true -> in_domain k v' = true ->
  width v <= m < two63 -> width v' <= m' < two63 ->
  exists p p',
    pack g v (writer m) = Ok tt p /\ Errored p = false
    /\ pack g v' (writer m') = Ok tt p' /\ Errored p' = false
    /\ forall r r',
         vis (Bytes p) ++ r = vis (Bytes p') ++ r' -> v = v' /\ r = r'.
Proof.
  intros Hd Hd' Hm Hm'.
  destruct (roundtrip_all g [k] [v] m) as (p & E & He & _ & Hv & _).
  { cbn [all_in_domain]. rewrite Hd. reflexivity. }
  { cbn [total_width]. lia. }
  destruct (roundtrip_all g [k] [v'] m') as (p' & E' & He' & _ & Hv' & _).
  { cbn [all_in_domain]. rewrite Hd'. reflexivity. }
  { cbn [total_width]. lia. }
  cbn [flat_map] in Hv, Hv'. rewrite app_nil_r in Hv, Hv'.
  exists p, p'. split; [apply pack_all_single, E|]. split; [exact He|].
  split; [apply pack_all_single, E'|]. split; [exact He'|].
  intros r r' H. rewrite Hv, Hv' in H.
  apply (encode_prefix_free k v v' r r' Hd Hd'); try exact H.
  - rewrite (llen_encode k v Hd). lia.
  - rewrite (llen_encode k v' Hd'). lia.
Qed.

(* ================================================================== *)
(** ** Addresses *)

Lemma To16_4 (ip : list byte) :
  length ip = 4%nat -> To16 ip = v4InV6Prefix ++ ip /\ llen (To16 ip) = 16.
Proof.
  intros H. do 5 (destruct ip as [|? ip]; try discriminate H).
  split; reflexivity.
Qed.

Lemma To16_other (ip : list byte) :
  length ip <> 4%nat -> length ip <> 16%nat -> To16 ip = [].
Proof.
  intros H4 H16. unfold To16.
  destruct (Nat.eqb (length ip) 16) eqn:E.
  { apply Nat.eqb_eq in E. contradiction. }
  destruct ip as [|a [|b [|c [|d [|e ip]]]]]; try reflexivity.
  exfalso. apply H4. reflexivity.
Qed.

Lemma To16_length (ip : list byte) :
  length ip = 4%nat \/ length ip = 16%nat -> llen (To16 ip) = 16.
Proof.
  intros [H|H].
  - apply To16_4, H.
  - rewrite To16_16; unfold llen; rewrite H; reflexivity.
Qed.

(** X11. An address of 4 or of 16 bytes with a 16-bit port goes out as 18
    bytes and comes back in its 16-byte form [To16]: a 16-byte address as
    it is, a 4-byte one behind the prefix of IPv4 in IPv6; the port comes
    back as it is. *)
Theorem PackIP_roundtrip_To16 (g : Z -> Z -> nat) (ip : IPDesc) (m : Z) :
  length (IP ip) = 4%nat \/ length (IP ip) = 16%nat ->
  0 <= Port ip < two16 ->
  18 <= m < two63 ->
  exists p q,
    PackIP g ip (writer m) = Ok tt p /\ Errored p = false
    /\ llen (vis (Bytes p)) = 18
    /\ UnpackIP (reader (Bytes p))
       = Ok (mkIPDesc (To16 (IP ip)) (Port ip)) q
    /\ Errored q = false.
Proof.
  intros Hlen Hport Hm.
  pose proof (To16_length (IP ip) Hlen) as H16.
  pose (ip' := mkIPDesc (To16 (IP ip)) (Port ip)).
  assert (ip_ok ip' = true) as Hok.
  { unfold ip_ok, ip'. cbn [IP Port]. rewrite H16.
    apply andb_true_intro. split; [apply andb_true_intro; split|].
    - reflexivity.
    - apply Z.leb_le. lia.
    - apply Z.ltb_lt. lia. }
  destruct (roundtrip_all g [KIP] [IIP ip'] m) as (p & E & He & _ & Hv & U).
  { cbn [all_in_domain in_domain]. rewrite Hok. reflexivity. }
  { cbn [total_width width]. lia. }
  apply pack_all_single in E. apply unpack_all_single in U.
  cbn [pack] in E. cbn [unpack] in U.
  assert (PackIP g ip = PackIP g ip') as Ep.
  { unfold PackIP, ip'. cbn [IP Port]. rewrite (To16_16 _ H16). reflexivity. }
  exists p. eexists. rewrite Ep. split; [exact E|]. split; [exact He|].
  split.
  { rewrite Hv. cbn [flat_map encode]. rewrite app_nil_r.
    apply llen_encode_ip, Hok. }
  unfold bind, ret in U.
  destruct (UnpackIP (reader (Bytes p))) as [d q|]; [|discriminate U].
  inversion U; subst. split; reflexivity.
Qed.

(** X12. [PackIP] does not check the address: for an address that is
    neither 4 nor 16 bytes long, [To16] gives nil, and only the two bytes
    of the port are written, without an error. *)
Theorem PackIP_without_address (g : Z -> Z -> nat) (ip : IPDesc)
    (p : Packer) :
  length (IP ip) <> 4%nat -> length (IP ip) <> 16%nat ->
  Errored p = false ->
  0 <= Offset p <= len (Bytes p) ->
  len (Bytes p) < two63 -> MaxSize p < two63 ->
  Offset p + 2 <= Z.max (len (Bytes p)) (MaxSize p) ->
  exists p',
    PackIP g ip p = Ok tt p'
    /\ Errored p' = false
    /\ Offset p' = Offset p + 2
    /\ vis (Bytes p')
       = overwrite (Z.to_nat (Offset p)) (be16 (Port ip)) (vis (Bytes p)).
Proof.
  intros H4 H16 He Ho Hl Hm Hroom.
  assert (ready p) as Hr.
  { unfold ready. split; [apply Errored_false, He | auto]. }
  destruct (packs_PackIP g ip p Hr) as (p' & E & He' & _ & Ho' & Hv').
  { unfold room, encode_ip. rewrite (To16_other _ H4 H16). auto. }
  unfold encode_ip in Ho', Hv'. rewrite (To16_other _ H4 H16) in Ho', Hv'.
  exists p'. split; [exact E|]. split.
  { unfold Errored. rewrite He'. reflexivity. }
  split; [exact Ho' | exact Hv'].
Qed.

(* ================================================================== *)
(** ** What packing keeps *)

(** The invariant of the Packer's buffer. *)
Definition inv (p : Packer) : Prop :=
  0 <= Offset p <= len (Bytes p) /\ len (Bytes p) <= MaxSize p
  /\ MaxSize p < two63.

(** [steady m n]: on a Packer that satisfies the invariant and whose size
    limit leaves [n] below the largest [int], [m] returns, and afterwards
    the invariant holds again, the size limit is the same, the errors
    that were there are still there, the buffer is not shorter, the
    offset has not moved back and the bytes before the old offset are the
    same. *)
Definition steady (m : M unit) (n : Z) : Prop :=
  forall p, inv p -> MaxSize p + n < two63 ->
    exists p',
      m p = Ok tt p'
      /\ inv p' /\ MaxSize p' = MaxSize p
      /\ (exists l, Errs_ p' = Errs_ p ++ l)
      /\ len (Bytes p) <= len (Bytes p')
      /\ Offset p <= Offset p'
      /\ firstn (Z.to_nat (Offset p)) (vis (Bytes p'))
         = firstn (Z.to_nat (Offset p)) (vis (Bytes p)).

Lemma steady_same (m : M unit) (n : Z) :
  (forall p, exists l,
      m p = Ok tt (mkPacker (Errs_ p ++ l) (MaxSize p) (Bytes p)
                     (Offset p))) ->
  steady m n.
Proof.
  intros H p Hi _. destruct (H p) as (l & E).
  eexists. split; [exact E|]. cbn.
  split; [exact Hi|]. split; [reflexivity|]. split; [exists l; reflexivity|].
  repeat split; lia.
Qed.

Lemma steady_ret (n : Z) : steady (ret tt) n.
Proof.
  apply steady_same. intros p. exists []. rewrite app_nil_r.
  destruct p. reflexivity.
Qed.

Lemma steady_Add (e : error) (n : Z) : steady (modify (Add e)) n.
Proof. apply steady_same. intros p. exists [e]. reflexivity. Qed.

Lemma steady_bind (m k : M unit) (n1 n2 : Z) :
  0 <= n1 -> 0 <= n2 ->
  steady m n1 -> steady k n2 -> steady (m ;;; k) (n1 + n2).
Proof.
  intros H1 H2 Hm Hk p Hi Hb.
  destruct (Hm p Hi) as (p1 & E1 & Hi1 & Hm1 & (l1 & He1) & Hl1 & Ho1 & Hf1);
    [lia|].
  destruct (Hk p1 Hi1) as (p2 & E2 & Hi2 & Hm2 & (l2 & He2) & Hl2 & Ho2 & Hf2);
    [lia|].
  exists p2. unfold bind. rewrite E1. split; [exact E2|].
  split; [exact Hi2|]. split; [congruence|]. split.
  { exists (l1 ++ l2). rewrite He2, He1, app_assoc. reflexivity. }
  split; [lia|]. split; [lia|].
  destruct Hi as ((Ho & _) & _).
  assert (forall l : list byte,
             firstn (Z.to_nat (Offset p)) l
             = firstn (Z.to_nat (Offset p)) (firstn (Z.to_nat (Offset p1)) l))
    as Hcut.
  { intros l. rewrite firstn_firstn. f_equal. lia. }
  rewrite (Hcut (vis (Bytes p2))), Hf2, <- Hcut. exact Hf1.
Qed.

Lemma steady_weaken (m : M unit) (n n' : Z) :
  n <= n' -> steady m n -> steady m n'.
Proof. intros H Hm p Hi Hb. apply Hm; [exact Hi | lia]. Qed.

Lemma firstn_overwrite (o : nat) (bs l : list byte) :
  (o <= length l)%nat -> firstn o (overwrite o bs l) = firstn o l.
Proof.
  intros H. unfold overwrite. rewrite firstn_app.
  rewrite firstn_length_le by exact H.
  rewrite Nat.sub_diag, firstn_O, app_nil_r.
  rewrite firstn_firstn, Nat.min_id. reflexivity.
Qed.

(** A primitive is steady: it is frozen after an error, it writes where
    there is room, and it records [errBadLength] where there is none. *)
Lemma steady_prim (g : Z -> Z -> nat) (bs : list byte)
    (tail : Packer -> M unit) :
  packs (Expand g (llen bs) ;;;
         q <- get ;; if Errored q then ret tt else tail q) bs ->
  steady (Expand g (llen bs) ;;;
          q <- get ;; if Errored q then ret tt else tail q) (llen bs).
Proof.
  intros Hp p Hi Hb. pose proof Hi as (Ho & Hl & Hm).
  pose proof (llen_nonneg bs) as Hn.
  destruct (Errored p) eqn:Ee.
  { destruct (frozen_guard (Expand g (llen bs)) tt tail
                (frozen_Expand g (llen bs)) p Ee) as (l & E).
    eexists. split; [exact E|]. cbn.
    split; [exact Hi|]. split; [reflexivity|].
    split; [exists l; reflexivity|]. repeat split; lia. }
  assert (ready p) as Hr.
  { unfold ready. split; [apply Errored_false, Ee|]. split; lia. }
  destruct (Z.le_gt_cases (Offset p + llen bs)
              (Z.max (len (Bytes p)) (MaxSize p))) as [Hroom|Hroom].
  - destruct (Hp p Hr) as (p' & E & W); [unfold room; auto|].
    pose proof (wrote_len _ _ _ Hr W) as L.
    destruct W as (He' & Hm' & Ho' & Hv').
    exists p'. split; [exact E|]. unfold inv. rewrite Hm', Ho', L.
    split; [lia|]. split; [reflexivity|]. split.
    { exists []. rewrite app_nil_r, He'. symmetry.
      apply Errored_false, Ee. }
    split; [lia|]. split; [lia|].
    rewrite Hv'. apply firstn_overwrite. unfold len, llen in Ho. lia.
  - rewrite (prim_no_room g (llen bs) tail p Hr Hn) by lia.
    eexists. split; [reflexivity|]. cbn.
    split; [exact Hi|]. split; [reflexivity|].
    split; [exists [errBadLength]; reflexivity|]. repeat split; lia.
Qed.

Section Steady.

Variable g : Z -> Z -> nat.

Lemma steady_PackByte (v : byte) : steady (PackByte g v) 1.
Proof. apply (steady_prim g [v]), packs_PackByte. Qed.

Lemma steady_PackShort (v : Z) : steady (PackShort g v) 2.
Proof. apply (steady_prim g (be16 v)), packs_PackShort. Qed.

Lemma steady_PackInt (v : Z) : steady (PackInt g v) 4.
Proof. apply (steady_prim g (be32 v)), packs_PackInt. Qed.

Lemma steady_PackLong (v : Z) : steady (PackLong g v) 8.
Proof. apply (steady_prim g (be64 v)), packs_PackLong. Qed.

Lemma steady_PackFixedBytes (bs : list byte) :
  steady (PackFixedBytes g bs) (llen bs).
Proof. apply (steady_prim g bs), packs_PackFixedBytes. Qed.

Lemma steady_PackFixedByteSlices_loop (bss : list (list byte)) :
  steady (PackFixedByteSlices_loop g bss) (llen (concat bss)).
Proof.
  induction bss as [|bs rest IH]; cbn [PackFixedByteSlices_loop concat].
  - apply steady_ret.
  - rewrite llen_app.
    apply steady_bind; try apply llen_nonneg;
      [apply steady_PackFixedBytes | exact IH].
Qed.

Lemma steady_PackIP (ip : IPDesc) :
  steady (PackIP g ip) (llen (encode_ip ip)).
Proof.
  unfold PackIP, encode_ip. rewrite llen_app.
  apply steady_bind; try apply llen_nonneg;
    [apply steady_PackFixedBytes | apply steady_PackShort].
Qed.

Lemma steady_PackIPs_loop (ips : list IPDesc) :
  steady (PackIPs_loop g ips) (llen (flat_map encode_ip ips)).
Proof.
  induction ips as [|ip rest IH]; cbn [PackIPs_loop flat_map].
  - apply steady_ret.
  - intros p Hi Hb. unfold bind at 1. unfold get.
    destruct (Errored p).
    + exact (steady_ret _ p Hi Hb).
    + revert p Hi Hb. rewrite llen_app.
      apply steady_bind; try apply llen_nonneg;
        [apply steady_PackIP | exact IH].
Qed.

Lemma steady_pack (v : item) : steady (pack g v) (llen (encode v)).
Proof.
  destruct v; cbn [pack encode];
    unfold PackBool, PackBytes, PackFixedByteSlices, PackIPs.
  - apply steady_PackByte.
  - destruct b; apply steady_PackByte.
  - apply steady_PackShort.
  - apply steady_PackInt.
  - apply steady_PackLong.
  - apply steady_PackFixedBytes.
  - rewrite llen_app.
    apply steady_bind; try apply llen_nonneg;
      [apply steady_PackInt | apply steady_PackFixedBytes].
  - rewrite llen_app.
    apply steady_bind; try apply llen_nonneg;
      [apply steady_PackInt | apply steady_PackFixedByteSlices_loop].
  - unfold PackStr. rewrite llen_app.
    replace (llen (be16 (uint16 (llen s))) + llen s)
      with (0 + (llen (be16 (uint16 (llen s))) + llen s)) by lia.
    apply steady_bind; try lia.
    + pose proof (llen_nonneg s). change (llen (be16 (uint16 (llen s)))) with 2.
      lia.
    + destruct (llen s >? MaxStringLen); [apply steady_Add | apply steady_ret].
    + apply steady_bind; try apply llen_nonneg;
        [apply steady_PackShort | apply steady_PackFixedBytes].
  - apply steady_PackIP.
  - rewrite llen_app.
    apply steady_bind; try apply llen_nonneg;
      [apply steady_PackInt | apply steady_PackIPs_loop].
Qed.

End Steady.

(** X13. Packing keeps the Packer in order whether it succeeds or fails.
    On a Packer with [0 <= Offset <= len(Bytes) <= MaxSize] (and sizes
    such that [MaxSize] plus the length of the encoding is an [int]),
    every pack operation returns (it does not panic), and afterwards the
    invariant holds again: the buffer has not grown beyond [MaxSize] and
    has not shrunk, the offset has not moved back, the bytes before the
    old offset are untouched, [MaxSize] is the same and no error that was
    recorded is lost. *)
Theorem pack_keeps_invariant (g : Z -> Z -> nat) (v : item) (p : Packer) :
  0 <= Offset p <= len (Bytes p) ->
  len (Bytes p) <= MaxSize p ->
  MaxSize p + llen (encode v) < two63 ->
  exists p',
    pack g v p = Ok tt p'
    /\ 0 <= Offset p' <= len (Bytes p')
    /\ len (Bytes p') <= MaxSize p'
    /\ MaxSize p' = MaxSize p
    /\ (exists l, Errs_ p' = Errs_ p ++ l)
    /\ len (Bytes p) <= len (Bytes p')
    /\ Offset p <= Offset p'
    /\ firstn (Z.to_nat (Offset p)) (vis (Bytes p'))
       = firstn (Z.to_nat (Offset p)) (vis (Bytes p)).
Proof.
  intros Ho Hl Hb. pose proof (llen_nonneg (encode v)) as Hn.
  destruct (steady_pack g v p) as (p' & E & (Ho' & Hl' & _) & H).
  - unfold inv. repeat split; lia.
  - exact Hb.
  - exists p'. split; [exact E|]. split; [exact Ho'|]. split; [exact Hl'|].
    exact H.
Qed.

(* ================================================================== *)
(** ** What unpacking keeps *)

(** [tidy m]: on every well-typed Packer [m] returns, and it has left
    [Bytes] and [MaxSize] alone, has lost no error, and has either left
    the offset where it was or moved it forward within the buffer. *)
Definition tidy {A : Type} (m : M A) : Prop :=
  forall p, well_typed p ->
    exists v p',
      m p = Ok v p'
      /\ Bytes p' = Bytes p /\ MaxSize p' = MaxSize p
      /\ (exists l, Errs_ p' = Errs_ p ++ l)
      /\ (Offset p' = Offset p
          \/ (0 <= Offset p <= Offset p' /\ Offset p' <= len (Bytes p))).

Lemma tidy_ret {A : Type} (a : A) : tidy (ret a).
Proof.
  intros p _. exists a, p. split; [reflexivity|].
  split; [reflexivity|]. split; [reflexivity|].
  split; [exists []; rewrite app_nil_r; reflexivity | left; reflexivity].
Qed.

Lemma tidy_bind {A B : Type} (m : M A) (f : A -> M B) :
  tidy m -> (forall x, tidy (f x)) -> tidy (bind m f).
Proof.
  intros Hm Hf p Hw.
  destruct (Hm p Hw) as (x & p1 & E1 & Hb1 & Hm1 & (l1 & He1) & Ho1).
  assert (well_typed p1) as Hw1.
  { destruct Hw as (Hw1 & Hw2). unfold well_typed. rewrite Hb1.
    split; [|exact Hw2]. destruct Ho1 as [->|Ho1]; [exact Hw1|].
    unfold two63 in *. lia. }
  destruct (Hf x p1 Hw1) as (y & p2 & E2 & Hb2 & Hm2 & (l2 & He2) & Ho2).
  exists y, p2. unfold bind. rewrite E1. split; [exact E2|].
  split; [congruence|]. split; [congruence|]. split.
  { exists (l1 ++ l2). rewrite He2, He1, app_assoc. reflexivity. }
  rewrite Hb1 in Ho2.
  destruct Ho1 as [Ho1|Ho1], Ho2 as [Ho2|Ho2].
  - left. congruence.
  - right. rewrite <- Ho1. exact Ho2.
  - right. rewrite Ho2. exact Ho1.
  - right. lia.
Qed.

Lemma tidy_guard {A : Type} (z : A) (m : M A) :
  tidy m -> tidy (p <- get ;; if Errored p then ret z else m).
Proof.
  intros Hm p Hw. unfold bind, get. destruct (Errored p).
  - apply tidy_ret, Hw.
  - apply Hm, Hw.
Qed.

Lemma tidy_of_reads {A : Type} (m : M A) (n : Z) (z : A)
    (enc : A -> list byte) (dom : A -> Prop) :
  reads_as m n z enc dom -> frozen m z -> tidy m.
Proof.
  intros Hr Hz p Hw. destruct (Errored p) eqn:Ee.
  - destruct (Hz p Ee) as (l & E). eexists _, _. split; [exact E|].
    cbn. split; [reflexivity|]. split; [reflexivity|].
    split; [exists l; reflexivity | left; reflexivity].
  - pose proof (Errored_false p Ee) as He.
    specialize (Hr p He Hw).
    destruct (CheckSpace_error n p) as [e|].
    + eexists _, _. split; [exact Hr|]. cbn.
      split; [reflexivity|]. split; [reflexivity|].
      split; [exists [e]; reflexivity | left; reflexivity].
    + destruct Hr as (v & E & Hh & Hl & _).
      eexists _, _. split; [exact E|]. cbn.
      split; [reflexivity|]. split; [reflexivity|].
      split; [exists []; rewrite app_nil_r; reflexivity|].
      right. pose proof (holds_bound p _ Hh) as Hb. rewrite Hl in Hb.
      pose proof (llen_nonneg (enc v)). lia.
Qed.

Lemma tidy_UnpackByte : tidy UnpackByte.
Proof. exact (tidy_of_reads _ _ _ _ _ reads_UnpackByte frozen_UnpackByte). Qed.

Lemma tidy_UnpackShort : tidy UnpackShort.
Proof.
  exact (tidy_of_reads _ _ _ _ _ reads_UnpackShort frozen_UnpackShort).
Qed.

Lemma tidy_UnpackInt : tidy UnpackInt.
Proof. exact (tidy_of_reads _ _ _ _ _ reads_UnpackInt frozen_UnpackInt). Qed.

Lemma tidy_UnpackLong : tidy UnpackLong.
Proof. exact (tidy_of_reads _ _ _ _ _ reads_UnpackLong frozen_UnpackLong). Qed.

Lemma tidy_UnpackFixedBytes (size : Z) : tidy (UnpackFixedBytes size).
Proof.
  exact (tidy_of_reads _ _ _ _ _ (reads_UnpackFixedBytes size)
           (frozen_UnpackFixedBytes size)).
Qed.

Lemma tidy_UnpackBool : tidy UnpackBool.
Proof.
  apply tidy_bind; [apply tidy_UnpackByte|].
  intros b. destruct b; try apply tidy_ret;
    (intros p _; eexists _, _; split; [reflexivity|]; cbn;
     split; [reflexivity|]; split; [reflexivity|];
     split; [exists [errBadBool]; reflexivity | left; reflexivity]).
Qed.

Lemma tidy_UnpackIP : tidy UnpackIP.
Proof.
  apply tidy_bind; [apply tidy_UnpackFixedBytes|]. intros ip.
  apply tidy_bind; [apply tidy_UnpackShort|]. intros port. apply tidy_ret.
Qed.

Lemma tidy_UnpackFixedByteSlices_loop (n : nat) (size : Z)
    (acc : list (list byte)) :
  tidy (UnpackFixedByteSlices_loop n size acc).
Proof.
  revert acc. induction n as [|n IH]; intros acc; cbn.
  - apply tidy_ret.
  - apply tidy_guard. apply tidy_bind; [apply tidy_UnpackFixedBytes|].
    intros b. apply IH.
Qed.

Lemma tidy_UnpackIPs_loop (n : nat) (acc : list IPDesc) :
  tidy (UnpackIPs_loop n acc).
Proof.
  revert acc. induction n as [|n IH]; intros acc; cbn.
  - apply tidy_ret.
  - apply tidy_guard. apply tidy_bind; [apply tidy_UnpackIP|].
    intros b. apply IH.
Qed.

Lemma tidy_unpack (k : kind) : tidy (unpack k).
Proof.
  destruct k; cbn [unpack];
    (apply tidy_bind; [|intros x; apply tidy_ret]).
  - apply tidy_UnpackByte.
  - apply tidy_UnpackBool.
  - apply tidy_UnpackShort.
  - apply tidy_UnpackInt.
  - apply tidy_UnpackLong.
  - apply tidy_UnpackFixedBytes.
  - apply tidy_bind; [apply tidy_UnpackInt|]. intros n.
    apply tidy_UnpackFixedBytes.
  - apply tidy_bind; [apply tidy_UnpackInt|]. intros n.
    apply tidy_UnpackFixedByteSlices_loop.
  - apply tidy_bind; [apply tidy_UnpackShort|]. intros n.
    apply tidy_UnpackFixedBytes.
  - apply tidy_UnpackIP.
  - apply tidy_bind; [apply tidy_UnpackInt|]. intros n.
    apply tidy_UnpackIPs_loop.
Qed.

(** X14. Unpacking only reads. On every Packer whose sizes are [int]s,
    every unpack operation leaves [Bytes] and [MaxSize] exactly as they
    were and loses no recorded error; the offset either stays or moves
    forward, and where it moves it stays within the buffer. *)
Theorem unpack_only_reads (k : kind) (p : Packer) :
  - two63 <= Offset p < two63 -> len (Bytes p) < two63 ->
  exists v p',
    unpack k p = Ok v p'
    /\ Bytes p' = Bytes p /\ MaxSize p' = MaxSize p
    /\ (exists l, Errs_ p' = Errs_ p ++ l)
    /\ (Offset p' = Offset p
        \/ (0 <= Offset p <= Offset p' /\ Offset p' <= len (Bytes p))).
Proof.
  intros Ho Hl. apply tidy_unpack. split; assumption.
Qed.

(* ================================================================== *)
(** ** What an unpack has read when it ends with an error *)

(** The two ways a guarded read of [n] bytes comes out on a Packer without
    an error. *)
Lemma read_cases {A : Type} (m : M A) (n : Z) (z : A)
    (enc : A -> list byte) (dom : A -> Prop) (p : Packer) :
  reads_as m n z enc dom -> Errs_ p = [] -> well_typed p ->
  (exists e, m p = Ok z (Add e p))
  \/ (exists v, m p = Ok v (set_Offset (Offset p + n) p)
                /\ holds p (enc v) /\ llen (enc v) = n /\ dom v).
Proof.
  intros H He Hw. specialize (H p He Hw).
  destruct (CheckSpace_error n p) as [e|].
  - left. exists e. exact H.
  - right. exact H.
Qed.

Lemma ready_after_read (p : Packer) (bs : list byte) :
  Errs_ p = [] -> len (Bytes p) < two63 -> holds p bs ->
  ready (set_Offset (Offset p + llen bs) p).
Proof.
  intros He Hl Hh. apply holds_bound in Hh as (Ho & Hb).
  pose proof (llen_nonneg bs).
  unfold ready. cbn [set_Offset Errs_ Offset Bytes].
  repeat split; try assumption; lia.
Qed.

Lemma map_inv {A B : Type} (m : M A) (f : A -> B) (p : Packer) (y : B)
    (p' : Packer) :
  (x <- m ;; ret (f x)) p = Ok y p' ->
  exists x, m p = Ok x p' /\ y = f x.
Proof.
  unfold bind, ret. destruct (m p) as [x p1|]; intros H; [|discriminate].
  inversion H; subst. exists x. split; reflexivity.
Qed.

(** What an unpack operation that ends with an error hands back, and where
    it leaves the offset. The operations of one step hand back the zero
    value and have not moved. [UnpackBool] hands back false, and has
    consumed the byte it found to be neither 0 nor 1. [UnpackBytes] and
    [UnpackStr] hand back the empty value, and have consumed the length
    where it was the content that failed. [UnpackIP] hands back the
    address it read, if it read one, with port 0. The lists hand back the
    elements they read in full, followed by the element whose read
    failed: an empty slice, or an address (read or not) with port 0; they
    hand back the empty list where the count could not be read. In every
    case the offset is behind exactly the bytes that were read. *)
Definition after_error (k : kind) (p : Packer) (v : item) (p' : Packer)
    : Prop :=
  match k with
  | KByte | KShort | KInt | KLong | KFixedBytes _ =>
      v = zero k /\ Offset p' = Offset p
  | KBool =>
      v = IBool false
      /\ (Offset p' = Offset p
          \/ exists b, holds p [b] /\ b <> x00 /\ b <> x01
                       /\ Offset p' = Offset p + 1)
  | KBytes =>
      v = IBytes []
      /\ (Offset p' = Offset p
          \/ exists n, holds p (be32 n) /\ Offset p' = Offset p + 4)
  | KStr =>
      v = IStr []
      /\ (Offset p' = Offset p
          \/ exists n, holds p (be16 n) /\ Offset p' = Offset p + 2)
  | KIP =>
      exists ip,
        v = IIP (mkIPDesc ip 0)
        /\ ((ip = [] /\ Offset p' = Offset p)
            \/ (llen ip = 16 /\ holds p ip /\ Offset p' = Offset p + 16))
  | KFixedByteSlices size =>
      (v = IFixedByteSlices [] /\ Offset p' = Offset p)
      \/ exists n bss,
           v = IFixedByteSlices (bss ++ [[]])
           /\ llen bss < n
           /\ Forall (fun bs => llen bs = size) bss
           /\ holds p (be32 n ++ concat bss)
           /\ Offset p' = Offset p + llen (be32 n ++ concat bss)
  | KIPs =>
      (v = IIPs [] /\ Offset p' = Offset p)
      \/ exists n ips ip,
           v = IIPs (ips ++ [mkIPDesc ip 0])
           /\ llen ips < n
           /\ Forall (fun d => ip_ok d = true) ips
           /\ (ip = [] \/ llen ip = 16)
           /\ holds p (be32 n ++ flat_map encode_ip ips ++ ip)
           /\ Offset p' = Offset p + llen (be32 n ++ flat_map encode_ip ips
                                           ++ ip)
  end.

Lemma after_error_zero (k : kind) (p p' : Packer) :
  Offset p' = Offset p -> after_error k p (zero k) p'.
Proof.
  intros H. destruct k; cbn [after_error zero]; auto.
  exists []. auto.
Qed.

(** [UnpackIP] on a Packer without an error: it fails on the address, or
    on the port with the address read, or it reads both. *)
Lemma UnpackIP_cases (p : Packer) :
  Errs_ p = [] -> well_typed p ->
  exists d p',
    UnpackIP p = Ok d p'
    /\ ((Errored p' = true /\ Port d = 0
         /\ ((IP d = [] /\ Offset p' = Offset p)
             \/ (llen (IP d) = 16 /\ holds p (IP d)
                 /\ Offset p' = Offset p + 16)))
        \/ (Errored p' = false /\ ip_ok d = true
            /\ holds p (encode_ip d)
            /\ p' = set_Offset (Offset p + 18) p)).
Proof.
  intros He Hw. pose proof Hw as (_ & Hl).
  unfold UnpackIP, bind.
  destruct (read_cases _ _ _ _ _ p (reads_UnpackFixedBytes 16) He Hw)
    as [(e & E)|(ip & E & Hh & Hlen & _)]; rewrite E.
  - destruct (frozen_UnpackShort (Add e p) (Errored_Add e p)) as (l & F).
    rewrite F. eexists _, _. split; [reflexivity|]. left.
    split; [apply Errored_more, Errored_Add|].
    split; [reflexivity|]. left. split; reflexivity.
  - cbv beta in Hh, Hlen.
    pose proof (ready_after_read p ip He Hl Hh) as Hr1.
    rewrite Hlen in Hr1.
    destruct (read_cases _ _ _ _ _ (set_Offset (Offset p + 16) p)
                reads_UnpackShort (proj1 Hr1) (ready_well_typed _ Hr1))
      as [(e & E2)|(port & E2 & Hh2 & _ & Hport)]; rewrite E2.
    + eexists _, _. split; [reflexivity|]. left.
      split; [apply Errored_Add|]. split; [reflexivity|]. right.
      cbn [IP Add set_Offset Offset]. auto.
    + eexists _, _. split; [reflexivity|]. right.
      cbn [set_Offset Offset Errs_ MaxSize Bytes].
      split; [unfold Errored; cbn; rewrite He; reflexivity|].
      split.
      { unfold ip_ok. cbn [IP Port]. rewrite Hlen.
        apply andb_true_intro. split; [apply andb_true_intro; split|].
        - reflexivity.
        - apply Z.leb_le. lia.
        - apply Z.ltb_lt. lia. }
      split.
      { unfold encode_ip. cbn [IP Port]. rewrite To16_16 by exact Hlen.
        apply holds_app; [exact Hh|]. rewrite Hlen. exact Hh2. }
      unfold set_Offset. cbn [Errs_ MaxSize Bytes Offset]. f_equal. lia.
Qed.

(** The loop of [UnpackFixedByteSlices] on a Packer without an error: it
    reads elements until the count is reached or a read fails; the failed
    read adds an empty element. *)
Lemma UnpackFixedByteSlices_loop_cases (size : Z) (n : nat) :
  forall acc p, ready p ->
    exists bss p',
      holds p (concat bss)
      /\ Forall (fun bs => llen bs = size) bss
      /\ Offset p' = Offset p + llen (concat bss)
      /\ ((UnpackFixedByteSlices_loop n size acc p = Ok (acc ++ bss) p'
           /\ Errored p' = false /\ length bss = n)
          \/ (UnpackFixedByteSlices_loop n size acc p
              = Ok (acc ++ bss ++ [[]]) p'
              /\ Errored p' = true /\ (length bss < n)%nat)).
Proof.
  induction n as [|n IH]; intros acc p Hr.
  - exists [], p. cbn [concat]. split; [apply holds_nil, Hr|].
    split; [constructor|]. split; [change (llen []) with 0; lia|].
    left. cbn. rewrite app_nil_r. split; [reflexivity|].
    split; [apply Errored_ready, Hr | reflexivity].
  - pose proof Hr as (He & Ho & Hl).
    assert (UnpackFixedByteSlices_loop (S n) size acc p
            = match UnpackFixedBytes size p with
              | Ok b p1 => UnpackFixedByteSlices_loop n size (acc ++ [b]) p1
              | Panic => Panic
              end) as Estep.
    { cbn [UnpackFixedByteSlices_loop]. unfold bind, get.
      rewrite (Errored_ready p Hr). reflexivity. }
    destruct (read_cases _ _ _ _ _ p (reads_UnpackFixedBytes size) He
                (ready_well_typed p Hr))
      as [(e & E)|(b & E & Hh & Hlen & _)].
    + destruct (frozen_UnpackFixedByteSlices_loop n size (acc ++ [[]])
                  (Add e p) (Errored_Add e p)) as (l & F).
      exists [], (mkPacker (Errs_ (Add e p) ++ l) (MaxSize (Add e p))
                    (Bytes (Add e p)) (Offset (Add e p))).
      cbn [concat]. split; [apply holds_nil, Hr|].
      split; [constructor|].
      split; [change (llen []) with 0; cbn; lia|].
      right. rewrite Estep, E, F. cbn [app].
      split; [reflexivity|].
      split; [apply Errored_more, Errored_Add | cbn; lia].
    + cbv beta in Hh, Hlen.
      pose proof (ready_after_read p b He Hl Hh) as Hr1.
      rewrite Hlen in Hr1.
      destruct (IH (acc ++ [b]) _ Hr1) as (bss & p' & Hh' & Hf & Ho' & Hc).
      exists (b :: bss), p'. cbn [concat].
      split.
      { apply holds_app; [exact Hh|]. rewrite Hlen. exact Hh'. }
      split; [constructor; assumption|].
      split.
      { rewrite Ho', llen_app, Hlen. cbn [set_Offset Offset]. lia. }
      rewrite Estep, E. rewrite <- !app_assoc in Hc. cbn [app] in Hc.
      destruct Hc as [(Ec & He' & Hn)|(Ec & He' & Hn)].
      * left. split; [exact Ec|]. split; [exact He' | cbn; lia].
      * right. split; [exact Ec|]. split; [exact He' | cbn; lia].
Qed.

(** The loop of [UnpackIPs] on a Packer without an error: the element
    whose read failed is added with the address it had read, if any, and
    port 0. *)
Lemma UnpackIPs_loop_cases (n : nat) :
  forall acc p, ready p ->
    exists ips tl p',
      Forall (fun d => ip_ok d = true) ips
      /\ holds p (flat_map encode_ip ips ++ tl)
      /\ Offset p' = Offset p + llen (flat_map encode_ip ips ++ tl)
      /\ ((UnpackIPs_loop n acc p = Ok (acc ++ ips) p'
           /\ Errored p' = false /\ tl = [] /\ length ips = n)
          \/ (UnpackIPs_loop n acc p = Ok (acc ++ ips ++ [mkIPDesc tl 0]) p'
              /\ Errored p' = true /\ (tl = [] \/ llen tl = 16)
              /\ (length ips < n)%nat)).
Proof.
  induction n as [|n IH]; intros acc p Hr.
  - exists [], [], p. cbn [flat_map app].
    split; [constructor|]. split; [apply holds_nil, Hr|].
    split; [change (llen []) with 0; lia|].
    left. cbn. rewrite app_nil_r. split; [reflexivity|].
    split; [apply Errored_ready, Hr | split; reflexivity].
  - pose proof Hr as (He & Ho & Hl).
    assert (UnpackIPs_loop (S n) acc p
            = match UnpackIP p with
              | Ok d p1 => UnpackIPs_loop n (acc ++ [d]) p1
              | Panic => Panic
              end) as Estep.
    { cbn [UnpackIPs_loop]. unfold bind, get.
      rewrite (Errored_ready p Hr). reflexivity. }
    destruct (UnpackIP_cases p He (ready_well_typed p Hr))
      as (d & p1 & E & [(He1 & Hport & Hip)|(He1 & Hok & Hh & Ep1)]).
    + destruct (frozen_UnpackIPs_loop n (acc ++ [d]) p1 He1) as (l & F).
      destruct d as [ip port]. cbn [IP Port] in Hport, Hip. subst port.
      exists [], ip,
        (mkPacker (Errs_ p1 ++ l) (MaxSize p1) (Bytes p1) (Offset p1)).
      cbn [flat_map app Offset].
      split; [constructor|].
      assert (holds p ip /\ Offset p1 = Offset p + llen ip
              /\ (ip = [] \/ llen ip = 16)) as (Hh & Ho1 & Hshape).
      { destruct Hip as [(-> & Ho1)|(Hlen & Hh & Ho1)].
        - split; [apply holds_nil, Hr|].
          split; [change (llen []) with 0; lia | left; reflexivity].
        - split; [exact Hh|]. split; [lia | right; exact Hlen]. }
      split; [exact Hh|]. split; [exact Ho1|].
      right. rewrite Estep, E, F.
      split; [reflexivity|].
      split; [apply Errored_more, He1|]. split; [exact Hshape | cbn; lia].
    + subst p1.
      pose proof (ready_after_read p (encode_ip d) He Hl Hh) as Hr1.
      rewrite (llen_encode_ip d Hok) in Hr1.
      destruct (IH (acc ++ [d]) _ Hr1)
        as (ips & tl & p' & Hf & Hh' & Ho' & Hc).
      exists (d :: ips), tl, p'. cbn [flat_map].
      split; [constructor; assumption|].
      split.
      { rewrite <- app_assoc. apply holds_app; [exact Hh|].
        rewrite (llen_encode_ip d Hok). exact Hh'. }
      split.
      { rewrite Ho', <- app_assoc, (llen_app (encode_ip d)),
          (llen_encode_ip d Hok).
        cbn [set_Offset Offset]. lia. }
      rewrite Estep, E. rewrite <- !app_assoc in Hc. cbn [app] in Hc.
      destruct Hc as [(Ec & He' & Ht & Hn)|(Ec & He' & Ht & Hn)].
      * left. split; [exact Ec|]. split; [exact He'|].
        split; [exact Ht | cbn; lia].
      * right. split; [exact Ec|]. split; [exact He'|].
        split; [exact Ht | cbn; lia].
Qed.

Ltac not_errored He He' :=
  exfalso; unfold Errored in He'; cbn in He'; rewrite He in He';
  discriminate He'.

(** Every unpack operation that ends with an error is as [after_error]
    has it. *)
Lemma unpack_after_error (k : kind) (p : Packer) (v : item) (p' : Packer) :
  well_typed p -> unpack k p = Ok v p' -> Errored p' = true ->
  after_error k p v p'.
Proof.
  intros Hw E He'. pose proof Hw as (_ & Hl).
  destruct (Errored p) eqn:He.
  { destruct (frozen_unpack k p He) as (l & F). rewrite F in E.
    inversion E; subst. apply after_error_zero. reflexivity. }
  apply Errored_false in He.
  destruct k; cbn [unpack] in E; apply map_inv in E as (x & E & ->);
    cbn [after_error zero].
  - destruct (read_cases _ _ _ _ _ p reads_UnpackByte He Hw)
      as [(e & E0)|(b & E0 & _)]; rewrite E0 in E; inversion E; subst.
    + split; reflexivity.
    + not_errored He He'.
  - unfold UnpackBool, bind in E.
    destruct (read_cases _ _ _ _ _ p reads_UnpackByte He Hw)
      as [(e & E0)|(b & E0 & Hh & _)]; rewrite E0 in E.
    + inversion E; subst. split; [reflexivity | left; reflexivity].
    + cbv beta in Hh.
      destruct b; cbn in E; inversion E; subst;
        first [ not_errored He He'
              | split; [reflexivity|]; right; eexists;
                split; [exact Hh|];
                split; [discriminate|];
                split; [discriminate | reflexivity] ].
  - destruct (read_cases _ _ _ _ _ p reads_UnpackShort He Hw)
      as [(e & E0)|(b & E0 & _)]; rewrite E0 in E; inversion E; subst.
    + split; reflexivity.
    + not_errored He He'.
  - destruct (read_cases _ _ _ _ _ p reads_UnpackInt He Hw)
      as [(e & E0)|(b & E0 & _)]; rewrite E0 in E; inversion E; subst.
    + split; reflexivity.
    + not_errored He He'.
  - destruct (read_cases _ _ _ _ _ p reads_UnpackLong He Hw)
      as [(e & E0)|(b & E0 & _)]; rewrite E0 in E; inversion E; subst.
    + split; reflexivity.
    + not_errored He He'.
  - destruct (read_cases _ _ _ _ _ p (reads_UnpackFixedBytes size) He Hw)
      as [(e & E0)|(b & E0 & _)]; rewrite E0 in E; inversion E; subst.
    + split; reflexivity.
    + not_errored He He'.
  - unfold UnpackBytes, bind in E.
    destruct (read_cases _ _ _ _ _ p reads_UnpackInt He Hw)
      as [(e & E0)|(n & E0 & Hh & _ & Hn)]; rewrite E0 in E.
    + destruct (frozen_UnpackFixedBytes (wrap64 0) (Add e p)
                  (Errored_Add e p)) as (l & F).
      rewrite F in E. inversion E; subst.
      split; [reflexivity | left; reflexivity].
    + pose proof (ready_after_read p (be32 n) He Hl Hh) as Hr1.
      change (llen (be32 n)) with 4 in Hr1.
      destruct (read_cases _ _ _ _ _ (set_Offset (Offset p + 4) p)
                  (reads_UnpackFixedBytes (wrap64 n)) (proj1 Hr1)
                  (ready_well_typed _ Hr1))
        as [(e & E1)|(b & E1 & _)]; rewrite E1 in E; inversion E; subst.
      * split; [reflexivity|]. right. exists n.
        split; [exact Hh | reflexivity].
      * not_errored He He'.
  - unfold UnpackFixedByteSlices, bind in E.
    destruct (read_cases _ _ _ _ _ p reads_UnpackInt He Hw)
      as [(e & E0)|(n & E0 & Hh & _ & Hn)]; rewrite E0 in E.
    + cbn in E. inversion E; subst. left. split; reflexivity.
    + pose proof (ready_after_read p (be32 n) He Hl Hh) as Hr1.
      change (llen (be32 n)) with 4 in Hr1.
      destruct (UnpackFixedByteSlices_loop_cases size (Z.to_nat n) []
                  _ Hr1) as (bss & q & Hh' & Hf & Ho & Hc).
      destruct Hc as [(Ec & Hq & _)|(Ec & Hq & Hlt)];
        rewrite Ec in E; inversion E; subst.
      * rewrite Hq in He'. discriminate He'.
      * right. exists n, bss. cbn [app].
        split; [reflexivity|].
        split; [unfold llen; lia|].
        split; [exact Hf|].
        split.
        { apply holds_app; [exact Hh|].
          change (llen (be32 n)) with 4. exact Hh'. }
        rewrite Ho, (llen_app (be32 n)).
        change (llen (be32 n)) with 4. cbn [set_Offset Offset]. lia.
  - unfold UnpackStr, bind in E.
    destruct (read_cases _ _ _ _ _ p reads_UnpackShort He Hw)
      as [(e & E0)|(n & E0 & Hh & _ & Hn)]; rewrite E0 in E.
    + destruct (frozen_UnpackFixedBytes (wrap64 0) (Add e p)
                  (Errored_Add e p)) as (l & F).
      rewrite F in E. inversion E; subst.
      split; [reflexivity | left; reflexivity].
    + pose proof (ready_after_read p (be16 n) He Hl Hh) as Hr1.
      change (llen (be16 n)) with 2 in Hr1.
      destruct (read_cases _ _ _ _ _ (set_Offset (Offset p + 2) p)
                  (reads_UnpackFixedBytes (wrap64 n)) (proj1 Hr1)
                  (ready_well_typed _ Hr1))
        as [(e & E1)|(b & E1 & _)]; rewrite E1 in E; inversion E; subst.
      * split; [reflexivity|]. right. exists n.
        split; [exact Hh | reflexivity].
      * not_errored He He'.
  - destruct (UnpackIP_cases p He Hw)
      as (d & q & E0 & [(Hq & Hport & Hip)|(Hq & _)]);
      rewrite E0 in E; inversion E; subst.
    + destruct x as [ip port]. cbn [IP Port] in Hport, Hip. subst port.
      exists ip. split; [reflexivity|].
      destruct Hip as [(-> & Ho)|(Hlen & Hh & Ho)]; auto.
    + rewrite Hq in He'. discriminate He'.
  - unfold UnpackIPs, bind in E.
    destruct (read_cases _ _ _ _ _ p reads_UnpackInt He Hw)
      as [(e & E0)|(n & E0 & Hh & _ & Hn)]; rewrite E0 in E.
    + cbn in E. inversion E; subst. left. split; reflexivity.
    + pose proof (ready_after_read p (be32 n) He Hl Hh) as Hr1.
      change (llen (be32 n)) with 4 in Hr1.
      destruct (UnpackIPs_loop_cases (Z.to_nat n) [] _ Hr1)
        as (ips & tl & q & Hf & Hh' & Ho & Hc).
      destruct Hc as [(Ec & Hq & _)|(Ec & Hq & Ht & Hlt)];
        rewrite Ec in E; inversion E; subst.
      * rewrite Hq in He'. discriminate He'.
      * right. exists n, ips, tl. cbn [app].
        split; [reflexivity|].
        split; [unfold llen; lia|].
        split; [exact Hf|].
        split; [exact Ht|].
        split.
        { apply holds_app; [exact Hh|].
          change (llen (be32 n)) with 4. exact Hh'. }
        rewrite Ho, (llen_app (be32 n)).
        change (llen (be32 n)) with 4. cbn [set_Offset Offset]. lia.
Qed.

(* ================================================================== *)
(** ** How far a pack has come when it ends with an error *)

(** The steps of each pack operation, by their widths, in the order in
    which they are made: every step is one [Expand] and one store. A
    string beyond [MaxStringLen] has recorded its error before the first
    step, so none is made. *)
Definition step_widths (v : item) : list Z :=
  match v with
  | IByte _ | IBool _ => [1]
  | IShort _ => [2]
  | IInt _ => [4]
  | ILong _ => [8]
  | IFixedBytes bs => [llen bs]
  | IBytes bs => [4; llen bs]
  | IFixedByteSlices bss => 4 :: map (fun bs => llen bs) bss
  | IStr s => if llen s >? MaxStringLen then [] else [2; llen s]
  | IIP ip => [llen (To16 (IP ip)); 2]
  | IIPs ips => 4 :: flat_map (fun ip => [llen (To16 (IP ip)); 2]) ips
  end.

Definition total (ws : list Z) : Z := fold_right Z.add 0 ws.

(** The widths of the steps that fit into [room], up to the first that
    does not. *)
Fixpoint fits (ws : list Z) (room : Z) : Z :=
  match ws with
  | [] => 0
  | w :: rest => if w <=? room then w + fits rest (room - w) else 0
  end.

(** The room that is left at the offset: up to the length of the buffer
    or up to [MaxSize], whichever is more. *)
Definition free (p : Packer) : Z :=
  Z.max (len (Bytes p)) (MaxSize p) - Offset p.

Lemma total_app (a b : list Z) : total (a ++ b) = total a + total b.
Proof.
  induction a as [|w a IH]; cbn; [reflexivity|].
  fold (total (a ++ b)) (total a). lia.
Qed.

Lemma total_nonneg (ws : list Z) :
  Forall (fun w => 0 <= w) ws -> 0 <= total ws.
Proof.
  induction 1 as [|w ws Hw _ IH]; cbn; [lia|]. fold (total ws). lia.
Qed.

Lemma fits_app_all (a b : list Z) (r : Z) :
  Forall (fun w => 0 <= w) a -> total a <= r ->
  fits (a ++ b) r = total a + fits b (r - total a).
Proof.
  intros Ha. revert r. induction Ha as [|w a Hw Ha IH]; intros r Hr.
  - cbn. f_equal. lia.
  - cbn in *. fold (total a) in *.
    pose proof (total_nonneg a Ha).
    destruct (Z.leb_spec w r); [|lia].
    rewrite IH by lia. replace (r - w - total a) with (r - (w + total a))
      by lia. lia.
Qed.

Lemma fits_app_short (a b : list Z) (r : Z) :
  Forall (fun w => 0 <= w) a -> Forall (fun w => 0 <= w) b ->
  r < total a ->
  fits (a ++ b) r = fits a r.
Proof.
  intros Ha Hb. revert r. induction Ha as [|w a Hw Ha IH]; intros r Hr.
  - cbn in *. destruct Hb as [|w b Hw Hb]; [reflexivity|]. cbn.
    destruct (Z.leb_spec w r); [lia | reflexivity].
  - cbn in *. fold (total a) in *.
    destruct (Z.leb_spec w r); [|reflexivity].
    rewrite IH by lia. reflexivity.
Qed.

Section Advancing.

Variable g : Z -> Z -> nat.

(** [advances m ws]: on a Packer without an error, [m] ends with the
    offset advanced by the steps of [ws] that fit; it ends without an
    error if they all fit, and with one if not. *)
Definition advances (m : M unit) (ws : list Z) : Prop :=
  Forall (fun w => 0 <= w) ws
  /\ forall p,
       ready p -> MaxSize p < two63 -> Offset p + total ws < two63 ->
       exists p',
         m p = Ok tt p'
         /\ Offset p' = Offset p + fits ws (free p)
         /\ MaxSize p' = MaxSize p
         /\ Z.max (len (Bytes p')) (MaxSize p')
            = Z.max (len (Bytes p)) (MaxSize p)
         /\ (if total ws <=? free p then ready p' else Errored p' = true).

Lemma advances_ret : advances (ret tt) [].
Proof.
  split; [constructor|]. intros p Hr Hm Hov. exists p. cbn.
  pose proof Hr as (_ & Ho & _).
  split; [reflexivity|]. split; [lia|]. split; [reflexivity|].
  split; [reflexivity|].
  unfold free. destruct (Z.leb_spec 0 (Z.max (len (Bytes p)) (MaxSize p)
                                       - Offset p)); [exact Hr | lia].
Qed.

Lemma advances_step (m : M unit) (bs : list byte) :
  packs m bs ->
  (forall p, ready p -> Offset p + llen bs < two63 ->
             Z.max (len (Bytes p)) (MaxSize p) < Offset p + llen bs ->
             m p = Ok tt (Add errBadLength p)) ->
  advances m [llen bs].
Proof.
  intros Hp Hno. pose proof (llen_nonneg bs) as Hn.
  split; [constructor; [exact Hn | constructor]|].
  intros p Hr Hm Hov. cbn [total fold_right fits] in *.
  rewrite Z.add_0_r in *. unfold free.
  destruct (Z.leb_spec (llen bs)
              (Z.max (len (Bytes p)) (MaxSize p) - Offset p)) as [Hfit|Hfit].
  - destruct (Hp p Hr) as (p' & E & W).
    { unfold room. split; [lia | exact Hm]. }
    pose proof (wrote_len _ _ _ Hr W) as Hl'.
    pose proof (wrote_ready _ _ _ Hr Hov W) as Hr'.
    destruct W as (_ & Hm' & Ho' & _).
    exists p'. split; [exact E|]. split; [lia|]. split; [exact Hm'|].
    split; [rewrite Hl', Hm'; lia | exact Hr'].
  - exists (Add errBadLength p). split; [apply Hno; [exact Hr | lia | lia]|].
    cbn [Add Offset MaxSize Bytes].
    split; [lia|]. split; [reflexivity|]. split; [reflexivity|].
    apply Errored_Add.
Qed.

Lemma advances_app (m1 m2 : M unit) (ws1 ws2 : list Z) :
  advances m1 ws1 -> advances m2 ws2 -> frozen m2 tt ->
  advances (m1 ;;; m2) (ws1 ++ ws2).
Proof.
  intros (F1 & H1) (F2 & H2) Hf.
  split; [apply Forall_app; split; assumption|].
  intros p Hr Hm Hov. rewrite total_app in *.
  pose proof (total_nonneg ws1 F1). pose proof (total_nonneg ws2 F2).
  destruct (H1 p Hr Hm) as (p1 & E1 & Ho1 & Hm1 & Hx1 & Hc1); [lia|].
  unfold bind. rewrite E1.
  destruct (Z.leb_spec (total ws1) (free p)) as [Hfit|Hfit].
  - rewrite (fits_app_all ws1 ws2 (free p) F1 Hfit).
    assert (fits ws1 (free p) = total ws1) as Hall.
    { rewrite <- (app_nil_r ws1) at 1.
      rewrite (fits_app_all ws1 [] (free p) F1 Hfit). cbn. lia. }
    assert (free p1 = free p - total ws1) as Hfree.
    { unfold free. rewrite Hx1, Ho1, Hall. lia. }
    destruct (H2 p1 Hc1) as (p2 & E2 & Ho2 & Hm2 & Hx2 & Hc2);
      [lia | lia |].
    exists p2. split; [exact E2|].
    split; [rewrite Ho2, Ho1, Hall, Hfree; lia|].
    split; [lia|]. split; [lia|].
    rewrite Hfree in Hc2.
    destruct (Z.leb_spec (total ws2) (free p - total ws1));
      destruct (Z.leb_spec (total ws1 + total ws2) (free p));
      try lia; exact Hc2.
  - rewrite (fits_app_short ws1 ws2 (free p) F1 F2 Hfit).
    destruct (Hf p1 Hc1) as (l & E2). rewrite E2.
    eexists. split; [reflexivity|]. cbn [Offset MaxSize Bytes].
    split; [exact Ho1|]. split; [exact Hm1|]. split; [exact Hx1|].
    destruct (Z.leb_spec (total ws1 + total ws2) (free p)); [lia|].
    apply Errored_more, Hc1.
Qed.

Lemma advances_guard (m : M unit) (ws : list Z) :
  advances m ws ->
  advances (p <- get ;; if Errored p then ret tt else m) ws.
Proof.
  intros (F & H). split; [exact F|]. intros p Hr Hm Hov.
  unfold bind, get. rewrite (Errored_ready p Hr). apply H; assumption.
Qed.

Lemma advances_PackFixedBytes (bs : list byte) :
  advances (PackFixedBytes g bs) [llen bs].
Proof.
  apply advances_step; [apply packs_PackFixedBytes|].
  intros p Hr Hov Hno. apply prim_no_room; try assumption.
  apply llen_nonneg.
Qed.

Lemma advances_PackByte (b : byte) : advances (PackByte g b) [1].
Proof.
  apply (advances_step _ [b]); [apply packs_PackByte|].
  intros p Hr Hov Hno. apply prim_no_room; try assumption.
  unfold ByteLen. lia.
Qed.

Lemma advances_PackShort (v : Z) : advances (PackShort g v) [2].
Proof.
  apply (advances_step _ (be16 v)); [apply packs_PackShort|].
  intros p Hr Hov Hno. apply prim_no_room; try assumption.
  unfold ShortLen. lia.
Qed.

Lemma advances_PackInt (v : Z) : advances (PackInt g v) [4].
Proof.
  apply (advances_step _ (be32 v)); [apply packs_PackInt|].
  intros p Hr Hov Hno. apply prim_no_room; try assumption.
  unfold IntLen. lia.
Qed.

Lemma advances_PackLong (v : Z) : advances (PackLong g v) [8].
Proof.
  apply (advances_step _ (be64 v)); [apply packs_PackLong|].
  intros p Hr Hov Hno. apply prim_no_room; try assumption.
  unfold LongLen. lia.
Qed.

Lemma advances_PackFixedByteSlices_loop (bss : list (list byte)) :
  advances (PackFixedByteSlices_loop g bss) (map (fun bs => llen bs) bss).
Proof.
  induction bss as [|bs bss IH]; cbn [PackFixedByteSlices_loop map].
  - apply advances_ret.
  - apply (advances_app _ _ [llen bs]);
      [apply advances_PackFixedBytes | exact IH |].
    apply frozen_PackFixedByteSlices_loop.
Qed.

Lemma advances_PackIP (ip : IPDesc) :
  advances (PackIP g ip) [llen (To16 (IP ip)); 2].
Proof.
  apply (advances_app _ _ [llen (To16 (IP ip))] [2]);
    [apply advances_PackFixedBytes | apply advances_PackShort |].
  apply frozen_PackShort.
Qed.

Lemma advances_PackIPs_loop (ips : list IPDesc) :
  advances (PackIPs_loop g ips)
    (flat_map (fun ip => [llen (To16 (IP ip)); 2]) ips).
Proof.
  induction ips as [|ip ips IH]; cbn [PackIPs_loop flat_map].
  - apply advances_ret.
  - apply advances_guard.
    apply (advances_app _ _ [llen (To16 (IP ip)); 2]);
      [apply advances_PackIP | exact IH |].
    apply frozen_PackIPs_loop.
Qed.

Lemma advances_pack (v : item) :
  match v with IStr s => llen s <= MaxStringLen | _ => True end ->
  advances (pack g v) (step_widths v).
Proof.
  destruct v; cbn [pack step_widths]; intros Hs.
  - apply advances_PackByte.
  - destruct b; apply advances_PackByte.
  - apply advances_PackShort.
  - apply advances_PackInt.
  - apply advances_PackLong.
  - apply advances_PackFixedBytes.
  - apply (advances_app _ _ [4] [llen bs]);
      [apply advances_PackInt | apply advances_PackFixedBytes |].
    apply frozen_PackFixedBytes.
  - apply (advances_app _ _ [4]);
      [apply advances_PackInt | apply advances_PackFixedByteSlices_loop |].
    apply frozen_PackFixedByteSlices_loop.
  - unfold PackStr.
    destruct (Z.gtb_spec (llen s) MaxStringLen); [lia|].
    apply (advances_app _ _ [] [2; llen s]); [apply advances_ret | |].
    + apply (advances_app _ _ [2] [llen s]);
        [apply advances_PackShort | apply advances_PackFixedBytes |].
      apply frozen_PackFixedBytes.
    + eapply frozen_bind;
        [apply frozen_PackShort | apply frozen_PackFixedBytes].
  - apply advances_PackIP.
  - apply (advances_app _ _ [4]);
      [apply advances_PackInt | apply advances_PackIPs_loop |].
    apply frozen_PackIPs_loop.
Qed.

(** A string beyond the limit: the error is recorded first, and the two
    packing calls that follow do nothing. *)
Lemma PackStr_too_long (s : list byte) (p : Packer) :
  MaxStringLen < llen s ->
  exists p', PackStr g s p = Ok tt p' /\ Offset p' = Offset p
             /\ Errored p' = true.
Proof.
  intros Hs. unfold PackStr.
  destruct (Z.gtb_spec (llen s) MaxStringLen); [|lia].
  unfold bind at 1, modify.
  assert (frozen (PackShort g (uint16 (llen s)) ;;; PackFixedBytes g s) tt)
    as Hf.
  { eapply frozen_bind;
      [apply frozen_PackShort | apply frozen_PackFixedBytes]. }
  destruct (Hf (Add errInvalidInput p) (Errored_Add _ p)) as (l & E).
  rewrite E. eexists. split; [reflexivity|].
  split; [reflexivity | apply Errored_more, Errored_Add].
Qed.

(** Every pack operation on a Packer without an error ends with the
    offset advanced by the widths of its steps that fit, up to the first
    that does not. *)
Lemma pack_advances (v : item) (p : Packer) :
  ready p -> MaxSize p < two63 ->
  Offset p + total (step_widths v) < two63 ->
  exists p',
    pack g v p = Ok tt p'
    /\ Offset p' = Offset p + fits (step_widths v) (free p)
    /\ (free p < total (step_widths v) -> Errored p' = true).
Proof.
  intros Hr Hm Hov.
  assert (match v with IStr s => llen s <= MaxStringLen | _ => True end
          \/ exists s, v = IStr s /\ MaxStringLen < llen s) as [Hs|Hs].
  { destruct v; auto.
    destruct (Z.le_gt_cases (llen s) MaxStringLen); [left; assumption|].
    right. exists s. split; [reflexivity | lia]. }
  - destruct (advances_pack v Hs) as (_ & H).
    destruct (H p Hr Hm Hov) as (p' & E & Ho & _ & _ & Hc).
    exists p'. split; [exact E|]. split; [exact Ho|]. intros Hno.
    destruct (Z.leb_spec (total (step_widths v)) (free p)); [lia|].
    exact Hc.
  - destruct Hs as (s & -> & Hlong). cbn [pack step_widths] in *.
    destruct (Z.gtb_spec (llen s) MaxStringLen); [|lia].
    destruct (PackStr_too_long s p Hlong) as (p' & E & Ho & He).
    exists p'. split; [exact E|]. cbn [fits total fold_right].
    split; [lia|]. intros _. exact He.
Qed.

End Advancing.

(* ================================================================== *)
(** ** The offset after an error, and what is handed back *)



(** A bool byte that is neither 0 nor 1, and what [UnpackBool] leaves. *)
Definition bad_bool : Packer := reader (mkSlice [x02] []).
Definition bad_bool_read : Packer :=
  mkPacker [errBadBool] 0 (mkSlice [x02] []) 1.


(** A list of one address announced, of which the sixteen bytes of the
    address are there and the port is not. *)
Definition port_missing : Packer :=
  reader (mkSlice ([x00; x00; x00; x01] ++ zeros 15 ++ [x01; xaa]) []).

Example UnpackIPs_port_missing :
  exists p',
    unpack KIPs port_missing
    = Ok (IIPs [mkIPDesc (zeros 15 ++ [x01]) 0]) p'
    /\ Errs_ p' = [errBadLength] /\ Offset p' = 20.
Proof. eexists. split; [vm_compute; reflexivity|]. split; reflexivity. Qed.


(* ================================================================== *)
(** * Further properties of the timestamp VM *)

Section TimestampVMMore.

Variable sha256 : list byte -> ID.
Variable codec_NewDefault : Codec.

(** Several calls of [BuildBlock] in a row, at the given wallclock
    times. *)
Fixpoint BuildBlocks (vm : VM) (times : list Time)
    : list (option Block * option vm_error) * VM :=
  match times with
  | [] => ([], vm)
  | now :: rest =>
      let '(r, vm1) := BuildBlock sha256 vm now in
      let '(rs, vm2) := BuildBlocks vm1 rest in
      (r :: rs, vm2)
  end.

(** Several calls of [proposeBlock] in a row. *)
Definition proposeBlocks (vm : VM) (ds : list (list byte)) : VM :=
  fold_left proposeBlock ds vm.

(** The block that [NewBlock] hands to the codec. *)
Definition block_fields (parentID : ID) (data : list byte) (t : Time)
    : Block :=
  mkBlock parentID data (Unix t) ids_Empty [] Unknown.

(** X15. When the codec fails to marshal the block, [BuildBlock] returns
    the codec's error and no block, and the datum it had taken from the
    head of the mempool is gone all the same; the database is as it
    was. *)
Theorem BuildBlock_marshal_failure (vm : VM) (now : Time)
    (value : list byte) (rest : list (list byte)) (err : vm_error) :
  mempool vm = value :: rest ->
  Marshal (codec vm) (block_fields (Preferred vm) value now) = inr err ->
  exists vm',
    BuildBlock sha256 vm now = ((None, Some err), vm')
    /\ mempool vm' = rest
    /\ DB (snowman vm') = DB (snowman vm).
Proof.
  intros Hm HM. unfold BuildBlock, NewBlock. rewrite Hm.
  cbn [codec snowman mempool core_NewBlock PrntID blk_id blk_bytes
       blk_status].
  change (Preferred (mkVM (snowman vm) (codec vm) rest)) with (Preferred vm).
  unfold block_fields in HM. rewrite HM.
  eexists. split; [reflexivity|].
  destruct (llen rest >? 0); split; reflexivity.
Qed.

Lemma BuildBlock_step (vm : VM) (now : Time) (d : list byte)
    (rest : list (list byte)) :
  mempool vm = d :: rest ->
  (exists bs, Marshal (codec vm) (block_fields (Preferred vm) d now)
              = inl bs) ->
  exists b vm',
    BuildBlock sha256 vm now = ((Some b, None), vm')
    /\ Data b = d /\ PrntID b = Preferred vm
    /\ mempool vm' = rest /\ codec vm' = codec vm
    /\ Preferred vm' = Preferred vm.
Proof.
  intros Hm (bs & HM). unfold BuildBlock, NewBlock. rewrite Hm.
  cbn [codec snowman mempool core_NewBlock PrntID blk_id blk_bytes
       blk_status].
  change (Preferred (mkVM (snowman vm) (codec vm) rest)) with (Preferred vm).
  unfold block_fields in HM. rewrite HM.
  eexists _, _. split; [reflexivity|].
  cbn [Data PrntID Block_Initialize].
  destruct (llen rest >? 0); repeat split.
Qed.

Lemma BuildBlocks_fifo (vm : VM) (times : list Time) :
  (forall d t, In d (mempool vm) ->
     exists bs, Marshal (codec vm) (block_fields (Preferred vm) d t)
                = inl bs) ->
  (length times <= length (mempool vm))%nat ->
  map (fun r => (option_map Data (fst r), snd r))
      (fst (BuildBlocks vm times))
  = map (fun d => (Some d, None)) (firstn (length times) (mempool vm))
  /\ mempool (snd (BuildBlocks vm times))
     = skipn (length times) (mempool vm).
Proof.
  revert vm. induction times as [|now times IH]; intros vm HM Hl.
  - split; reflexivity.
  - destruct (mempool vm) as [|d rest] eqn:Hm; [cbn in Hl; lia|].
    destruct (BuildBlock_step vm now d rest Hm)
      as (b & vm1 & E & Hd & _ & Hm1 & Hc1 & Hp1).
    { apply HM. left. reflexivity. }
    cbn [BuildBlocks]. rewrite E.
    destruct (IH vm1) as (IH1 & IH2).
    { intros d' t Hin. rewrite Hc1, Hp1. apply HM. right.
      rewrite Hm1 in Hin. exact Hin. }
    { rewrite Hm1. cbn in Hl. lia. }
    destruct (BuildBlocks vm1 times) as (rs & vm2).
    cbn [fst snd map length firstn skipn option_map] in *.
    rewrite Hd, IH1, IH2, Hm1. split; reflexivity.
Qed.

Lemma mempool_proposeBlocks (vm : VM) (ds : list (list byte)) :
  mempool (proposeBlocks vm ds) = mempool vm ++ ds
  /\ codec (proposeBlocks vm ds) = codec vm
  /\ Preferred (proposeBlocks vm ds) = Preferred vm.
Proof.
  unfold proposeBlocks. revert vm.
  induction ds as [|d ds IH]; intros vm; cbn [fold_left].
  - rewrite app_nil_r. auto.
  - destruct (IH (proposeBlock vm d)) as (-> & -> & ->).
    cbn. rewrite <- app_assoc. auto.
Qed.

(** X16. The mempool is first in, first out. On a VM with an empty
    mempool whose codec marshals the blocks in question, proposing the
    data [ds] in order and then building as many blocks returns, in the
    same order, one block per datum, each without an error, carrying that
    datum; the mempool is empty again, and one more [BuildBlock] fails
    with [errNoPendingBlocks]. *)
Theorem propose_then_build_fifo (vm : VM) (ds : list (list byte))
    (times : list Time) (later : Time) :
  mempool vm = [] ->
  length times = length ds ->
  (forall d t, In d ds ->
     exists bs, Marshal (codec vm) (block_fields (Preferred vm) d t)
                = inl bs) ->
  map (fun r => (option_map Data (fst r), snd r))
      (fst (BuildBlocks (proposeBlocks vm ds) times))
  = map (fun d => (Some d, None)) ds
  /\ mempool (snd (BuildBlocks (proposeBlocks vm ds) times)) = []
  /\ fst (BuildBlock sha256 (snd (BuildBlocks (proposeBlocks vm ds) times))
            later)
     = (None, Some errNoPendingBlocks).
Proof.
  intros Hm Hl HM.
  destruct (mempool_proposeBlocks vm ds) as (Hmp & Hc & Hp).
  rewrite Hm in Hmp. cbn [app] in Hmp.
  destruct (BuildBlocks_fifo (proposeBlocks vm ds) times) as (H1 & H2).
  { intros d t Hin. rewrite Hc, Hp. apply HM. rewrite Hmp in Hin. exact Hin. }
  { rewrite Hmp. lia. }
  rewrite Hmp in H1, H2. rewrite Hl in H1, H2.
  rewrite firstn_all in H1. rewrite skipn_all in H2.
  split; [exact H1|]. split; [exact H2|].
  unfold BuildBlock. rewrite H2. reflexivity.
Qed.

Lemma Initialize_initialized (vm : VM) (db : Database)
    (genesisData : list byte) (toEngine : bool) (id : ID) :
  db_initialized (staged db) = true ->
  db_last_accepted (staged db) = Some id ->
  Initialize sha256 codec_NewDefault vm db genesisData toEngine
  = (mkVM (mkSnowmanVM db id id toEngine) codec_NewDefault (mempool vm),
     None).
Proof.
  intros Hi Hl. unfold Initialize, SnowmanVM_Initialize. rewrite Hi, Hl.
  unfold DBInitialized. cbn [snowman DB]. rewrite Hi. reflexivity.
Qed.

(** X17. On a database that is already initialized, [Initialize] does not
    look at the genesis data at all: whatever its length, also beyond 32
    bytes, [Initialize] returns no error, writes nothing, installs the
    default codec and takes the last accepted block of the database as
    last accepted and as preferred. *)
Theorem Initialize_ignores_genesis_when_initialized (vm : VM)
    (db : Database) (genesisData : list byte) (toEngine : bool) (id : ID) :
  db_initialized (staged db) = true ->
  db_last_accepted (staged db) = Some id ->
  exists vm',
    Initialize sha256 codec_NewDefault vm db genesisData toEngine
    = (vm', None)
    /\ DB (snowman vm') = db
    /\ LastAcceptedID (snowman vm') = id
    /\ preferred (snowman vm') = id
    /\ codec vm' = codec_NewDefault
    /\ mempool vm' = mempool vm.
Proof.
  intros Hi Hl. eexists. split.
  - apply Initialize_initialized; eassumption.
  - repeat split.
Qed.

Lemma Initialize_marks_last_accepted (vm : VM) (db : Database)
    (genesisData : list byte) (toEngine : bool) (blockBytes : list byte) :
  db_initialized (staged db) = false ->
  llen genesisData <= dataLen ->
  Marshal codec_NewDefault (genesis_fields genesisData) = inl blockBytes ->
  exists vm',
    Initialize sha256 codec_NewDefault vm db genesisData toEngine
    = (vm', None)
    /\ db_initialized (staged (DB (snowman vm'))) = true
    /\ db_last_accepted (staged (DB (snowman vm')))
       = Some (sha256 blockBytes)
    /\ GetBlock (DB (snowman vm')) (sha256 blockBytes)
       = Some (blockBytes, Accepted).
Proof.
  intros Hdb Hlen HM.
  unfold Initialize, SnowmanVM_Initialize. rewrite Hdb.
  unfold DBInitialized. cbn [snowman DB negb]. rewrite Hdb. cbn [negb].
  destruct (Z.gtb_spec (llen genesisData) dataLen); [lia|].
  unfold NewBlock.
  cbn [codec core_NewBlock PrntID blk_id blk_bytes blk_status].
  rewrite copy_pads by (unfold dataLen, llen in *; lia).
  change (Unix (time_Unix 0 0)) with 0.
  unfold genesis_fields in HM. rewrite HM.
  eexists. split; [reflexivity|].
  cbn. unfold GetBlock. cbn. rewrite bytes_eqb_refl.
  repeat split.
Qed.

(** X18. A restart finds the genesis block again. After [Initialize] has
    bootstrapped an empty database from genesis data of at most 32 bytes,
    a second [Initialize] on the resulting database, from any VM value
    and with any genesis data, returns no error, leaves the database as
    it is (no second genesis block) and has the genesis block as last
    accepted and preferred block. *)
Theorem Initialize_twice (vm vm2 : VM) (db : Database)
    (genesisData genesisData2 : list byte) (toEngine toEngine2 : bool)
    (blockBytes : list byte) :
  db_initialized (staged db) = false ->
  llen genesisData <= dataLen ->
  Marshal codec_NewDefault (genesis_fields genesisData) = inl blockBytes ->
  exists vm1 vm3,
    Initialize sha256 codec_NewDefault vm db genesisData toEngine
    = (vm1, None)
    /\ Initialize sha256 codec_NewDefault vm2 (DB (snowman vm1))
         genesisData2 toEngine2
       = (vm3, None)
    /\ DB (snowman vm3) = DB (snowman vm1)
    /\ LastAcceptedID (snowman vm3) = sha256 blockBytes
    /\ preferred (snowman vm3) = sha256 blockBytes
    /\ GetBlock (DB (snowman vm3)) (sha256 blockBytes)
       = Some (blockBytes, Accepted).
Proof.
  intros Hdb Hlen HM.
  destruct (Initialize_marks_last_accepted vm db genesisData toEngine
              blockBytes Hdb Hlen HM) as (vm1 & E1 & Hi & Hl & Hg).
  exists vm1. eexists. split; [exact E1|]. split.
  - apply Initialize_initialized; eassumption.
  - cbn. repeat split. exact Hg.
Qed.

(** X19. Parsing gives back what was built. If the codec unmarshals the
    bytes of a new block to a block with the parent, the data and the
    timestamp the block was made of, then [ParseBlock] on those bytes
    returns, without an error, the very block that [NewBlock] returned: the same fields,
    the same bytes, the same id and the same status. *)
Theorem ParseBlock_of_NewBlock (vm : VM) (parentID : ID) (data : list byte)
    (timestamp : Time) (bytes : list byte) (u : Block) :
  Marshal (codec vm) (block_fields parentID data timestamp) = inl bytes ->
  Unmarshal (codec vm) bytes Block_zero = (Full u, None) ->
  PrntID u = parentID -> Data u = data -> Timestamp u = Unix timestamp ->
  exists b,
    NewBlock sha256 vm parentID data timestamp = (Some b, None)
    /\ ParseBlock sha256 vm bytes = Returns (Some b, None)
    /\ blk_bytes b = bytes /\ blk_id b = sha256 bytes.
Proof.
  intros HM HU Hp Hd Ht. unfold NewBlock, ParseBlock.
  cbn [core_NewBlock PrntID blk_id blk_bytes blk_status].
  unfold block_fields in HM. rewrite HM, HU.
  eexists. split; [reflexivity|]. split; [|split; reflexivity].
  unfold BlockPtr_Initialize, Block_Initialize. cbn [PrntID Data Timestamp].
  rewrite Hp, Hd, Ht. reflexivity.
Qed.

End TimestampVMMore.

(* ================================================================== *)
(** * Further instances *)

(** A Packer with four bytes in its buffer, at offset 1. *)
Definition four_byte_packer : Packer :=
  mkPacker [] 16 (mkSlice [x01; x12; x34; x04] []) 1.

Lemma pack_in_place_witness :
  exists p',
    pack doubling (IShort 43981) four_byte_packer = Ok tt p'
    /\ Errored p' = false
    /\ MaxSize p' = MaxSize four_byte_packer
    /\ Offset p' = Offset four_byte_packer + llen (encode (IShort 43981))
    /\ vis (Bytes p')
       = firstn (Z.to_nat (Offset four_byte_packer))
           (vis (Bytes four_byte_packer))
         ++ encode (IShort 43981)
         ++ skipn (Z.to_nat (Offset four_byte_packer)
                   + length (encode (IShort 43981)))
              (vis (Bytes four_byte_packer)).
Proof.
  apply (pack_in_place doubling (IShort 43981) four_byte_packer).
  - exact I.
  - reflexivity.
  - evaluate.
  - evaluate.
  - evaluate.
  - evaluate.
Defined.

Lemma unpack_at_offset_witness :
  unpack KShort four_byte_packer
  = Ok (IShort 4660)
       (set_Offset (Offset four_byte_packer + llen (encode (IShort 4660)))
          four_byte_packer).
Proof.
  apply (unpack_at_offset KShort (IShort 4660) four_byte_packer [x01] [x04]).
  - reflexivity.
  - reflexivity.
  - evaluate.
  - reflexivity.
  - reflexivity.
Defined.

Lemma try_pack_bad_type_witness :
  try_pack doubling TByte (AString [x6f; x6b]) (writer 10)
  = Ok tt (Add errBadType (writer 10)).
Proof.
  apply (try_pack_bad_type doubling TByte (AString [x6f; x6b]) (writer 10)).
  reflexivity.
Defined.

Lemma try_roundtrip_witness :
  exists p q,
    try_pack doubling THash (ABytes (zeros 32)) (writer 32) = Ok tt p
    /\ Errored p = false
    /\ try_unpack THash (reader (Bytes p)) = Ok (ABytes (zeros 32)) q
    /\ Errored q = false
    /\ Offset q = width (IFixedBytes (zeros 32)).
Proof.
  apply (try_roundtrip doubling THash (ABytes (zeros 32))
           (IFixedBytes (zeros 32)) 32).
  - reflexivity.
  - reflexivity.
  - evaluate.
Defined.

Lemma pack_single_step_all_or_nothing_witness :
  pack doubling (IInt 7) (writer 2) = Ok tt (Add errBadLength (writer 2)).
Proof.
  refine (proj2 (pack_single_step_all_or_nothing doubling (IInt 7) (writer 2)
                   _ _ _ _ _ _) _).
  - reflexivity.
  - reflexivity.
  - evaluate.
  - evaluate.
  - evaluate.
  - evaluate.
  - evaluate.
Defined.

Lemma PackBytes_partial_witness :
  exists p1,
    PackBytes doubling [xaa; xbb] (writer 5) = Ok tt (Add errBadLength p1)
    /\ wrote (be32 (uint32 (llen [xaa; xbb]))) (writer 5) p1
    /\ Offset p1 = Offset (writer 5) + 4.
Proof.
  apply (PackBytes_partial doubling [xaa; xbb] (writer 5)).
  - reflexivity.
  - evaluate.
  - evaluate.
  - evaluate.
  - evaluate.
  - evaluate.
  - evaluate.
  - evaluate.
Defined.

Lemma unpack_single_step_witness :
  exists v,
    unpack KShort four_byte_packer
    = Ok v (set_Offset (Offset four_byte_packer + step_width KShort)
              four_byte_packer)
    /\ holds four_byte_packer (encode v) /\ in_domain KShort v = true.
Proof.
  apply (unpack_single_step KShort four_byte_packer).
  - reflexivity.
  - reflexivity.
  - evaluate.
Defined.

Lemma UnpackBool_spec_witness :
  exists b,
    holds (reader (mkSlice [x02] [])) [b]
    /\ UnpackBool (reader (mkSlice [x02] []))
       = Ok (Byte.eqb b x01)
            (if Byte.eqb b x00 || Byte.eqb b x01
             then set_Offset (Offset (reader (mkSlice [x02] [])) + 1)
                    (reader (mkSlice [x02] []))
             else Add errBadBool
                    (set_Offset (Offset (reader (mkSlice [x02] [])) + 1)
                       (reader (mkSlice [x02] [])))).
Proof.
  apply (UnpackBool_spec (reader (mkSlice [x02] []))).
  - reflexivity.
  - evaluate.
Defined.

(** A string of two bytes with its length before it and one more byte
    behind it. *)
Definition string_reader : Packer :=
  reader (mkSlice [x00; x02; x6f; x6b; xff] []).

Lemma unpack_reads_an_encoding_witness :
  in_domain KStr (IStr [x6f; x6b]) = true
  /\ holds string_reader (encode (IStr [x6f; x6b]))
  /\ set_Offset 4 string_reader
     = set_Offset (Offset string_reader + llen (encode (IStr [x6f; x6b])))
         string_reader.
Proof.
  apply (unpack_reads_an_encoding KStr string_reader (IStr [x6f; x6b])
           (set_Offset 4 string_reader)).
  - reflexivity.
  - evaluate.
  - evaluate.
  - evaluate.
  - reflexivity.
Defined.

Lemma pack_prefix_free_witness :
  exists p p',
    pack doubling (IStr [x6f]) (writer 3) = Ok tt p /\ Errored p = false
    /\ pack doubling (IStr [x6f; x6b]) (writer 4) = Ok tt p'
    /\ Errored p' = false
    /\ forall r r',
         vis (Bytes p) ++ r = vis (Bytes p') ++ r' ->
         IStr [x6f] = IStr [x6f; x6b] /\ r = r'.
Proof.
  apply (pack_prefix_free doubling KStr (IStr [x6f]) (IStr [x6f; x6b]) 3 4).
  - reflexivity.
  - reflexivity.
  - evaluate.
  - evaluate.
Defined.

Definition localhost : IPDesc := mkIPDesc [x7f; x00; x00; x01] 80.

Lemma PackIP_roundtrip_To16_witness :
  exists p q,
    PackIP doubling localhost (writer 18) = Ok tt p /\ Errored p = false
    /\ llen (vis (Bytes p)) = 18
    /\ UnpackIP (reader (Bytes p))
       = Ok (mkIPDesc (To16 (IP localhost)) (Port localhost)) q
    /\ Errored q = false.
Proof.
  apply (PackIP_roundtrip_To16 doubling localhost 18).
  - left. reflexivity.
  - evaluate.
  - evaluate.
Defined.

Lemma PackIP_without_address_witness :
  exists p',
    PackIP doubling (mkIPDesc [x7f] 80) (writer 2) = Ok tt p'
    /\ Errored p' = false
    /\ Offset p' = Offset (writer 2) + 2
    /\ vis (Bytes p')
       = overwrite (Z.to_nat (Offset (writer 2)))
           (be16 (Port (mkIPDesc [x7f] 80))) (vis (Bytes (writer 2))).
Proof.
  apply (PackIP_without_address doubling (mkIPDesc [x7f] 80) (writer 2)).
  - discriminate.
  - discriminate.
  - reflexivity.
  - evaluate.
  - evaluate.
  - evaluate.
  - evaluate.
Defined.

Lemma pack_keeps_invariant_witness :
  exists p',
    pack doubling (IBytes [xaa; xbb]) (writer 5) = Ok tt p'
    /\ 0 <= Offset p' <= len (Bytes p')
    /\ len (Bytes p') <= MaxSize p'
    /\ MaxSize p' = MaxSize (writer 5)
    /\ (exists l, Errs_ p' = Errs_ (writer 5) ++ l)
    /\ len (Bytes (writer 5)) <= len (Bytes p')
    /\ Offset (writer 5) <= Offset p'
    /\ firstn (Z.to_nat (Offset (writer 5))) (vis (Bytes p'))
       = firstn (Z.to_nat (Offset (writer 5))) (vis (Bytes (writer 5))).
Proof.
  apply (pack_keeps_invariant doubling (IBytes [xaa; xbb]) (writer 5)).
  - evaluate.
  - evaluate.
  - evaluate.
Defined.

Lemma unpack_only_reads_witness :
  exists v p',
    unpack KBytes truncated_list = Ok v p'
    /\ Bytes p' = Bytes truncated_list
    /\ MaxSize p' = MaxSize truncated_list
    /\ (exists l, Errs_ p' = Errs_ truncated_list ++ l)
    /\ (Offset p' = Offset truncated_list
        \/ (0 <= Offset truncated_list <= Offset p'
            /\ Offset p' <= len (Bytes truncated_list))).
Proof.
  apply (unpack_only_reads KBytes truncated_list).
  - evaluate.
  - evaluate.
Defined.

(** A codec that refuses every block. *)
Definition refusing_codec : Codec :=
  mkCodec (fun _ => inr (errCollaborator errInvalidInput))
          (fun _ b => (b, Some (errCollaborator errInvalidInput))).

Definition refused_pending : VM :=
  mkVM (mkSnowmanVM Database_empty ids_Empty ids_Empty false) refusing_codec
       [zeros 32; first32 hello].

Lemma BuildBlock_marshal_failure_witness :
  exists vm',
    BuildBlock first32 refused_pending (mkTime 1600000000 5)
    = ((None, Some (errCollaborator errInvalidInput)), vm')
    /\ mempool vm' = [first32 hello]
    /\ DB (snowman vm') = DB (snowman refused_pending).
Proof.
  apply (BuildBlock_marshal_failure first32 refused_pending
           (mkTime 1600000000 5) (zeros 32) [first32 hello]
           (errCollaborator errInvalidInput)).
  - reflexivity.
  - reflexivity.
Defined.

(** The codec of the block record marshals every block whose parent and
    data have 32 bytes and whose status is Unknown. *)
Lemma wire_Marshal_block (parentID : ID) (data : list byte) (t : Time) :
  llen parentID = 32 -> llen data = 32 ->
  exists bs,
    Marshal wire_codec (block_fields parentID data t) = inl bs.
Proof.
  intros Hp Hd.
  cbn [Marshal wire_codec]. unfold wire_Marshal, block_fields.
  cbn [PrntID blk_status Data Timestamp status_code].
  assert (0 <= uint64 (Unix t) < two64) as Ht.
  { unfold uint64. apply Z.mod_pos_bound. reflexivity. }
  destruct (roundtrip_all doubling
              [KFixedBytes 32; KInt; KFixedBytes 32; KLong]
              [IFixedBytes parentID; IInt 0; IFixedBytes data;
               ILong (uint64 (Unix t))] 76)
    as (p & E & He & _ & Hv & _).
  - cbn [all_in_domain in_domain]. rewrite Hp, Hd.
    cbn [Z.eqb Pos.eqb andb].
    destruct (Z.leb_spec 0 (uint64 (Unix t))); [|lia].
    destruct (Z.ltb_spec (uint64 (Unix t)) two64); [|lia].
    reflexivity.
  - cbn [total_width width]. rewrite Hp, Hd. evaluate.
  - rewrite E. rewrite (Errored_false p He). eexists. reflexivity.
Qed.

Lemma propose_then_build_fifo_witness :
  map (fun r => (option_map Data (fst r), snd r))
      (fst (BuildBlocks first32
              (proposeBlocks fresh_vm [first32 hello; zeros 32])
              [mkTime 1 0; mkTime 2 0]))
  = map (fun d => (Some d, None)) [first32 hello; zeros 32]
  /\ mempool (snd (BuildBlocks first32
                     (proposeBlocks fresh_vm [first32 hello; zeros 32])
                     [mkTime 1 0; mkTime 2 0])) = []
  /\ fst (BuildBlock first32
            (snd (BuildBlocks first32
                    (proposeBlocks fresh_vm [first32 hello; zeros 32])
                    [mkTime 1 0; mkTime 2 0]))
            (mkTime 3 0))
     = (None, Some errNoPendingBlocks).
Proof.
  apply (propose_then_build_fifo first32 fresh_vm
           [first32 hello; zeros 32] [mkTime 1 0; mkTime 2 0] (mkTime 3 0)).
  - reflexivity.
  - reflexivity.
  - intros d t [<-|[<-|[]]]; apply wire_Marshal_block; reflexivity.
Defined.

(** A database that has been initialized, with the all-zero id as last
    accepted. *)
Definition initialized_db : Database :=
  mkDatabase (mkDBState [] true (Some ids_Empty))
             (mkDBState [] true (Some ids_Empty)).

Lemma Initialize_ignores_genesis_when_initialized_witness :
  exists vm',
    Initialize first32 wire_codec fresh_vm initialized_db (zeros 33) false
    = (vm', None)
    /\ DB (snowman vm') = initialized_db
    /\ LastAcceptedID (snowman vm') = ids_Empty
    /\ preferred (snowman vm') = ids_Empty
    /\ codec vm' = wire_codec
    /\ mempool vm' = mempool fresh_vm.
Proof.
  apply (Initialize_ignores_genesis_when_initialized first32 wire_codec
           fresh_vm initialized_db (zeros 33) false ids_Empty).
  - reflexivity.
  - reflexivity.
Defined.

Lemma Initialize_twice_witness :
  exists vm1 vm3,
    Initialize first32 wire_codec fresh_vm Database_empty hello false
    = (vm1, None)
    /\ Initialize first32 wire_codec refused_pending (DB (snowman vm1))
         (zeros 33) true
       = (vm3, None)
    /\ DB (snowman vm3) = DB (snowman vm1)
    /\ LastAcceptedID (snowman vm3) = first32 hello_genesis_bytes
    /\ preferred (snowman vm3) = first32 hello_genesis_bytes
    /\ GetBlock (DB (snowman vm3)) (first32 hello_genesis_bytes)
       = Some (hello_genesis_bytes, Accepted).
Proof.
  apply (Initialize_twice first32 wire_codec fresh_vm refused_pending
           Database_empty hello (zeros 33) false true hello_genesis_bytes).
  - reflexivity.
  - evaluate.
  - evaluate.
Defined.

(** The bytes of a block on the all-zero parent with all-zero data, made
    at 1600000000 s. *)
Definition built_bytes : list byte :=
  zeros 32 ++ zeros 4 ++ zeros 32
  ++ [x00; x00; x00; x00; x5f; x5e; x10; x00].

Lemma ParseBlock_of_NewBlock_witness :
  exists b,
    NewBlock first32 fresh_vm ids_Empty (zeros 32) (mkTime 1600000000 5)
    = (Some b, None)
    /\ ParseBlock first32 fresh_vm built_bytes = Returns (Some b, None)
    /\ blk_bytes b = built_bytes /\ blk_id b = first32 built_bytes.
Proof.
  apply (ParseBlock_of_NewBlock first32 fresh_vm ids_Empty (zeros 32)
           (mkTime 1600000000 5) built_bytes
           (mkBlock ids_Empty (zeros 32) 1600000000 ids_Empty [] Unknown)).
  - evaluate.
  - evaluate.
  - reflexivity.
  - reflexivity.
  - reflexivity.
Defined.

(* ================================================================== *)
(** * Edges of the Packer *)

Lemma wrap64_over (z : Z) : two63 <= z < two64 -> wrap64 z = z - two64.
Proof.
  intros H. unfold wrap64.
  replace (z + two63) with ((z - two63) + 1 * two64)
    by (unfold two63, two64; lia).
  rewrite Z.mod_add by (unfold two64; lia).
  rewrite Z.mod_small; unfold two63, two64 in *; lia.
Qed.

(** X20. [Expand] computes [bytes + p.Offset] as an [int]. Where that sum
    passes the largest [int] it wraps around to a negative number, which
    is not above the length of the buffer: [Expand] then returns without
    growing the buffer and without recording an error, although the size
    asked for is beyond [MaxSize]. *)
Theorem Expand_overflow (g : Z -> Z -> nat) (p : Packer) (n : Z) :
  Errored p = false ->
  0 <= Offset p <= len (Bytes p) -> len (Bytes p) < two63 ->
  0 <= n < two63 ->
  two63 <= Offset p + n ->
  Expand g n p = Ok tt p.
Proof.
  intros He Ho Hl Hn Hov. apply Errored_false in He.
  unfold Expand. unfold bind at 1.
  rewrite CheckSpace_ready by (unfold ready; auto; lia).
  destruct (Z.ltb_spec (len (Bytes p) - Offset p) 0); [lia|].
  unfold bind, get. unfold Errored. rewrite He.
  rewrite wrap64_over by (unfold two63, two64 in *; lia).
  destruct (Z.leb_spec (n + Offset p - two64) (len (Bytes p)));
    [reflexivity|].
  unfold two63, two64 in *. lia.
Qed.

(** X21. A length that runs past the input. When the four bytes read by
    [UnpackBytes], or the two bytes read by [UnpackStr], announce more
    bytes than remain behind them, the operation returns the empty value
    and records [errBadLength], and the offset stays behind the length it
    has read: the length is consumed, the content is not. *)
Theorem length_beyond_input (p : Packer) (n : Z) :
  Errored p = false -> len (Bytes p) < two63 ->
  (0 <= n < two32 -> holds p (be32 n) ->
   len (Bytes p) - (Offset p + 4) < n ->
   UnpackBytes p = Ok [] (Add errBadLength (set_Offset (Offset p + 4) p)))
  /\ (0 <= n < two16 -> holds p (be16 n) ->
      len (Bytes p) - (Offset p + 2) < n ->
      UnpackStr p = Ok [] (Add errBadLength (set_Offset (Offset p + 2) p))).
Proof.
  intros He Hl. apply Errored_false in He.
  split; intros Hn Hh Hshort; pose proof (holds_bound _ _ Hh) as (Ho & Hb).
  - change (llen (be32 n)) with 4 in Hb.
    unfold UnpackBytes, bind.
    rewrite (unpacks_UnpackInt n Hn p He Hl Hh).
    change (llen (be32 n)) with 4.
    rewrite wrap64_small by (unfold two63, two32 in *; lia).
    pose proof (reads_UnpackFixedBytes n (set_Offset (Offset p + 4) p)) as R.
    unfold CheckSpace_error in R. cbn [set_Offset Offset Bytes] in R.
    destruct (Z.ltb_spec (Offset p + 4) 0); [lia|].
    destruct (Z.ltb_spec n 0); [lia|].
    destruct (Z.ltb_spec (len (Bytes p) - (Offset p + 4)) n); [|lia].
    apply R; [exact He|].
    unfold well_typed. cbn [set_Offset Offset Bytes].
    unfold two63 in *. lia.
  - change (llen (be16 n)) with 2 in Hb.
    unfold UnpackStr, bind.
    rewrite (unpacks_UnpackShort n Hn p He Hl Hh).
    change (llen (be16 n)) with 2.
    rewrite wrap64_small by (unfold two63, two16 in *; lia).
    pose proof (reads_UnpackFixedBytes n (set_Offset (Offset p + 2) p)) as R.
    unfold CheckSpace_error in R. cbn [set_Offset Offset Bytes] in R.
    destruct (Z.ltb_spec (Offset p + 2) 0); [lia|].
    destruct (Z.ltb_spec n 0); [lia|].
    destruct (Z.ltb_spec (len (Bytes p) - (Offset p + 2)) n); [|lia].
    apply R; [exact He|].
    unfold well_typed. cbn [set_Offset Offset Bytes].
    unfold two63 in *. lia.
Qed.

Lemma Expand_overflow_witness :
  Expand doubling MaxInt64 one_byte_packer = Ok tt one_byte_packer.
Proof.
  apply (Expand_overflow doubling one_byte_packer MaxInt64).
  - reflexivity.
  - evaluate.
  - evaluate.
  - evaluate.
  - evaluate.
Defined.

(** A length of three before a content of one byte. *)
Definition short_bytes : Packer :=
  reader (mkSlice [x00; x00; x00; x03; xaa] []).

Lemma length_beyond_input_witness :
  UnpackBytes short_bytes
  = Ok [] (Add errBadLength (set_Offset (Offset short_bytes + 4) short_bytes)).
Proof.
  refine (proj1 (length_beyond_input short_bytes 3 _ _) _ _ _).
  - reflexivity.
  - evaluate.
  - evaluate.
  - exists [], [xaa]. split; reflexivity.
  - evaluate.
Defined.
